(** * MiniLang front-end: lexer, semantic analyzer and quadruple generator

    A shallow embedding of the Python sources

    - [Lexical_analyzer.py]   (class [Lexer]),
    - [Parser.py]             (function [lex]; the shapes of the AST nodes),
    - [semantic_analyzer.py]  (class [SemanticAnalyzer]),
    - [InterCodeGenerator.py] (class [QuadrupleGenerator]),

    followed by the properties of the specification, each stated over
    these definitions.

    Conventions.  Python objects with mutable fields become records that
    are threaded through a state-and-exception monad; a raised exception
    is the [Raise] result.  A Python list used as a stack ([append] /
    [pop] / [[-1]]) is a Rocq list whose head is the top of the stack.
    AST nodes are the dictionaries built by [Parser.py]: one constructor
    per ['type'] tag, with the keys of that dictionary as arguments.  The
    consumers dispatch on the tag *string*, as the source does, through
    [node_type]. *)

From Stdlib Require Import NArith ZArith Ascii String List Lia Bool.
From stdpp Require Import base tactics option list strings pretty gmap.

Open Scope string_scope.
Open Scope N_scope.
Open Scope list_scope.

Scheme All for list.
Scheme All for option.

(** ** Exceptions *)

(** The exception classes that the four modules raise, together with the
    built-in ones that the Python run time raises on their behalf. *)
Inductive exn : Type :=
| ValueError (msg : string)
| SyntaxError (msg : string)
| TypeError
| AttributeError
| KeyError
| IndexError
| AssertionError
| SemanticError
| UndeclaredVariableError
| ImmutableAssignmentError
| TypeMismatchError
| ReturnTypeError
| InvalidControlFlowError
| UninitializedVariableError
| BorrowCheckError.

(** [isinstance(e, SemanticError)] : the subclasses declared at the top of
    [semantic_analyzer.py]. *)
Definition is_semantic_error (e : exn) : bool :=
  match e with
  | SemanticError | UndeclaredVariableError | ImmutableAssignmentError
  | TypeMismatchError | ReturnTypeError | InvalidControlFlowError
  | UninitializedVariableError | BorrowCheckError => true
  | _ => false
  end.

Inductive result (A : Type) : Type :=
| Ok (a : A)
| Raise (e : exn).
Arguments Ok {A} a.
Arguments Raise {A} e.

(** ** Integers and their decimal text *)

(** [sys.get_int_max_str_digits()], at its default: [int(s)] and
    [str(n)] raise [ValueError] beyond that many digits. *)
Definition int_max_str_digits : N := 4300.

Definition str_too_many_digits : exn :=
  ValueError ("Exceeds the limit (4300 digits) for integer string conversion; "
              +:+ "use sys.set_int_max_str_digits() to increase the limit").

(** [str(n)] for an [int] that is not negative. *)
Definition str (n : N) : result string :=
  if int_max_str_digits <? N.of_nat (String.length (pretty n))
  then Raise str_too_many_digits
  else Ok (pretty n).

(** ** State and exception monad *)

Definition M (S A : Type) : Type := S -> result (A * S).

Definition ret {S A} (a : A) : M S A := fun s => Ok (a, s).
Definition raise {S A} (e : exn) : M S A := fun _ => Raise e.
Definition bind {S A B} (m : M S A) (k : A -> M S B) : M S B :=
  fun s => match m s with
           | Ok (a, s') => k a s'
           | Raise e => Raise e
           end.
Definition get {S} : M S S := fun s => Ok (s, s).
Definition modify {S} (f : S -> S) : M S unit := fun s => Ok (tt, f s).

Declare Scope py_scope.
Delimit Scope py_scope with py.
Notation "x <- m ;; k" := (bind m (fun x => k))
  (at level 100, m at next level, right associativity) : py_scope.
Notation "m ;;; k" := (bind m (fun _ => k))
  (at level 100, right associativity) : py_scope.
Open Scope py_scope.

(** [for x in l: f(x)] *)
Definition for_each {S A} (f : A -> M S unit) : list A -> M S unit :=
  fix go l :=
    match l with
    | [] => ret tt
    | x :: r => f x ;;; go r
    end.

(** [[f(x) for x in l]] *)
Definition list_comp {S A B} (f : A -> M S B) : list A -> M S (list B) :=
  fix go l :=
    match l with
    | [] => ret []
    | x :: r => y <- f x ;; ys <- go r ;; ret (y :: ys)
    end.

(** [for i, x in enumerate(l): f(i, x)], counting from [i]. *)
Definition for_enumerate {S A} (f : N -> A -> M S unit) : N -> list A -> M S unit :=
  fix go i l :=
    match l with
    | [] => ret tt
    | x :: r => f i x ;;; go (i + 1) r
    end.

(** ** Abstract syntax *)

(** Type values as they sit on AST edges and in the analyzer: [None],
    the string ['i32'], or a dictionary tagged ['ReferenceType'],
    ['ArrayType'], ['TupleType'] (built by [Parser.parse_type]) or
    ['Tuple'] (built by [SemanticAnalyzer.infer_expr_type] for a tuple
    literal). *)
Inductive tyval : Type :=
| TNone
| TI32
| ReferenceType (mut : bool) (inner : tyval)
| ArrayType (inner : tyval) (size : N)
| TupleType (elements : list tyval)
| Tuple (elements : list tyval).

(** The ['index'] of a [TupleAccess]: an [int] after [.0], a [str] after
    [.name] (Parser.parse_factor). *)
Inductive tindex : Type :=
| IdxInt (n : N)
| IdxStr (s : string).

(** A parameter dictionary [{'mut', 'name', 'type'}]; it has no node tag,
    its ['type'] key holds the parameter's type. *)
Record param : Type := Param {
  p_mut : bool;
  p_name : string;
  p_type : tyval
}.

(** One constructor per dictionary shape of [Parser.py]; the argument
    names are the keys.  [UnaryExpr] is never built by the parser but is
    consumed by the generator. *)
Inductive node : Type :=
| Program (declarations : list node)
| FunctionDecl (name : string) (params : list param) (return_type : tyval) (body : node)
| VarDecl (mut : bool) (name : string) (var_type : tyval) (init : option node)
| Assignment (target value : node)
| ExprStmt (expr : node)
| IfStmt (condition then_ : node) (else_ : option node)
| WhileStmt (condition body : node)
| ForStmt (mut : bool) (var : string) (var_type : tyval) (start end_ body : node)
| LoopStmt (body : node)
| ReturnStmt (expression : option node)
| BreakStmt (expression : option node)
| ContinueStmt
| EmptyStmt
| Block (statements : list node)
| Literal (value : N)
| Identifier (name : string)
| BinaryExpression (operator : string) (left right : node)
| UnaryExpr (operator : string) (argument : node)
| CallExpression (callee : string) (arguments : list node)
| IfExpr (condition then_ else_ : node)
| LoopExpr (body : node)
| RefExpr (mut : bool) (operand : node)
| DerefExpr (operand : node)
| IndexExpr (target index : node)
| TupleAccess (target : node) (index : tindex)
| ArrayLiteral (elements : list node)
| TupleLiteral (elements : list node)
| FunctionExprBlock (elements : list node).

(** The value stored under the ['type'] key. *)
Definition node_type (n : node) : string :=
  match n with
  | Program _ => "Program"
  | FunctionDecl _ _ _ _ => "FunctionDecl"
  | VarDecl _ _ _ _ => "VarDecl"
  | Assignment _ _ => "Assignment"
  | ExprStmt _ => "ExprStmt"
  | IfStmt _ _ _ => "IfStmt"
  | WhileStmt _ _ => "WhileStmt"
  | ForStmt _ _ _ _ _ _ => "ForStmt"
  | LoopStmt _ => "LoopStmt"
  | ReturnStmt _ => "ReturnStmt"
  | BreakStmt _ => "BreakStmt"
  | ContinueStmt => "ContinueStmt"
  | EmptyStmt => "EmptyStmt"
  | Block _ => "Block"
  | Literal _ => "Literal"
  | Identifier _ => "Identifier"
  | BinaryExpression _ _ _ => "BinaryExpression"
  | UnaryExpr _ _ => "UnaryExpr"
  | CallExpression _ _ => "CallExpression"
  | IfExpr _ _ _ => "IfExpr"
  | LoopExpr _ => "LoopExpr"
  | RefExpr _ _ => "RefExpr"
  | DerefExpr _ => "DerefExpr"
  | IndexExpr _ _ => "IndexExpr"
  | TupleAccess _ _ => "TupleAccess"
  | ArrayLiteral _ => "ArrayLiteral"
  | TupleLiteral _ => "TupleLiteral"
  | FunctionExprBlock _ => "FunctionExprBlock"
  end.

(** [n['type'] == s] *)
Definition tag_is (n : node) (s : string) : bool := String.eqb (node_type n) s.

(** ** Quadruple generator ([InterCodeGenerator.py]) *)

Module QuadGen.

(** A field of a quadruple: [None], a [str], an [int], or (fourth field of
    the [declare] quad of a [for] loop) a type dictionary. *)
Inductive field : Type :=
| FNone
| FStr (s : string)
| FInt (n : N)
| FType (t : tyval).

Definition quad : Type := string * field * field * field.

(** The value names returned by [_process_expr] are [str] or [None]. *)
Definition field_of_value (v : option string) : field :=
  match v with
  | Some s => FStr s
  | None => FNone
  end.

Definition field_of_type (t : tyval) : field :=
  match t with
  | TNone => FNone
  | TI32 => FStr "i32"
  | _ => FType t
  end.

Definition field_of_index (i : tindex) : field :=
  match i with
  | IdxInt n => FInt n
  | IdxStr s => FStr s
  end.

(** An entry of [loop_stack]. *)
Record loop_ctx : Type := LoopCtx {
  start_label : string;
  end_label : string;
  result_temp : option string
}.

(** The attributes of a [QuadrupleGenerator] instance.  The head of
    [loop_stack] is [self.loop_stack[-1]]. *)
Record generator : Type := Generator {
  ast : node;
  quadruples : list quad;
  temp_counter : N;
  label_counter : N;
  loop_stack : list loop_ctx;
  current_function : option string
}.

Definition G (A : Type) : Type := M generator A.

Definition __init__ (ast : node) : generator :=
  Generator ast [] 0 0 [] None.

Definition _reset : G unit :=
  modify (fun g => Generator (ast g) [] 0 0 [] None).

(** [self.quadruples.append(q)] *)
Definition append (q : quad) : G unit :=
  modify (fun g => Generator (ast g) (quadruples g ++ [q]) (temp_counter g)
                     (label_counter g) (loop_stack g) (current_function g)).

(** [f"t{self.temp_counter}"] and [f"L{self.label_counter}"].  [_reset]
    sets the counters to 0 and each call adds one, which keeps their
    decimal text far below [int_max_str_digits]; the limit is not
    modelled for them. *)
Definition new_temp : G string :=
  fun g => Ok ("t" +:+ pretty (temp_counter g),
               Generator (ast g) (quadruples g) (temp_counter g + 1)
                 (label_counter g) (loop_stack g) (current_function g)).

Definition new_label : G string :=
  fun g => Ok ("L" +:+ pretty (label_counter g),
               Generator (ast g) (quadruples g) (temp_counter g)
                 (label_counter g + 1) (loop_stack g) (current_function g)).

Definition loop_stack_append (c : loop_ctx) : G unit :=
  modify (fun g => Generator (ast g) (quadruples g) (temp_counter g)
                     (label_counter g) (c :: loop_stack g) (current_function g)).

(** [self.loop_stack.pop()] *)
Definition loop_stack_pop : G unit :=
  fun g => match loop_stack g with
           | [] => Raise IndexError
           | _ :: r => Ok (tt, Generator (ast g) (quadruples g) (temp_counter g)
                                 (label_counter g) r (current_function g))
           end.

Definition set_current_function (f : option string) : G unit :=
  modify (fun g => Generator (ast g) (quadruples g) (temp_counter g)
                     (label_counter g) (loop_stack g) f).

Definition _process_parameter (p : param) : G unit :=
  let param_name := p_name p in
  append ("param", FStr param_name, FNone, FNone).

Definition _process_literal (literal : node) : G (option string) :=
  match literal with
  | Literal value =>
      match str value with
      | Ok s => ret (Some s)
      | Raise e => raise e
      end
  | _ => ret (Some "unknown_value")
  end.

Definition _process_break_stmt (stmt : node) : G unit :=
  g <- get ;;
  match loop_stack g with
  | [] => raise (ValueError "break statement outside of loop")
  | loop_info :: _ =>
      let end_label := end_label loop_info in
      append ("goto", FNone, FNone, FStr end_label)
  end.

Definition _process_continue_stmt (stmt : node) : G unit :=
  g <- get ;;
  match loop_stack g with
  | [] => raise (ValueError "continue statement outside of loop")
  | loop_info :: _ =>
      let start_label := start_label loop_info in
      append ("goto", FNone, FNone, FStr start_label)
  end.

(** The handlers below are the methods of the class that recurse into
    sub-nodes.  Each takes the methods it calls as arguments ([pe] for
    [_process_expr], [pb] for [_process_block], [ps] for
    [_process_statement], [pel] for [_process_elements]); the recursive
    knot is tied in the [Fixpoint] that follows.  A missing key read with
    [.get(k, {})] yields the empty dictionary, on which every method is a
    no-op (and [_process_expr] returns [None]); these are the [| _ =>]
    arms. *)
Section Handlers.

Variable pe : node -> G (option string).
Variable pb : node -> G unit.
Variable ps : node -> G unit.
Variable pel : node -> G unit.
(** [_process_statement] calls [_process_block(stmt)] on the statement it
    was given; that one call is passed separately ([pb_self]) so that the
    recursion below stays structural. *)
Variable pb_self : node -> G unit.

Definition _process_block_body (block : node) : G unit :=
  if tag_is block "FunctionExprBlock" then
    match block with
    | FunctionExprBlock elements => for_each pel elements
    | _ => ret tt
    end
  else if tag_is block "Block" then
    match block with
    | Block statements => for_each ps statements
    | _ => ret tt
    end
  else ret tt.

Definition _process_variable_decl (decl : node) : G unit :=
  match decl with
  | VarDecl is_mut var_name _ init =>
      append ("declare", FStr var_name, FStr (if is_mut then "mut" else "const"), FNone) ;;;
      match init with
      | Some init =>
          init_value <- pe init ;;
          append ("=", field_of_value init_value, FNone, FStr var_name)
      | None => ret tt
      end
  | _ => append ("declare", FStr "unknown_var", FStr "const", FNone)
  end.

Definition _process_assignment (stmt : node) : G unit :=
  match stmt with
  | Assignment target value_ =>
      value <- pe value_ ;;
      if tag_is target "Identifier" then
        match target with
        | Identifier target_name => append ("=", field_of_value value, FNone, FStr target_name)
        | _ => append ("=", field_of_value value, FNone, FStr "unknown_id")
        end
      else if tag_is target "IndexExpr" then
        match target with
        | IndexExpr t i =>
            array <- pe t ;;
            index <- pe i ;;
            append ("[]=", field_of_value array, field_of_value index, field_of_value value)
        | _ => append ("[]=", FNone, FNone, field_of_value value)
        end
      else if tag_is target "TupleAccess" then
        match target with
        | TupleAccess t index =>
            tuple_var <- pe t ;;
            append ("tuple[]=", field_of_value tuple_var, field_of_index index, field_of_value value)
        | _ => append ("tuple[]=", FNone, FInt 0, field_of_value value)
        end
      else if tag_is target "DerefExpr" then
        match target with
        | DerefExpr operand =>
            ptr <- pe operand ;;
            append ("*=", field_of_value ptr, FNone, field_of_value value)
        | _ => append ("*=", FNone, FNone, field_of_value value)
        end
      else ret tt
  | _ => ret tt
  end.

Definition _process_if_stmt (stmt : node) : G unit :=
  match stmt with
  | IfStmt condition then_block else_block =>
      cond <- pe condition ;;
      else_label <- new_label ;;
      end_label <- new_label ;;
      append ("ifz", field_of_value cond, FNone, FStr else_label) ;;;
      pb then_block ;;;
      append ("goto", FNone, FNone, FStr end_label) ;;;
      append (else_label +:+ ":", FNone, FNone, FNone) ;;;
      match else_block with
      | Some else_block => pb else_block
      | None => ret tt
      end ;;;
      append (end_label +:+ ":", FNone, FNone, FNone)
  | _ => ret tt
  end.

Definition _process_while_stmt (stmt : node) : G unit :=
  match stmt with
  | WhileStmt condition body =>
      start_label <- new_label ;;
      end_label <- new_label ;;
      loop_stack_append (LoopCtx start_label end_label None) ;;;
      append (start_label +:+ ":", FNone, FNone, FNone) ;;;
      cond <- pe condition ;;
      append ("ifz", field_of_value cond, FNone, FStr end_label) ;;;
      pb body ;;;
      append ("goto", FNone, FNone, FStr start_label) ;;;
      append (end_label +:+ ":", FNone, FNone, FNone) ;;;
      loop_stack_pop
  | _ => ret tt
  end.

Definition _process_for_stmt (stmt : node) : G unit :=
  match stmt with
  | ForStmt is_mut var_name var_type start_ end_ body =>
      start <- pe start_ ;;
      end_v <- pe end_ ;;
      start_label <- new_label ;;
      end_label <- new_label ;;
      loop_stack_append (LoopCtx start_label end_label None) ;;;
      append ("declare", FStr var_name, FStr (if is_mut then "mut" else "const"),
              field_of_type var_type) ;;;
      append ("=", field_of_value start, FNone, FStr var_name) ;;;
      append (start_label +:+ ":", FNone, FNone, FNone) ;;;
      temp <- new_temp ;;
      append ("<", FStr var_name, field_of_value end_v, FStr temp) ;;;
      append ("ifz", FStr temp, FNone, FStr end_label) ;;;
      pb body ;;;
      inc_temp <- new_temp ;;
      append ("+", FStr var_name, FStr "1", FStr inc_temp) ;;;
      append ("=", FStr inc_temp, FNone, FStr var_name) ;;;
      append ("goto", FNone, FNone, FStr start_label) ;;;
      append (end_label +:+ ":", FNone, FNone, FNone) ;;;
      loop_stack_pop
  | _ => ret tt
  end.

Definition _process_loop_stmt (stmt : node) : G unit :=
  match stmt with
  | LoopStmt body =>
      start_label <- new_label ;;
      end_label <- new_label ;;
      loop_stack_append (LoopCtx start_label end_label None) ;;;
      append (start_label +:+ ":", FNone, FNone, FNone) ;;;
      pb body ;;;
      append ("goto", FNone, FNone, FStr start_label) ;;;
      append (end_label +:+ ":", FNone, FNone, FNone) ;;;
      loop_stack_pop
  | _ => ret tt
  end.

Definition _process_return_stmt (stmt : node) : G unit :=
  match stmt with
  | ReturnStmt (Some expression) =>
      expr <- pe expression ;;
      append ("return", field_of_value expr, FNone, FNone)
  | _ => append ("return", FNone, FNone, FNone)
  end.

Definition _process_binary_expr (expr : node) : G (option string) :=
  match expr with
  | BinaryExpression op l r =>
      left <- pe l ;;
      right <- pe r ;;
      temp <- new_temp ;;
      append (op, field_of_value left, field_of_value right, FStr temp) ;;;
      ret (Some temp)
  | _ => temp <- new_temp ;; append ("?", FNone, FNone, FStr temp) ;;; ret (Some temp)
  end.

Definition _process_unary_expr (expr : node) : G (option string) :=
  match expr with
  | UnaryExpr op argument =>
      operand <- pe argument ;;
      temp <- new_temp ;;
      append (op, field_of_value operand, FNone, FStr temp) ;;;
      ret (Some temp)
  | _ => temp <- new_temp ;; append ("?", FNone, FNone, FStr temp) ;;; ret (Some temp)
  end.

Definition _process_call_expr (expr : node) : G (option string) :=
  match expr with
  | CallExpression callee args =>
      for_each (fun arg =>
                  arg_value <- pe arg ;;
                  append ("param", field_of_value arg_value, FNone, FNone)) args ;;;
      result <- new_temp ;;
      append ("call", FStr callee, FInt (N.of_nat (length args)), FStr result) ;;;
      ret (Some result)
  | _ =>
      result <- new_temp ;;
      append ("call", FStr "unknown_func", FInt 0, FStr result) ;;;
      ret (Some result)
  end.

Definition _process_if_expr (expr : node) : G (option string) :=
  match expr with
  | IfExpr condition then_expr else_expr =>
      cond <- pe condition ;;
      else_label <- new_label ;;
      end_label <- new_label ;;
      result_temp <- new_temp ;;
      append ("ifz", field_of_value cond, FNone, FStr else_label) ;;;
      then_value <- pe then_expr ;;
      append ("=", field_of_value then_value, FNone, FStr result_temp) ;;;
      append ("goto", FNone, FNone, FStr end_label) ;;;
      append (else_label +:+ ":", FNone, FNone, FNone) ;;;
      else_value <- pe else_expr ;;
      append ("=", field_of_value else_value, FNone, FStr result_temp) ;;;
      append (end_label +:+ ":", FNone, FNone, FNone) ;;;
      ret (Some result_temp)
  | _ => ret None
  end.

Definition _process_loop_expr (expr : node) : G (option string) :=
  match expr with
  | LoopExpr body =>
      start_label <- new_label ;;
      end_label <- new_label ;;
      result_temp <- new_temp ;;
      loop_stack_append (LoopCtx start_label end_label (Some result_temp)) ;;;
      append (start_label +:+ ":", FNone, FNone, FNone) ;;;
      pe body ;;;
      append ("goto", FNone, FNone, FStr start_label) ;;;
      append (end_label +:+ ":", FNone, FNone, FNone) ;;;
      loop_stack_pop ;;;
      ret (Some result_temp)
  | _ => ret None
  end.

Definition _process_deref_expr (expr : node) : G (option string) :=
  match expr with
  | DerefExpr o =>
      operand <- pe o ;;
      temp <- new_temp ;;
      append ("*", field_of_value operand, FNone, FStr temp) ;;;
      ret (Some temp)
  | _ => temp <- new_temp ;; append ("*", FNone, FNone, FStr temp) ;;; ret (Some temp)
  end.

Definition _process_ref_expr (expr : node) : G (option string) :=
  match expr with
  | RefExpr is_mut o =>
      operand <- pe o ;;
      temp <- new_temp ;;
      append ("&", field_of_value operand, FStr (if is_mut then "mut" else "const"), FStr temp) ;;;
      ret (Some temp)
  | _ => temp <- new_temp ;; append ("&", FNone, FStr "const", FStr temp) ;;; ret (Some temp)
  end.

Definition _process_index_expr (expr : node) : G (option string) :=
  match expr with
  | IndexExpr t i =>
      target <- pe t ;;
      index <- pe i ;;
      temp <- new_temp ;;
      append ("[]", field_of_value target, field_of_value index, FStr temp) ;;;
      ret (Some temp)
  | _ => temp <- new_temp ;; append ("[]", FNone, FNone, FStr temp) ;;; ret (Some temp)
  end.

Definition _process_tuple_access (expr : node) : G (option string) :=
  match expr with
  | TupleAccess t index =>
      target <- pe t ;;
      temp <- new_temp ;;
      append ("tuple[]", field_of_value target, field_of_index index, FStr temp) ;;;
      ret (Some temp)
  | _ => temp <- new_temp ;; append ("tuple[]", FNone, FInt 0, FStr temp) ;;; ret (Some temp)
  end.

Definition _process_array_literal (expr : node) : G (option string) :=
  match expr with
  | ArrayLiteral elements =>
      array_temp <- new_temp ;;
      append ("new_array", FInt (N.of_nat (length elements)), FNone, FStr array_temp) ;;;
      for_enumerate (fun i element =>
                       element_value <- pe element ;;
                       append ("[]=", FStr array_temp, FInt i, field_of_value element_value))
                    0 elements ;;;
      ret (Some array_temp)
  | _ =>
      array_temp <- new_temp ;;
      append ("new_array", FInt 0, FNone, FStr array_temp) ;;; ret (Some array_temp)
  end.

Definition _process_tuple_literal (expr : node) : G (option string) :=
  match expr with
  | TupleLiteral elements =>
      tuple_temp <- new_temp ;;
      append ("new_tuple", FInt (N.of_nat (length elements)), FNone, FStr tuple_temp) ;;;
      for_enumerate (fun i element =>
                       element_value <- pe element ;;
                       append ("tuple[]=", FStr tuple_temp, FInt i, field_of_value element_value))
                    0 elements ;;;
      ret (Some tuple_temp)
  | _ =>
      tuple_temp <- new_temp ;;
      append ("new_tuple", FInt 0, FNone, FStr tuple_temp) ;;; ret (Some tuple_temp)
  end.

(** The four dispatching methods, one [if]/[elif] arm per line of the
    source. *)
Definition _process_expr_body (expr : node) : G (option string) :=
  if tag_is expr "BinaryExpression" then _process_binary_expr expr
  else if tag_is expr "CallExpression" then _process_call_expr expr
  else if tag_is expr "Identifier" then
    match expr with
    | Identifier name => ret (Some name)
    | _ => ret (Some "unknown_id")
    end
  else if tag_is expr "Literal" then _process_literal expr
  else if tag_is expr "IfExpr" then _process_if_expr expr
  else if tag_is expr "LoopExpr" then _process_loop_expr expr
  else if tag_is expr "UnaryExpr" then _process_unary_expr expr
  else if tag_is expr "DerefExpr" then _process_deref_expr expr
  else if tag_is expr "RefExpr" then _process_ref_expr expr
  else if tag_is expr "IndexExpr" then _process_index_expr expr
  else if tag_is expr "TupleAccess" then _process_tuple_access expr
  else if tag_is expr "ArrayLiteral" then _process_array_literal expr
  else if tag_is expr "TupleLiteral" then _process_tuple_literal expr
  else ret None.

Definition _process_elements_body (element : node) : G unit :=
  if tag_is element "VariableDecl" then _process_variable_decl element
  else if tag_is element "ExprStmt" then
    match element with
    | ExprStmt expr => pe expr ;;; ret tt
    | _ => ret tt
    end
  else if tag_is element "Assignment" then _process_assignment element
  else if tag_is element "IfStmt" then _process_if_stmt element
  else if tag_is element "WhileStmt" then _process_while_stmt element
  else if tag_is element "ForStmt" then _process_for_stmt element
  else if tag_is element "LoopStmt" then _process_loop_stmt element
  else if tag_is element "ReturnStmt" then _process_return_stmt element
  else if tag_is element "BreakStmt" then _process_break_stmt element
  else if tag_is element "ContinueStmt" then _process_continue_stmt element
  else if tag_is element "Block" then
    match element with
    | Block statements => for_each ps statements
    | _ => ret tt
    end
  else ret tt.

Definition _process_statement_body (stmt : node) : G unit :=
  if tag_is stmt "EmptyStmt" then ret tt
  else if tag_is stmt "ExprStmt" then
    match stmt with
    | ExprStmt expr => pe expr ;;; ret tt
    | _ => ret tt
    end
  else if tag_is stmt "Assignment" then _process_assignment stmt
  else if tag_is stmt "IfStmt" then _process_if_stmt stmt
  else if tag_is stmt "WhileStmt" then _process_while_stmt stmt
  else if tag_is stmt "ForStmt" then _process_for_stmt stmt
  else if tag_is stmt "LoopStmt" then _process_loop_stmt stmt
  else if tag_is stmt "ReturnStmt" then _process_return_stmt stmt
  else if tag_is stmt "BreakStmt" then _process_break_stmt stmt
  else if tag_is stmt "ContinueStmt" then _process_continue_stmt stmt
  else if tag_is stmt "Block" then pb_self stmt
  else ret tt.

End Handlers.

(** The methods recurse on the tree.  The recursion limit of the
    interpreter is not modelled: on a tree that is too deep for it the
    code raises [RecursionError] where these functions go on.  What is
    proved of them is therefore stated of the result that a run returns
    and of the exceptions that the methods raise themselves. *)
Fixpoint _process_expr (expr : node) {struct expr} : G (option string) :=
  _process_expr_body _process_expr expr.

Fixpoint _process_block (block : node) {struct block} : G unit :=
  _process_block_body _process_statement _process_elements block
with _process_elements (element : node) {struct element} : G unit :=
  _process_elements_body _process_expr _process_block _process_statement element
with _process_statement (stmt : node) {struct stmt} : G unit :=
  _process_statement_body _process_expr _process_block
    (_process_block_body _process_statement _process_elements) stmt.

Definition _process_function (func : node) : G unit :=
  match func with
  | FunctionDecl func_name params _ body =>
      set_current_function (Some func_name) ;;;
      append (func_name +:+ ":", FNone, FNone, FNone) ;;;
      for_each _process_parameter params ;;;
      _process_block body ;;;
      g <- get ;;
      (if negb (existsb (fun q : quad => String.eqb (q.1.1.1) "return") (quadruples g))
       then append ("return", FNone, FNone, FNone)
       else ret tt) ;;;
      set_current_function None
  | _ => ret tt
  end.

Definition _process_declaration (decl : node) : G unit :=
  if tag_is decl "FunctionDecl" then _process_function decl
  else if tag_is decl "VarDecl" then _process_variable_decl _process_expr decl
  else ret tt.

Definition _process_program (n : node) : G unit :=
  if tag_is n "Program" then
    match n with
    | Program declarations => for_each _process_declaration declarations
    | _ => ret tt
    end
  else ret tt.

(** [generate] returns [self.quadruples]; the generator object lives on. *)
Definition generate : G (list quad) :=
  _reset ;;;
  g <- get ;;
  _process_program (ast g) ;;;
  g' <- get ;;
  ret (quadruples g').

(** [generate_quadruples(ast)] *)
Definition generate_quadruples (ast : node) : result (list quad) :=
  match generate (__init__ ast) with
  | Ok (qs, _) => Ok qs
  | Raise e => Raise e
  end.

End QuadGen.

(** ** Semantic analyzer ([semantic_analyzer.py]) *)

Module Sema.

(** Python [==] on type values: strings by content, dictionaries key by
    key.  Two type dictionaries with different ['type'] entries differ. *)
Fixpoint tyval_eqb (a b : tyval) {struct a} : bool :=
  let list_eqb :=
    fix go (l l' : list tyval) {struct l} : bool :=
      match l, l' with
      | [], [] => true
      | x :: r, y :: r' => tyval_eqb x y && go r r'
      | _, _ => false
      end in
  match a, b with
  | TNone, TNone => true
  | TI32, TI32 => true
  | ReferenceType m i, ReferenceType m' i' => Bool.eqb m m' && tyval_eqb i i'
  | ArrayType i s, ArrayType i' s' => tyval_eqb i i' && N.eqb s s'
  | TupleType l, TupleType l' => list_eqb l l'
  | Tuple l, Tuple l' => list_eqb l l'
  | _, _ => false
  end.

(** Truth value of a type used as a condition ([if var_type:],
    [if expected_return_type and ...]): only [None] is false. *)
Definition truthy (t : tyval) : bool :=
  match t with
  | TNone => false
  | _ => true
  end.

(** [class Symbol] *)
Record Symbol : Type := mkSymbol {
  name : string;
  type : tyval;
  mut : bool;
  initialized : bool;
  borrowed_mut : bool;
  borrowed_immut : bool
}.

(** The attributes of a [SemanticAnalyzer] instance.  [Symbol] objects are
    mutated in place through references held by the environments, so they
    live in a store ([symbols], indexed by allocation order) and the
    environments hold their addresses.  The head of [env_stack] is
    [self.env_stack[-1]]. *)
Record analyzer : Type := Analyzer {
  ast : node;
  env_stack : list (gmap string nat);
  loop_depth : Z;
  functions : gmap string node;
  symbols : list Symbol
}.

Definition A (T : Type) : Type := M analyzer T.

Definition __init__ (ast : node) : analyzer :=
  Analyzer ast [∅] 0 ∅ [].

Definition set_env_stack (es : list (gmap string nat)) (a : analyzer) : analyzer :=
  Analyzer (ast a) es (loop_depth a) (functions a) (symbols a).
Definition set_loop_depth (d : Z) (a : analyzer) : analyzer :=
  Analyzer (ast a) (env_stack a) d (functions a) (symbols a).
Definition set_functions (fs : gmap string node) (a : analyzer) : analyzer :=
  Analyzer (ast a) (env_stack a) (loop_depth a) fs (symbols a).
Definition set_symbols (ss : list Symbol) (a : analyzer) : analyzer :=
  Analyzer (ast a) (env_stack a) (loop_depth a) (functions a) ss.

Definition push_env : A unit :=
  modify (fun a => set_env_stack (∅ :: env_stack a) a).

Definition pop_env : A unit :=
  fun a => match env_stack a with
           | [] => Raise IndexError
           | _ :: r => Ok (tt, set_env_stack r a)
           end.

(** [self.current_env()[name] = Symbol(name, type_, mut, initialized)] *)
Definition declare_variable (name : string) (type_ : tyval) (mut initialized : bool) : A unit :=
  fun a => match env_stack a with
           | [] => Raise IndexError
           | env :: r =>
               let addr := length (symbols a) in
               Ok (tt, set_env_stack (<[name := addr]> env :: r)
                         (set_symbols (symbols a ++ [mkSymbol name type_ mut initialized false false]) a))
           end.

(** [name in self.current_env()] *)
Definition in_current_env (name : string) : A bool :=
  fun a => match env_stack a with
           | [] => Raise IndexError
           | env :: _ => Ok (bool_decide (is_Some (env !! name)), a)
           end.

(** [lookup_variable]: the reference to the innermost binding. *)
Definition lookup_variable (name : string) : A nat :=
  fun a =>
    (fix go (envs : list (gmap string nat)) : result (nat * analyzer) :=
       match envs with
       | [] => Raise UndeclaredVariableError
       | env :: r =>
           match env !! name with
           | Some addr => Ok (addr, a)
           | None => go r
           end
       end) (env_stack a).

(** Reading the object behind a reference.  A reference handed out by
    [lookup_variable] always points into the store. *)
Definition deref (addr : nat) : A Symbol :=
  fun a => match symbols a !! addr with
           | Some s => Ok (s, a)
           | None => Raise KeyError
           end.

(** [sym.initialized = True] *)
Definition set_initialized (addr : nat) : A unit :=
  s <- deref addr ;;
  modify (fun a => set_symbols
    (<[addr := mkSymbol (name s) (type s) (mut s) true (borrowed_mut s) (borrowed_immut s)]> (symbols a)) a).

(** [sym.borrowed_mut = True] *)
Definition set_borrowed_mut (addr : nat) : A unit :=
  s <- deref addr ;;
  modify (fun a => set_symbols
    (<[addr := mkSymbol (name s) (type s) (mut s) (initialized s) true (borrowed_immut s)]> (symbols a)) a).

(** [sym.borrowed_immut = True] *)
Definition set_borrowed_immut (addr : nat) : A unit :=
  s <- deref addr ;;
  modify (fun a => set_symbols
    (<[addr := mkSymbol (name s) (type s) (mut s) (initialized s) (borrowed_mut s) true]> (symbols a)) a).

Definition incr_loop_depth : A unit :=
  modify (fun a => set_loop_depth (loop_depth a + 1)%Z a).
Definition decr_loop_depth : A unit :=
  modify (fun a => set_loop_depth (loop_depth a - 1)%Z a).

(** [when c: raise e] *)
Definition raise_if (c : bool) (e : exn) : A unit :=
  if c then raise e else ret tt.

(** [len(set(map(str, types))) > 1]: the printed forms of two type values
    coincide exactly when the values are equal, so the set has more than
    one member exactly when some element differs from the first. *)
Definition more_than_one_type (types : list tyval) : bool :=
  match types with
  | [] => false
  | t :: r => negb (forallb (tyval_eqb t) r)
  end.

(** [node['name']] for the dictionaries that have that key. *)
Definition node_name (n : node) : option string :=
  match n with
  | FunctionDecl name _ _ _ | VarDecl _ name _ _ | Identifier name => Some name
  | _ => None
  end.

(** [for a, b in zip(l1, l2): f(a, b)] *)
Definition for_zip {S T U} (f : T -> U -> M S unit) : list T -> list U -> M S unit :=
  fix go l1 l2 :=
    match l1, l2 with
    | x :: r1, y :: r2 => f x y ;;; go r1 r2
    | _, _ => ret tt
    end.

(** The [FunctionExprBlock] arm of [infer_expr_type]: [f_elem] on every
    element of [elements[:-1]], then [f_last] on [elements[-1]], which
    does not exist when the list is empty. *)
Definition block_elements {S T} (f_elem : node -> M S unit) (f_last : node -> M S T)
  : list node -> M S T :=
  fix go l :=
    match l with
    | [] => raise IndexError
    | x :: r =>
        match r with
        | [] => f_last x
        | _ :: _ => f_elem x ;;; go r
        end
    end.

(** The [LoopExpr] arm of [infer_expr_type]: the first element tagged
    ['BreakStmt'] decides. *)
Definition first_break {S T} (f_break : node -> M S T) : list node -> M S T :=
  fix go l :=
    match l with
    | [] => raise SemanticError
    | e :: r => if tag_is e "BreakStmt" then f_break e else go r
    end.

Section Inference.

Variable infer : node -> A tyval.
Variable cvd : node -> A unit.
Variable ca : node -> A unit.

(** [self.infer_expr_type(x)] where [x] may be [None]: subscripting
    [None] raises [TypeError]. *)
Definition infer_opt (x : option node) : A tyval :=
  match x with
  | Some e => infer e
  | None => raise TypeError
  end.

Definition check_var_decl_body (stmt : node) : A unit :=
  match stmt with
  | VarDecl mut name var_type init =>
      if truthy var_type then
        let initialized := match init with Some _ => true | None => false end in
        declare_variable name var_type mut initialized ;;;
        match init with
        | Some init =>
            expr_type <- infer init ;;
            raise_if (negb (tyval_eqb expr_type var_type)) TypeMismatchError
        | None => ret tt
        end
      else
        match init with
        | Some init =>
            expr_type <- infer init ;;
            declare_variable name expr_type mut true
        | None =>
            shadow <- in_current_env name ;;
            if shadow then declare_variable name TNone mut false
            else raise TypeMismatchError
        end
  | _ => raise KeyError
  end.

Definition check_assignment_body (stmt : node) : A unit :=
  match stmt with
  | Assignment target val =>
      if tag_is target "Identifier" then
        match target with
        | Identifier target_name =>
            sym <- lookup_variable target_name ;;
            s <- deref sym ;;
            raise_if (negb (mut s)) ImmutableAssignmentError ;;;
            rhs_type <- infer val ;;
            s <- deref sym ;;
            raise_if (negb (tyval_eqb rhs_type (type s))) TypeMismatchError ;;;
            set_initialized sym
        | _ => raise KeyError
        end
      else if tag_is target "IndexAccess" then
        match target with
        | IndexExpr t i =>
            array_type <- infer t ;;
            match array_type with
            | ArrayType inner _ =>
                (if tag_is t "Identifier" then
                   match t with
                   | Identifier array_name =>
                       array_sym <- lookup_variable array_name ;;
                       s <- deref array_sym ;;
                       raise_if (negb (mut s)) ImmutableAssignmentError
                   | _ => raise KeyError
                   end
                 else ret tt) ;;;
                index_type <- infer i ;;
                raise_if (negb (tyval_eqb index_type TI32)) TypeMismatchError ;;;
                rhs_type <- infer val ;;
                raise_if (negb (tyval_eqb rhs_type inner)) TypeMismatchError
            | _ => raise TypeMismatchError
            end
        | _ => raise KeyError
        end
      else if tag_is target "TupleAccess" then
        match target with
        | TupleAccess t idx =>
            tuple_type <- infer t ;;
            match tuple_type with
            | Tuple elements =>
                (if tag_is t "Identifier" then
                   match t with
                   | Identifier tuple_name =>
                       tuple_sym <- lookup_variable tuple_name ;;
                       s <- deref tuple_sym ;;
                       raise_if (negb (mut s)) ImmutableAssignmentError
                   | _ => raise KeyError
                   end
                 else ret tt) ;;;
                match idx with
                | IdxStr _ => raise TypeError
                | IdxInt idx =>
                    raise_if (N.of_nat (length elements) <=? idx) SemanticError ;;;
                    rhs_type <- infer val ;;
                    match elements !! N.to_nat idx with
                    | Some expected_type =>
                        raise_if (negb (tyval_eqb rhs_type expected_type)) TypeMismatchError
                    | None => raise IndexError
                    end
                end
            | _ => raise TypeMismatchError
            end
        | _ => raise KeyError
        end
      else
        infer target ;;;
        infer val ;;;
        ret tt
  | _ => raise KeyError
  end.

(** The borrow check of the [RefExpr] arm, on the symbol behind [sym]. *)
Definition borrow (ref_mut : bool) (sym : nat) : A unit :=
  s <- deref sym ;;
  raise_if (ref_mut && negb (mut s)) BorrowCheckError ;;;
  if ref_mut then
    raise_if (borrowed_mut s || borrowed_immut s) BorrowCheckError ;;;
    set_borrowed_mut sym
  else
    raise_if (borrowed_mut s) BorrowCheckError ;;;
    set_borrowed_immut sym.

Definition infer_expr_type_body (expr : node) : A tyval :=
  if tag_is expr "Literal" then ret TI32
  else if tag_is expr "Identifier" then
    match expr with
    | Identifier n =>
        sym <- lookup_variable n ;;
        s <- deref sym ;;
        match type s with
        | TNone => raise TypeMismatchError
        | _ =>
            raise_if (negb (initialized s)) UninitializedVariableError ;;;
            ret (type s)
        end
    | _ => raise KeyError
    end
  else if tag_is expr "BinaryExpression" then
    match expr with
    | BinaryExpression _ l r =>
        lhs <- infer l ;;
        rhs <- infer r ;;
        raise_if (negb (tyval_eqb lhs rhs)) TypeMismatchError ;;;
        ret TI32
    | _ => raise KeyError
    end
  else if tag_is expr "CallExpression" then
    match expr with
    | CallExpression callee arguments =>
        a <- get ;;
        match functions a !! callee with
        | None => raise SemanticError
        | Some (FunctionDecl _ params return_type _) =>
            raise_if (negb (length arguments =? length params)%nat) SemanticError ;;;
            for_zip (fun arg_expr param =>
                       arg_type <- infer arg_expr ;;
                       raise_if (negb (tyval_eqb arg_type (p_type param))) TypeMismatchError)
                    arguments params ;;;
            ret return_type
        | Some _ => raise KeyError
        end
    | _ => raise KeyError
    end
  else if tag_is expr "TupleLiteral" then
    match expr with
    | TupleLiteral elements | ArrayLiteral elements | FunctionExprBlock elements =>
        types <- list_comp infer elements ;;
        ret (Tuple types)
    | _ => raise KeyError
    end
  else if tag_is expr "ArrayLiteral" then
    match expr with
    | TupleLiteral elements | ArrayLiteral elements | FunctionExprBlock elements =>
        types <- list_comp infer elements ;;
        raise_if (more_than_one_type types) TypeMismatchError ;;;
        match types with
        | t :: _ => ret (ArrayType t (N.of_nat (length types)))
        | [] => raise IndexError
        end
    | _ => raise KeyError
    end
  else if tag_is expr "RefExpr" then
    match expr with
    | RefExpr ref_mut base_expr =>
        base_type <- infer base_expr ;;
        (if tag_is base_expr "Identifier" then
           match base_expr with
           | Identifier n =>
               sym <- lookup_variable n ;;
               borrow ref_mut sym
           | _ => raise KeyError
           end
         else ret tt) ;;;
        ret (ReferenceType ref_mut base_type)
    | _ => raise KeyError
    end
  else if tag_is expr "DerefExpr" then
    match expr with
    | DerefExpr operand | RefExpr _ operand =>
        ref <- infer operand ;;
        match ref with
        | ReferenceType _ inner => ret inner
        | _ => raise TypeMismatchError
        end
    | _ => raise KeyError
    end
  else if tag_is expr "TupleAccess" then
    match expr with
    | TupleAccess target idx =>
        tup <- infer target ;;
        match tup with
        | Tuple elements =>
            match idx with
            | IdxStr _ => raise TypeError
            | IdxInt idx =>
                raise_if (N.of_nat (length elements) <=? idx) SemanticError ;;;
                match elements !! N.to_nat idx with
                | Some t => ret t
                | None => raise IndexError
                end
            end
        | _ => raise TypeMismatchError
        end
    | _ => raise KeyError
    end
  else if tag_is expr "IndexAccess" then
    match expr with
    | IndexExpr target index =>
        array_type <- infer target ;;
        match array_type with
        | ArrayType inner array_size =>
            index_type <- infer index ;;
            raise_if (negb (tyval_eqb index_type TI32)) TypeMismatchError ;;;
            (if tag_is index "Literal" then
               match index with
               | Literal index_val => raise_if (array_size <=? index_val) SemanticError
               | _ => raise KeyError
               end
             else ret tt) ;;;
            ret inner
        | _ => raise TypeMismatchError
        end
    | _ => raise KeyError
    end
  else if tag_is expr "IfExpr" then
    match expr with
    | IfExpr condition then_ else_ =>
        c <- infer condition ;;
        raise_if (negb (tyval_eqb c TI32)) TypeMismatchError ;;;
        then_t <- infer then_ ;;
        else_t <- infer else_ ;;
        raise_if (negb (tyval_eqb then_t else_t)) TypeMismatchError ;;;
        ret then_t
    | _ => raise KeyError
    end
  else if tag_is expr "LoopExpr" then
    match expr with
    | LoopExpr body =>
        match body with
        | FunctionExprBlock elements | ArrayLiteral elements | TupleLiteral elements =>
            first_break (fun e =>
                           match e with
                           | BreakStmt expression => infer_opt expression
                           | _ => raise KeyError
                           end) elements
        | _ => raise KeyError
        end
    | _ => raise KeyError
    end
  else if tag_is expr "FunctionExprBlock" then
    match expr with
    | FunctionExprBlock elements | ArrayLiteral elements | TupleLiteral elements =>
        push_env ;;;
        t <- block_elements
               (fun elem =>
                  if tag_is elem "VarDecl" then cvd elem
                  else if tag_is elem "Assignment" then ca elem
                  else if tag_is elem "ExprStmt" then
                    match elem with
                    | ExprStmt e => infer e ;;; ret tt
                    | _ => raise KeyError
                    end
                  else infer elem ;;; ret tt)
               (fun last =>
                  if tag_is last "ExprStmt" then
                    match last with
                    | ExprStmt e => infer e
                    | _ => raise KeyError
                    end
                  else infer last)
               elements ;;
        pop_env ;;;
        ret t
    | _ => raise KeyError
    end
  else ret TI32.

End Inference.

Fixpoint infer_expr_type (expr : node) {struct expr} : A tyval :=
  infer_expr_type_body infer_expr_type check_var_decl check_assignment expr
with check_var_decl (stmt : node) {struct stmt} : A unit :=
  check_var_decl_body infer_expr_type stmt
with check_assignment (stmt : node) {struct stmt} : A unit :=
  check_assignment_body infer_expr_type stmt.

Definition check_return (stmt : node) (expected_type : tyval) : A unit :=
  let expr := match stmt with
              | ReturnStmt expression | BreakStmt expression => expression
              | _ => None
              end in
  raise_if (negb (truthy expected_type) && bool_decide (is_Some expr)) ReturnTypeError ;;;
  raise_if (truthy expected_type && negb (bool_decide (is_Some expr))) ReturnTypeError ;;;
  match expr with
  | Some expr =>
      expr_type <- infer_expr_type expr ;;
      raise_if (negb (tyval_eqb expr_type expected_type)) ReturnTypeError
  | None => ret tt
  end.

Section Visiting.

Variable expected_return_type : tyval.
(** [self.visit_block(stmts, expected_return_type)] *)
Variable vb : list node -> A unit.
(** [self.check_if(stmt, expected_return_type)], on a sub-statement and
    on the statement being visited. *)
Variable ci : node -> A unit.
Variable ci_self : node -> A unit.

Definition check_if_body (stmt : node) : A unit :=
  match stmt with
  | IfStmt condition then_ else_ =>
      cond_type <- infer_expr_type condition ;;
      raise_if (negb (tyval_eqb cond_type TI32)) TypeMismatchError ;;;
      match then_ with
      | Block statements => vb statements
      | _ => raise KeyError
      end ;;;
      match else_ with
      | Some else_ =>
          if tag_is else_ "IfStmt" then ci else_
          else match else_ with
               | Block statements => vb statements
               | _ => raise KeyError
               end
      | None => ret tt
      end
  | _ => raise KeyError
  end.

(** One turn of the [for stmt in stmts] loop of [visit_block]. *)
Definition visit_stmt_body (stmt : node) : A unit :=
  if tag_is stmt "EmptyStmt" || tag_is stmt "Block" then ret tt
  else if tag_is stmt "ReturnStmt" then check_return stmt expected_return_type
  else if tag_is stmt "BreakStmt" then
    a <- get ;;
    raise_if (loop_depth a =? 0)%Z InvalidControlFlowError
  else if tag_is stmt "ContinueStmt" then
    a <- get ;;
    raise_if (loop_depth a =? 0)%Z InvalidControlFlowError
  else if tag_is stmt "VarDecl" then check_var_decl stmt
  else if tag_is stmt "Assignment" then check_assignment stmt
  else if tag_is stmt "ExprStmt" then
    match stmt with
    | ExprStmt expr => infer_expr_type expr ;;; ret tt
    | _ => raise KeyError
    end
  else if tag_is stmt "IfStmt" then ci_self stmt
  else if tag_is stmt "WhileStmt" then
    incr_loop_depth ;;;
    match stmt with
    | WhileStmt _ (Block statements) => vb statements
    | _ => raise KeyError
    end ;;;
    decr_loop_depth
  else if tag_is stmt "ForStmt" then
    incr_loop_depth ;;;
    push_env ;;;
    match stmt with
    | ForStmt mut var _ _ _ body =>
        declare_variable var TI32 mut true ;;;
        match body with
        | Block statements => vb statements
        | _ => raise KeyError
        end
    | _ => raise KeyError
    end ;;;
    pop_env ;;;
    decr_loop_depth
  else if tag_is stmt "LoopStmt" then
    incr_loop_depth ;;;
    match stmt with
    | LoopStmt (Block statements) => vb statements
    | _ => raise KeyError
    end ;;;
    decr_loop_depth
  else
    inferred <- infer_expr_type stmt ;;
    raise_if (truthy expected_return_type && negb (tyval_eqb inferred expected_return_type))
             ReturnTypeError.

End Visiting.

Fixpoint visit_stmt (expected_return_type : tyval) (stmt : node) {struct stmt} : A unit :=
  visit_stmt_body expected_return_type
    (for_each (visit_stmt expected_return_type))
    (check_if_body (for_each (visit_stmt expected_return_type)) (check_if expected_return_type))
    stmt
with check_if (expected_return_type : tyval) (stmt : node) {struct stmt} : A unit :=
  check_if_body (for_each (visit_stmt expected_return_type)) (check_if expected_return_type) stmt.

Definition visit_block (stmts : list node) (expected_return_type : tyval) : A unit :=
  for_each (visit_stmt expected_return_type) stmts.

Definition visit_function (n : node) : A unit :=
  push_env ;;;
  match n with
  | FunctionDecl _ params return_type body =>
      for_each (fun param =>
                  declare_variable (p_name param) (p_type param) (p_mut param) true) params ;;;
      match body with
      | FunctionExprBlock elements | ArrayLiteral elements | TupleLiteral elements =>
          visit_block elements return_type
      | _ => raise KeyError
      end
  | _ => raise KeyError
  end ;;;
  pop_env.

Definition analyze : A unit :=
  a <- get ;;
  raise_if (negb (tag_is (ast a) "Program")) AssertionError ;;;
  match ast a with
  | Program declarations =>
      for_each (fun decl =>
                  match node_name decl with
                  | Some n => modify (fun a => set_functions (<[n := decl]> (functions a)) a)
                  | None => raise KeyError
                  end) declarations ;;;
      for_each visit_function declarations
  | _ => raise KeyError
  end.

(** [SemanticAnalyzer(ast).analyze()] : [None] when the program is
    accepted, the exception otherwise. *)
Definition run_analyze (ast : node) : result unit :=
  match analyze (__init__ ast) with
  | Ok (_, _) => Ok tt
  | Raise e => Raise e
  end.

End Sema.

(** ** Lexer ([Lexical_analyzer.py], and [lex] of [Parser.py]) *)

Module Lexer.

Inductive TokenType : Type :=
| KEYWORD | IDENTIFIER | LITERAL | OPERATOR | DELIMITER | SEPARATOR
| ASSIGN | ARROW | DOT | DOUBLE_DOT | COMMENT | EOF.

(** The payload of a token: [None], a [str], or (for [LITERAL]) an [int]. *)
Inductive payload : Type :=
| VNone
| VStr (s : string)
| VInt (n : N).

Record Token : Type := mkToken {
  type : TokenType;
  value : payload
}.

#[global] Instance TokenType_eq_dec : EqDecision TokenType.
Proof. solve_decision. Defined.
#[global] Instance payload_eq_dec : EqDecision payload.
Proof. solve_decision. Defined.

(** Characters are code points below 256; the classes are those of
    [str.isspace], [str.isalpha], [str.isdigit] and [str.isalnum] on that
    range. *)
Definition code (c : ascii) : N := N_of_ascii c.
Definition between (lo hi : N) (c : ascii) : bool := (lo <=? code c) && (code c <=? hi).

Definition isspace (c : ascii) : bool :=
  between 9 13 c || between 28 32 c || between 133 133 c || between 160 160 c.
Definition isalpha (c : ascii) : bool :=
  between 65 90 c || between 97 122 c || between 170 170 c || between 181 181 c
  || between 186 186 c || between 192 214 c || between 216 246 c || between 248 255 c.
Definition isdigit (c : ascii) : bool :=
  between 48 57 c || between 178 179 c || between 185 185 c.
Definition isalnum (c : ascii) : bool :=
  isalpha c || isdigit c || between 188 190 c.

(** The value of a string of decimal digits; [None] at a character that
    is no decimal digit. *)
Fixpoint int_digits (acc : N) (s : string) : option N :=
  match s with
  | EmptyString => Some acc
  | String c r =>
      if between 48 57 c then int_digits (10 * acc + (code c - 48)) r
      else None
  end.

(** The decimal digits that a string starts with. *)
Fixpoint leading_decimals (s : string) : nat :=
  match s with
  | String c r => if between 48 57 c then S (leading_decimals r) else O
  | EmptyString => O
  end.

(** [int(s)] on a string of [isdigit] characters.  The digits that the
    string starts with are counted first, and more than
    [int_max_str_digits] of them raise [ValueError]; then a character that
    is no decimal digit (the superscript digits are digits but not
    decimal) or an empty string raises [ValueError], with the [repr] of
    the string cut at 200 characters in the message. *)
Definition too_many_digits (digits : nat) : exn :=
  ValueError ("Exceeds the limit (4300 digits) for integer string conversion: value has "
              +:+ pretty digits
              +:+ " digits; use sys.set_int_max_str_digits() to increase the limit").

Definition invalid_literal (s : string) : exn :=
  ValueError ("invalid literal for int() with base 10: "
              +:+ substring 0 200 ("'" +:+ s +:+ "'")).

Definition int (s : string) : result N :=
  if int_max_str_digits <? N.of_nat (leading_decimals s) then
    Raise (too_many_digits (leading_decimals s))
  else
    match s with
    | EmptyString => Raise (invalid_literal s)
    | String _ _ =>
        match int_digits 0 s with
        | Some n => Ok n
        | None => Raise (invalid_literal s)
        end
    end.

Definition KEYWORDS : list string :=
  ["i32"; "let"; "if"; "else"; "while"; "return"; "mut"; "fn";
   "for"; "in"; "loop"; "break"; "continue"].
Definition OPERATORS : list string :=
  ["+"; "-"; "*"; "/"; "=="; ">"; ">="; "<"; "<="; "!="; "&"].
Definition DELIMITERS : list ascii := ["("; ")"; "{"; "}"; "["; "]"]%char.
Definition SEPARATORS : list ascii := [";"; ":"; ","]%char.
Definition SINGLE_CHAR_OPS : list ascii := ["+"; "-"; "*"; "/"; ">"; "<"; "!"; "&"]%char.

Definition mem_string (s : string) (l : list string) : bool := existsb (String.eqb s) l.
Definition mem_char (c : ascii) (l : list ascii) : bool := existsb (Ascii.eqb c) l.

(** The state of a [Lexer] is the unread part [text[pos:]] of its text:
    [current_char] is its first character and [peek()] its second, [None]
    when there is none; [advance] drops the first character. *)
Definition lexer : Type := string.

Definition __init__ (text : string) : lexer := text +:+ "#".

Definition current_char (l : lexer) : option ascii :=
  match l with
  | String c _ => Some c
  | EmptyString => None
  end.

Definition advance (l : lexer) : lexer :=
  match l with
  | String _ r => r
  | EmptyString => EmptyString
  end.

Definition peek (l : lexer) : option ascii := current_char (advance l).

Fixpoint skip_whitespace (l : lexer) : lexer :=
  match l with
  | String c r => if isspace c then skip_whitespace r else l
  | EmptyString => l
  end.

(** The [while] loops of the [read_*] methods: the buffer and the state
    after the loop. *)
Fixpoint take_while (p : ascii -> bool) (l : lexer) : string * lexer :=
  match l with
  | String c r =>
      if p c then let '(buf, rest) := take_while p r in (String c buf, rest)
      else (EmptyString, l)
  | EmptyString => (EmptyString, l)
  end.

Definition read_identifier (l : lexer) : result (Token * lexer) :=
  let '(identifier, rest) := take_while (fun c => isalnum c || Ascii.eqb c "_") l in
  if mem_string identifier KEYWORDS then Ok (mkToken KEYWORD (VStr identifier), rest)
  else Ok (mkToken IDENTIFIER (VStr identifier), rest).

Definition read_number (l : lexer) : result (Token * lexer) :=
  let '(buffer, rest) := take_while isdigit l in
  match int buffer with
  | Ok n => Ok (mkToken LITERAL (VInt n), rest)
  | Raise e => Raise e
  end.

(** [None] when neither a two-character nor a one-character operator
    starts here; [current_char + peek()] is a [TypeError] at the last
    character. *)
Definition read_operator (l : lexer) : result (option Token * lexer) :=
  match l with
  | String c (String d r) =>
      let two_char := String c (String d EmptyString) in
      if mem_string two_char OPERATORS then Ok (Some (mkToken OPERATOR (VStr two_char)), r)
      else if mem_char c SINGLE_CHAR_OPS
           then Ok (Some (mkToken OPERATOR (VStr (String c EmptyString))), advance l)
           else Ok (None, l)
  | _ => Raise TypeError
  end.

Definition read_separator (l : lexer) : result (Token * lexer) :=
  match l with
  | String c r => Ok (mkToken SEPARATOR (VStr (String c EmptyString)), r)
  | EmptyString => Raise TypeError
  end.

Definition read_delimiter (l : lexer) : result (Token * lexer) :=
  match l with
  | String c r => Ok (mkToken DELIMITER (VStr (String c EmptyString)), r)
  | EmptyString => Raise TypeError
  end.

Definition read_arrow (l : lexer) : result (Token * lexer) :=
  Ok (mkToken ARROW (VStr "->"), advance (advance l)).

Definition read_dot (l : lexer) : result (Token * lexer) :=
  Ok (mkToken DOT (VStr "."), advance l).

Definition read_double_dot (l : lexer) : result (Token * lexer) :=
  Ok (mkToken DOUBLE_DOT (VStr ".."), advance (advance l)).

Definition newline : ascii := ascii_of_N 10.

Definition read_line_comment (l : lexer) : result (Token * lexer) :=
  let '(buffer, rest) := take_while (fun c => negb (Ascii.eqb c newline)) (advance (advance l)) in
  Ok (mkToken COMMENT (VStr buffer), rest).

Fixpoint block_comment_loop (l : lexer) : result (string * lexer) :=
  match l with
  | EmptyString => Raise (ValueError "Unclosed block comment")
  | String c r =>
      if Ascii.eqb c "*" && bool_decide (peek l = Some "/"%char)
      then Ok (EmptyString, advance r)
      else match block_comment_loop r with
           | Ok (buf, rest) => Ok (String c buf, rest)
           | Raise e => Raise e
           end
  end.

Definition read_block_comment (l : lexer) : result (Token * lexer) :=
  match block_comment_loop (advance (advance l)) with
  | Ok (buffer, rest) => Ok (mkToken COMMENT (VStr buffer), rest)
  | Raise e => Raise e
  end.

(** One turn of the [while self.current_char] loop of [get_next_token] at
    a character that is neither the end marker nor white space. *)
Definition scan (c : ascii) (l : lexer) : result (Token * lexer) :=
  if isalpha c || Ascii.eqb c "_" then read_identifier l
  else if isdigit c then read_number l
  else if Ascii.eqb c "/" && bool_decide (peek l = Some "/"%char) then read_line_comment l
  else if Ascii.eqb c "/" && bool_decide (peek l = Some "*"%char) then read_block_comment l
  else if Ascii.eqb c "-" && bool_decide (peek l = Some ">"%char) then read_arrow l
  else if Ascii.eqb c "." then
    if bool_decide (peek l = Some "."%char) then read_double_dot l else read_dot l
  else
    match read_operator l with
    | Raise e => Raise e
    | Ok (Some op_token, l') => Ok (op_token, l')
    | Ok (None, _) =>
        if mem_char c SEPARATORS then read_separator l
        else if mem_char c DELIMITERS then read_delimiter l
        else if Ascii.eqb c "=" then
          if bool_decide (peek l = Some "="%char)
          then Ok (mkToken OPERATOR (VStr "=="), advance (advance l))
          else Ok (mkToken ASSIGN (VStr "="), advance l)
        else Raise (ValueError ("Invalid character '" +:+ String c "' "))
    end.

(** [get_next_token].  After [skip_whitespace] the loop starts over; here
    the white space is passed one character per turn, which visits the
    same states (lemma [get_next_token_skip_whitespace]). *)
Fixpoint get_next_token (l : lexer) : result (Token * lexer) :=
  match l with
  | EmptyString => Ok (mkToken EOF VNone, l)
  | String c r =>
      if Ascii.eqb c "#" then Ok (mkToken EOF VNone, r)
      else if isspace c then get_next_token r
      else scan c l
  end.

(** [lex(code)]: the [while True] loop, [fuel] turns of it at most. *)
Fixpoint lex_loop (fuel : nat) (l : lexer) (tokens : list Token) : option (result (list Token)) :=
  match fuel with
  | O => None
  | S fuel =>
      match get_next_token l with
      | Raise e => Some (Raise e)
      | Ok (tok, l') =>
          match type tok with
          | EOF => Some (Ok tokens)
          | COMMENT => lex_loop fuel l' tokens
          | _ => lex_loop fuel l' (tokens ++ [tok])
          end
      end
  end.

(** Every turn that does not end the loop consumes a character, so
    [length text + 2] turns are enough (lemma [lex_loop_enough_fuel]). *)
Definition lex (code : string) : option (result (list Token)) :=
  lex_loop (String.length code + 2) (__init__ code) [].

End Lexer.

(** ** Parser ([Parser.py]) *)

Module Parser.
Import Lexer.

(** The state of a [Parser] is the unread part [tokens[pos:]] of its
    token list.  The methods call each other without a structural
    measure, so they take a recursion budget; [None] is the budget running
    out, which no Python run corresponds to. *)
Definition parser : Type := list Token.
Definition P (T : Type) : Type := parser -> option (result (T * parser)).

Definition pret {T} (x : T) : P T := fun s => Some (Ok (x, s)).
Definition praise {T} (msg : string) : P T := fun _ => Some (Raise (SyntaxError msg)).
Definition pfail {T} (e : exn) : P T := fun _ => Some (Raise e).
Definition out_of_fuel {T} : P T := fun _ => None.
Definition pbind {T U} (m : P T) (k : T -> P U) : P U :=
  fun s => match m s with
           | Some (Ok (x, s')) => k x s'
           | Some (Raise e) => Some (Raise e)
           | None => None
           end.

Declare Scope parse_scope.
Delimit Scope parse_scope with parse.
Notation "x <- m ;; k" := (pbind m (fun x => k))
  (at level 100, m at next level, right associativity) : parse_scope.
Notation "m ;;; k" := (pbind m (fun _ => k))
  (at level 100, right associativity) : parse_scope.
Open Scope parse_scope.

(** [self.peek(offset)] *)
Definition peek (offset : nat) : P (option Token) := fun s => Some (Ok (s !! offset, s)).

Definition advance : P Token :=
  fun s => match s with
           | tok :: r => Some (Ok (tok, r))
           | [] => Some (Raise (SyntaxError "Unexpected EOF"))
           end.

(** [tok.type == type_ and (value is None or tok.value == value)] *)
Definition token_is (tok : Token) (type_ : TokenType) (v : option string) : bool :=
  bool_decide (type tok = type_)
  && match v with
     | None => true
     | Some v => bool_decide (value tok = VStr v)
     end.

(** [tok and tok.type == type_ and tok.value == v], for a peeked token. *)
Definition peek_is (tok : option Token) (type_ : TokenType) (v : option string) : bool :=
  match tok with
  | Some tok => token_is tok type_ v
  | None => false
  end.

Definition match_ (type_ : TokenType) (v : option string) : P bool :=
  fun s => match s with
           | tok :: r => if token_is tok type_ v then Some (Ok (true, r)) else Some (Ok (false, s))
           | [] => Some (Ok (false, s))
           end.

Definition consume (type_ : TokenType) (v : option string) : P Token :=
  fun s => match s with
           | tok :: r =>
               if token_is tok type_ v then Some (Ok (tok, r))
               else Some (Raise (SyntaxError "Expected token"))
           | [] => Some (Raise (SyntaxError "Expected token, got EOF"))
           end.

Definition is_at_end : P bool := fun s => Some (Ok (bool_decide (s = []), s)).

(** [consume(IDENTIFIER).value], [advance().value] for a name. *)
Definition payload_string (v : payload) : string :=
  match v with
  | VStr s => s
  | VInt n => pretty n
  | VNone => "None"
  end.

Definition payload_int (v : payload) : N :=
  match v with
  | VInt n => n
  | _ => 0
  end.

Definition value_in (tok : option Token) (l : list string) : bool :=
  match tok with
  | Some tok => existsb (fun v => bool_decide (value tok = VStr v)) l
  | None => false
  end.

(** [l.append(p()); while self.match(SEPARATOR, ','): l.append(p())]
    without the first append. *)
Fixpoint comma_loop {T} (fuel : nat) (p : P T) (acc : list T) : P (list T) :=
  match fuel with
  | O => out_of_fuel
  | S fuel =>
      more <- match_ SEPARATOR (Some ",") ;;
      if more then x <- p ;; comma_loop fuel p (acc ++ [x]) else pret acc
  end.

(** [while True: l.append(p()); if not self.match(SEPARATOR, ','): break] *)
Fixpoint comma_loop1 {T} (fuel : nat) (p : P T) (acc : list T) : P (list T) :=
  match fuel with
  | O => out_of_fuel
  | S fuel =>
      x <- p ;;
      more <- match_ SEPARATOR (Some ",") ;;
      if more then comma_loop1 fuel p (acc ++ [x]) else pret (acc ++ [x])
  end.

(** The loops of [parse_comparison], [parse_additive], [parse_term]. *)
Fixpoint binary_loop (fuel : nat) (ops : list string) (operand : P node) (n : node) : P node :=
  match fuel with
  | O => out_of_fuel
  | S fuel =>
      tok <- peek 0 ;;
      if peek_is tok OPERATOR None && value_in tok ops then
        op <- advance ;;
        rhs <- operand ;;
        binary_loop fuel ops operand (BinaryExpression (payload_string (value op)) n rhs)
      else pret n
  end.

(** [while not self.match(DELIMITER, '}'): stmts.append(self.parse_statement())] *)
Fixpoint block_loop (fuel : nat) (statement : P node) (acc : list node) : P (list node) :=
  match fuel with
  | O => out_of_fuel
  | S fuel =>
      close <- match_ DELIMITER (Some "}") ;;
      if close then pret acc
      else stmt <- statement ;; block_loop fuel statement (acc ++ [stmt])
  end.

Definition is_dot (tok : option Token) : bool :=
  peek_is tok DOT None || peek_is tok DELIMITER (Some ".").

(** The postfix loop of [parse_factor]. *)
Fixpoint postfix_loop (fuel : nat) (expression : P node) (n : node) : P node :=
  match fuel with
  | O => out_of_fuel
  | S fuel =>
      tok <- peek 0 ;;
      if peek_is tok DELIMITER (Some "[") then
        advance ;;;
        idx <- expression ;;
        consume DELIMITER (Some "]") ;;;
        postfix_loop fuel expression (IndexExpr n idx)
      else if is_dot tok then
        advance ;;;
        index_tok <- peek 0 ;;
        match index_tok with
        | Some t =>
            if bool_decide (type t = LITERAL) then
              num <- advance ;;
              pret (TupleAccess n (IdxInt (payload_int (value num))))
            else if bool_decide (type t = IDENTIFIER) then
              ident <- advance ;;
              pret (TupleAccess n (IdxStr (payload_string (value ident))))
            else praise "Expected tuple index after '.'"
        | None => praise "Unexpected EOF after '.'"
        end
      else pret n
  end.

(** The element loop of [parse_function_expression_block].  The test for
    [a.0 = ...] reads [self.peek(1).type] without testing [peek(1)]. *)
Fixpoint element_loop (fuel : nat) (statement expression block : P node) (acc : list node)
  : P (list node) :=
  match fuel with
  | O => out_of_fuel
  | S fuel =>
      close <- match_ DELIMITER (Some "}") ;;
      if close then pret acc
      else
        empty <- match_ SEPARATOR (Some ";") ;;
        if empty then element_loop fuel statement expression block (acc ++ [EmptyStmt])
        else
          tok <- peek 0 ;;
          tok1 <- peek 1 ;;
          tok2 <- peek 2 ;;
          tok3 <- peek 3 ;;
          if peek_is tok KEYWORD None
             && value_in tok ["let"; "if"; "while"; "for"; "loop"; "return"; "break"; "continue"]
          then s <- statement ;; element_loop fuel statement expression block (acc ++ [s])
          else if peek_is tok IDENTIFIER None && peek_is tok1 DELIMITER (Some "[")
          then s <- statement ;; element_loop fuel statement expression block (acc ++ [s])
          else if peek_is tok IDENTIFIER None && bool_decide (tok1 = None)
          then pfail AttributeError
          else if peek_is tok IDENTIFIER None && is_dot tok1
                  && peek_is tok2 LITERAL None && peek_is tok3 ASSIGN None
          then s <- statement ;; element_loop fuel statement expression block (acc ++ [s])
          else if peek_is tok IDENTIFIER None && peek_is tok1 ASSIGN None
          then s <- statement ;; element_loop fuel statement expression block (acc ++ [s])
          else if peek_is tok OPERATOR (Some "*") && peek_is tok2 ASSIGN None
          then s <- statement ;; element_loop fuel statement expression block (acc ++ [s])
          else if peek_is tok DELIMITER (Some "{")
          then b <- block ;; element_loop fuel statement expression block (acc ++ [b])
          else
            expr <- expression ;;
            semi <- match_ SEPARATOR (Some ";") ;;
            element_loop fuel statement expression block
              (acc ++ [if semi then ExprStmt expr else expr])
  end.

Definition comparison_ops : list string := ["<"; "<="; ">"; ">="; "=="; "!="].
Definition additive_ops : list string := ["+"; "-"].
Definition term_ops : list string := ["*"; "/"].

Fixpoint parse_type (fuel : nat) : P tyval :=
  match fuel with
  | O => out_of_fuel
  | S fuel =>
      is_ref <- match_ OPERATOR (Some "&") ;;
      if is_ref then
        is_mut <- match_ KEYWORD (Some "mut") ;;
        inner <- parse_type fuel ;;
        pret (ReferenceType is_mut inner)
      else
        is_array <- match_ DELIMITER (Some "[") ;;
        if is_array then
          inner <- parse_type fuel ;;
          consume SEPARATOR (Some ";") ;;;
          size <- consume LITERAL None ;;
          consume DELIMITER (Some "]") ;;;
          pret (ArrayType inner (payload_int (value size)))
        else
          is_tuple <- match_ DELIMITER (Some "(") ;;
          if is_tuple then
            unit <- match_ DELIMITER (Some ")") ;;
            if unit then pret (TupleType [])
            else
              first <- parse_type fuel ;;
              consume SEPARATOR (Some ",") ;;;
              elements <- comma_loop1 fuel (parse_type fuel) [first] ;;
              consume DELIMITER (Some ")") ;;;
              pret (TupleType elements)
          else
            is_i32 <- match_ KEYWORD (Some "i32") ;;
            if is_i32 then pret TI32 else praise "Unsupported type"
  end.

Fixpoint parse_statement (fuel : nat) : P node :=
  match fuel with
  | O => out_of_fuel
  | S fuel =>
      tok <- peek 0 ;;
      tok1 <- peek 1 ;;
      tok2 <- peek 2 ;;
      tok3 <- peek 3 ;;
      if peek_is tok IDENTIFIER None && is_dot tok1
         && peek_is tok2 LITERAL None && peek_is tok3 ASSIGN None
      then
        tgt <- parse_expression fuel ;;
        consume ASSIGN (Some "=") ;;;
        val <- parse_expression fuel ;;
        consume SEPARATOR (Some ";") ;;;
        pret (Assignment tgt val)
      else
      is_break <- match_ KEYWORD (Some "break") ;;
      if is_break then
        semi <- match_ SEPARATOR (Some ";") ;;
        if semi then pret (BreakStmt None)
        else
          expr <- parse_expression fuel ;;
          consume SEPARATOR (Some ";") ;;;
          pret (BreakStmt (Some expr))
      else
      is_continue <- match_ KEYWORD (Some "continue") ;;
      if is_continue then
        consume SEPARATOR (Some ";") ;;;
        pret ContinueStmt
      else
      is_return <- match_ KEYWORD (Some "return") ;;
      if is_return then
        semi <- match_ SEPARATOR (Some ";") ;;
        if semi then pret (ReturnStmt None)
        else
          expr <- parse_expression fuel ;;
          consume SEPARATOR (Some ";") ;;;
          pret (ReturnStmt (Some expr))
      else
      is_let <- match_ KEYWORD (Some "let") ;;
      if is_let then parse_variable_decl fuel
      else
      is_if <- match_ KEYWORD (Some "if") ;;
      if is_if then parse_if fuel
      else
      is_while <- match_ KEYWORD (Some "while") ;;
      if is_while then parse_while fuel
      else
      is_for <- match_ KEYWORD (Some "for") ;;
      if is_for then parse_for fuel
      else
      is_loop <- match_ KEYWORD (Some "loop") ;;
      if is_loop then parse_loop_stmt fuel
      else
      if peek_is tok IDENTIFIER None && peek_is tok1 DELIMITER (Some "[") then
        tgt <- parse_expression fuel ;;
        consume ASSIGN (Some "=") ;;;
        val <- parse_expression fuel ;;
        consume SEPARATOR (Some ";") ;;;
        pret (Assignment tgt val)
      else if peek_is tok IDENTIFIER None && peek_is tok1 ASSIGN None then
        name <- advance ;;
        consume ASSIGN (Some "=") ;;;
        val <- parse_expression fuel ;;
        consume SEPARATOR (Some ";") ;;;
        pret (Assignment (Identifier (payload_string (value name))) val)
      else if peek_is tok OPERATOR (Some "*") && peek_is tok2 ASSIGN None then
        advance ;;;
        name <- consume IDENTIFIER None ;;
        consume ASSIGN (Some "=") ;;;
        val <- parse_expression fuel ;;
        consume SEPARATOR (Some ";") ;;;
        pret (Assignment (DerefExpr (Identifier (payload_string (value name)))) val)
      else
      empty <- match_ SEPARATOR (Some ";") ;;
      if empty then pret EmptyStmt
      else
        expr <- parse_expression fuel ;;
        consume SEPARATOR (Some ";") ;;;
        pret (ExprStmt expr)
  end

with parse_expression (fuel : nat) : P node :=
  match fuel with
  | O => out_of_fuel
  | S fuel =>
      is_if <- match_ KEYWORD (Some "if") ;;
      if is_if then parse_if_expression fuel
      else
        is_loop <- match_ KEYWORD (Some "loop") ;;
        if is_loop then
          block <- parse_function_expression_block fuel ;;
          pret (LoopExpr block)
        else parse_comparison fuel
  end

with parse_if_expression (fuel : nat) : P node :=
  match fuel with
  | O => out_of_fuel
  | S fuel =>
      cond <- parse_expression fuel ;;
      then_block <- parse_function_expression_block fuel ;;
      consume KEYWORD (Some "else") ;;;
      else_block <- parse_function_expression_block fuel ;;
      pret (IfExpr cond then_block else_block)
  end

with parse_comparison (fuel : nat) : P node :=
  match fuel with
  | O => out_of_fuel
  | S fuel =>
      n <- parse_additive fuel ;;
      binary_loop fuel comparison_ops (parse_additive fuel) n
  end

with parse_additive (fuel : nat) : P node :=
  match fuel with
  | O => out_of_fuel
  | S fuel =>
      n <- parse_term fuel ;;
      binary_loop fuel additive_ops (parse_term fuel) n
  end

with parse_term (fuel : nat) : P node :=
  match fuel with
  | O => out_of_fuel
  | S fuel =>
      n <- parse_factor fuel ;;
      binary_loop fuel term_ops (parse_factor fuel) n
  end

with parse_factor (fuel : nat) : P node :=
  match fuel with
  | O => out_of_fuel
  | S fuel =>
      tok <- peek 0 ;;
      match tok with
      | None => praise "Unexpected EOF in factor"
      | Some t =>
          if peek_is tok DELIMITER (Some "{") then parse_function_expression_block fuel
          else if peek_is tok DELIMITER (Some "[") then parse_array_literal fuel
          else
            n <- (if peek_is tok DELIMITER (Some "(") then
                    advance ;;;
                    unit <- match_ DELIMITER (Some ")") ;;
                    if unit then pret (TupleLiteral [])
                    else
                      first <- parse_expression fuel ;;
                      comma <- match_ SEPARATOR (Some ",") ;;
                      if comma then
                        elems <- comma_loop1 fuel (parse_expression fuel) [first] ;;
                        consume DELIMITER (Some ")") ;;;
                        pret (TupleLiteral elems)
                      else
                        consume DELIMITER (Some ")") ;;;
                        pret first
                  else if peek_is tok OPERATOR (Some "*") then
                    advance ;;;
                    operand <- parse_factor fuel ;;
                    pret (DerefExpr operand)
                  else if peek_is tok OPERATOR (Some "&") then
                    advance ;;;
                    is_mut <- match_ KEYWORD (Some "mut") ;;
                    operand <- parse_factor fuel ;;
                    pret (RefExpr is_mut operand)
                  else if peek_is tok LITERAL None then
                    advance ;;;
                    pret (Literal (payload_int (value t)))
                  else if peek_is tok KEYWORD None then
                    praise "Unexpected type keyword in expression"
                  else if peek_is tok IDENTIFIER None then
                    name <- advance ;;
                    next <- peek 0 ;;
                    if peek_is next DELIMITER (Some "(") then
                      advance ;;;
                      args <- parse_arg_list fuel ;;
                      consume DELIMITER (Some ")") ;;;
                      pret (CallExpression (payload_string (value name)) args)
                    else pret (Identifier (payload_string (value name)))
                  else praise "Unexpected token in parse_factor") ;;
            postfix_loop fuel (parse_expression fuel) n
      end
  end

with parse_array_literal (fuel : nat) : P node :=
  match fuel with
  | O => out_of_fuel
  | S fuel =>
      consume DELIMITER (Some "[") ;;;
      tok <- peek 0 ;;
      if peek_is tok DELIMITER (Some "]") then
        advance ;;;
        pret (ArrayLiteral [])
      else if peek_is tok KEYWORD None then
        praise "Cannot use type keyword as array element"
      else
        first <- parse_expression fuel ;;
        elements <- comma_loop fuel (parse_expression fuel) [first] ;;
        consume DELIMITER (Some "]") ;;;
        pret (ArrayLiteral elements)
  end

with parse_arg_list (fuel : nat) : P (list node) :=
  match fuel with
  | O => out_of_fuel
  | S fuel =>
      tok <- peek 0 ;;
      match tok with
      | Some t =>
          if bool_decide (value t = VStr ")") then pret []
          else
            first <- parse_expression fuel ;;
            comma_loop fuel (parse_expression fuel) [first]
      | None => pret []
      end
  end

with parse_variable_decl (fuel : nat) : P node :=
  match fuel with
  | O => out_of_fuel
  | S fuel =>
      is_mut <- match_ KEYWORD (Some "mut") ;;
      name <- consume IDENTIFIER None ;;
      typed <- match_ SEPARATOR (Some ":") ;;
      var_type <- (if typed then parse_type fuel else pret TNone) ;;
      has_init <- match_ ASSIGN (Some "=") ;;
      init <- (if has_init then e <- parse_expression fuel ;; pret (Some e) else pret None) ;;
      consume SEPARATOR (Some ";") ;;;
      pret (VarDecl is_mut (payload_string (value name)) var_type init)
  end

with parse_if (fuel : nat) : P node :=
  match fuel with
  | O => out_of_fuel
  | S fuel =>
      cond <- parse_expression fuel ;;
      consume DELIMITER (Some "{") ;;;
      then_ <- parse_block fuel ;;
      has_else <- match_ KEYWORD (Some "else") ;;
      else_part <- (if has_else then
                      else_if <- match_ KEYWORD (Some "if") ;;
                      if else_if then e <- parse_if fuel ;; pret (Some e)
                      else
                        consume DELIMITER (Some "{") ;;;
                        b <- parse_block fuel ;;
                        pret (Some b)
                    else pret None) ;;
      pret (IfStmt cond then_ else_part)
  end

with parse_while (fuel : nat) : P node :=
  match fuel with
  | O => out_of_fuel
  | S fuel =>
      cond <- parse_expression fuel ;;
      consume DELIMITER (Some "{") ;;;
      body <- parse_block fuel ;;
      pret (WhileStmt cond body)
  end

with parse_for (fuel : nat) : P node :=
  match fuel with
  | O => out_of_fuel
  | S fuel =>
      is_mut <- match_ KEYWORD (Some "mut") ;;
      var <- consume IDENTIFIER None ;;
      typed <- match_ SEPARATOR (Some ":") ;;
      var_type <- (if typed then parse_type fuel else pret TNone) ;;
      consume KEYWORD (Some "in") ;;;
      start <- parse_expression fuel ;;
      consume DOUBLE_DOT (Some "..") ;;;
      end_ <- parse_expression fuel ;;
      consume DELIMITER (Some "{") ;;;
      body <- parse_block fuel ;;
      pret (ForStmt is_mut (payload_string (value var)) var_type start end_ body)
  end

with parse_loop_stmt (fuel : nat) : P node :=
  match fuel with
  | O => out_of_fuel
  | S fuel =>
      consume DELIMITER (Some "{") ;;;
      body <- parse_block fuel ;;
      pret (LoopStmt body)
  end

with parse_block (fuel : nat) : P node :=
  match fuel with
  | O => out_of_fuel
  | S fuel =>
      stmts <- block_loop fuel (parse_statement fuel) [] ;;
      pret (Block stmts)
  end

with parse_function_expression_block (fuel : nat) : P node :=
  match fuel with
  | O => out_of_fuel
  | S fuel =>
      consume DELIMITER (Some "{") ;;;
      elements <- element_loop fuel (parse_statement fuel) (parse_expression fuel)
                    (parse_function_expression_block fuel) [] ;;
      pret (FunctionExprBlock elements)
  end.

Definition parse_parameter (fuel : nat) : P param :=
  is_mut <- match_ KEYWORD (Some "mut") ;;
  name <- consume IDENTIFIER None ;;
  consume SEPARATOR (Some ":") ;;;
  ptype <- parse_type fuel ;;
  pret (Param is_mut (payload_string (value name)) ptype).

Definition parse_parameter_list (fuel : nat) : P (list param) :=
  tok <- peek 0 ;;
  match tok with
  | Some t =>
      if bool_decide (value t = VStr ")") then pret []
      else
        first <- parse_parameter fuel ;;
        comma_loop fuel (parse_parameter fuel) [first]
  | None => pret []
  end.

Definition parse_declaration (fuel : nat) : P node :=
  consume KEYWORD (Some "fn") ;;;
  name <- consume IDENTIFIER None ;;
  consume DELIMITER (Some "(") ;;;
  params <- parse_parameter_list fuel ;;
  consume DELIMITER (Some ")") ;;;
  arrow <- match_ ARROW (Some "->") ;;
  return_type <- (if arrow then parse_type fuel else pret TNone) ;;
  body <- parse_function_expression_block fuel ;;
  pret (FunctionDecl (payload_string (value name)) params return_type body).

Fixpoint parse_program (fuel : nat) (decls : list node) : P node :=
  match fuel with
  | O => out_of_fuel
  | S fuel =>
      at_end <- is_at_end ;;
      if at_end then pret (Program decls)
      else decl <- parse_declaration fuel ;; parse_program fuel (decls ++ [decl])
  end.

(** [Parser(tokens).parse()] *)
Definition parse (fuel : nat) (tokens : list Token) : option (result node) :=
  match parse_program fuel [] tokens with
  | Some (Ok (program, _)) => Some (Ok program)
  | Some (Raise e) => Some (Raise e)
  | None => None
  end.

(** [Parser(lex(code)).parse()] *)
Definition parse_source (fuel : nat) (code : string) : option (result node) :=
  match lex code with
  | Some (Ok tokens) => parse fuel tokens
  | Some (Raise e) => Some (Raise e)
  | None => None
  end.

End Parser.

(** ** Vocabulary of the properties of the generator *)

Module QuadSpec.
Import QuadGen.

(** The name [f"L{k}"] that [new_label] returns when the counter is [k]. *)
Definition label_name (k : N) : string := "L" +:+ pretty k.

(** [q] is the label quad [(l + ":", None, None, None)]. *)
Definition is_label_quad (l : string) (q : quad) : bool :=
  match q with
  | (op, FNone, FNone, FNone) => String.eqb op (l +:+ ":")
  | _ => false
  end.

(** Number of label quads for [l] in a quad list. *)
Fixpoint count_label (l : string) (qs : list quad) : nat :=
  match qs with
  | [] => 0%nat
  | q :: r => ((if is_label_quad l q then 1 else 0) + count_label l r)%nat
  end.

Definition is_jump_op (op : string) : bool := String.eqb op "goto" || String.eqb op "ifz".

(** The fourth field of a [goto] or [ifz] quad. *)
Definition jump_target (q : quad) : option field :=
  match q with
  | (op, _, _, target) => if is_jump_op op then Some target else None
  end.

(** The labels that [break] and [continue] may jump to. *)
Definition stack_labels (ls : list loop_ctx) : list string :=
  flat_map (fun c => [start_label c; end_label c]) ls.

(** A jump of [q] goes to a label numbered in [[lo, hi)] or to a label of
    an enclosing loop. *)
Definition jump_ok (lo hi : N) (ls : list loop_ctx) (q : quad) : Prop :=
  forall t, jump_target q = Some t ->
    exists l, t = FStr l /\ ((exists k, l = label_name k /\ lo <= k < hi) \/ In l (stack_labels ls)).

(** No operator of the tree spells a jump.  The operators that
    [Parser.parse_comparison], [parse_additive] and [parse_term] build
    are among [< <= > >= == != + - * /]. *)
Fixpoint ops_ok (n : node) : bool :=
  let opt := fun (o : option node) => match o with Some e => ops_ok e | None => true end in
  match n with
  | Program l | Block l | ArrayLiteral l | TupleLiteral l | FunctionExprBlock l => forallb ops_ok l
  | CallExpression _ l => forallb ops_ok l
  | FunctionDecl _ _ _ b => ops_ok b
  | VarDecl _ _ _ i => match i with Some e => ops_ok e | None => true end
  | ReturnStmt o | BreakStmt o => match o with Some e => ops_ok e | None => true end
  | Assignment a b | WhileStmt a b | IndexExpr a b => ops_ok a && ops_ok b
  | ExprStmt a | LoopStmt a | LoopExpr a | RefExpr _ a | DerefExpr a | TupleAccess a _ => ops_ok a
  | IfStmt c t e => ops_ok c && ops_ok t && match e with Some e => ops_ok e | None => true end
  | IfExpr c t e => ops_ok c && ops_ok t && ops_ok e
  | ForStmt _ _ _ s e b => ops_ok s && ops_ok e && ops_ok b
  | BinaryExpression op l r => negb (is_jump_op op) && ops_ok l && ops_ok r
  | UnaryExpr op a => negb (is_jump_op op) && ops_ok a
  | ContinueStmt | EmptyStmt | Literal _ | Identifier _ => true
  end.

(** What a run of a generator method from [g] to [g'] that appended [qs]
    guarantees.  The statement about jumps needs the operators of the
    tree not to spell a jump; [strict] says whether that is assumed. *)
Record post (strict : bool) (g g' : generator) (qs : list quad) : Prop := Post {
  post_quads : quadruples g' = quadruples g ++ qs;
  post_ast : ast g' = ast g;
  post_stack : loop_stack g' = loop_stack g;
  post_fun : current_function g' = current_function g;
  post_lc : label_counter g <= label_counter g';
  post_tc : temp_counter g <= temp_counter g';
  post_defs : forall k,
    count_label (label_name k) qs
    = if bool_decide (label_counter g <= k < label_counter g') then 1%nat else 0%nat;
  post_jumps :
    strict = true ->
    Forall (jump_ok (label_counter g) (label_counter g') (loop_stack g)) qs
}.

Definition gen_ok (strict : bool) {T} (m : G T) : Prop :=
  forall g a g', m g = Ok (a, g') -> exists qs, post strict g g' qs.

(** The four mutually recursive methods at one node. *)
Definition gen_ok_all (strict : bool) (n : node) : Prop :=
  gen_ok strict (_process_expr n) /\ gen_ok strict (_process_block n)
  /\ gen_ok strict (_process_elements n) /\ gen_ok strict (_process_statement n).

(** The sub-expressions that [_process_assignment] evaluates inside an
    assignment target. *)
Definition target_ok (strict : bool) (n : node) : Prop :=
  match n with
  | IndexExpr t i => gen_ok strict (_process_expr t) /\ gen_ok strict (_process_expr i)
  | TupleAccess t _ => gen_ok strict (_process_expr t)
  | DerefExpr o => gen_ok strict (_process_expr o)
  | _ => True
  end.

(** The opcodes that do not start with [L] are not label quads. *)
Definition not_L (op : string) : bool :=
  match op with
  | String c _ => negb (Ascii.eqb c "L")
  | EmptyString => true
  end.

(** The entry quad of a function. *)
Definition entry_quad (fname : string) : quad := (fname +:+ ":", FNone, FNone, FNone).

(** A declaration the parser can produce, whose name is not the name of a
    label and whose operators do not spell a jump. *)
Definition function_ok (decl : node) : Prop :=
  match decl with
  | FunctionDecl fname _ _ body => ops_ok body = true /\ forall k, fname <> label_name k
  | _ => False
  end.

(** [seg] is the part of the quad list that belongs to [decl]. *)
Definition function_segment (decl : node) (seg : list quad) : Prop :=
  match decl with
  | FunctionDecl fname _ _ _ => exists rest, seg = entry_quad fname :: rest
  | _ => False
  end.

(** Every jump of [qs] goes to a label that has exactly one label quad
    in [qs]. *)
Definition labels_unique (qs : list quad) : Prop :=
  forall q t, In q qs -> jump_target q = Some t ->
    exists l, t = FStr l /\ count_label l qs = 1%nat.

(** The quads that [append] added between two states. *)
Definition appended (g g' : generator) (qs : list quad) : Prop :=
  quadruples g' = quadruples g ++ qs.

(** The layout of the quads of a [while] statement processed from [g]
    to [g']: [g1] is the state in which the condition is evaluated, [g2']
    the state in which the body is processed. *)
Definition while_layout (condition body : node) (g g' : generator) : Prop :=
  let start := label_name (label_counter g) in
  let end_ := label_name (label_counter g + 1) in
  let g1 := Generator (ast g)
              (quadruples g ++ [(start +:+ ":", FNone, FNone, FNone)])
              (temp_counter g) (label_counter g + 1 + 1)
              (LoopCtx start end_ None :: loop_stack g) (current_function g) in
  exists cond g2 qc g3 qb,
    _process_expr condition g1 = Ok (cond, g2)
    /\ appended g1 g2 qc
    /\ let g2' := Generator (ast g2)
                    (quadruples g2 ++ [("ifz", field_of_value cond, FNone, FStr end_)])
                    (temp_counter g2) (label_counter g2) (loop_stack g2)
                    (current_function g2) in
       _process_block body g2' = Ok (tt, g3)
       /\ appended g2' g3 qb
       /\ let qs := [(start +:+ ":", FNone, FNone, FNone)] ++ qc
                    ++ [("ifz", field_of_value cond, FNone, FStr end_)] ++ qb
                    ++ [("goto", FNone, FNone, FStr start);
                        (end_ +:+ ":", FNone, FNone, FNone)] in
          appended g g' qs
          /\ count_label start qs = 1%nat
          /\ count_label end_ qs = 1%nat.

End QuadSpec.

(** ** Sample programs *)

(** Source texts used below, and the trees [Parser.py] builds for them
    (lemmas [parse_*] check the trees against the parser). *)
Module Programs.

(** Scenario 3 of the specification. *)
Definition src_h : string := "fn h(mut n: i32) { while n > 0 { n = n - 1; } }".
Definition ast_h : node :=
  Program
    [FunctionDecl "h" [Param true "n" TI32] TNone
       (FunctionExprBlock
          [WhileStmt (BinaryExpression ">" (Identifier "n") (Literal 0))
             (Block
                [Assignment (Identifier "n")
                   (BinaryExpression "-" (Identifier "n") (Literal 1))])])].
Definition while_h : node :=
  WhileStmt (BinaryExpression ">" (Identifier "n") (Literal 0))
    (Block [Assignment (Identifier "n") (BinaryExpression "-" (Identifier "n") (Literal 1))]).

(** Two functions, the first with an explicit [return]. *)
Definition src_two : string := "fn f() { return; } fn g() { }".
Definition ast_two : node :=
  Program
    [FunctionDecl "f" [] TNone (FunctionExprBlock [ReturnStmt None]);
     FunctionDecl "g" [] TNone (FunctionExprBlock [])].

(** A declaration with an initializer, directly in a function body. *)
Definition src_let : string := "fn f() { let mut a: i32 = 1; }".
Definition ast_let : node :=
  Program
    [FunctionDecl "f" [] TNone
       (FunctionExprBlock [VarDecl true "a" TI32 (Some (Literal 1))])].

(** [program_8_2__4_invalid] of [test.py]. *)
Definition src_index_immutable : string :=
  "fn program_8_2__4() { let a:[i32;3]=[1,2,3]; a[0]=4; }".
Definition ast_index_immutable : node :=
  Program
    [FunctionDecl "program_8_2__4" [] TNone
       (FunctionExprBlock
          [VarDecl false "a" (ArrayType TI32 3)
             (Some (ArrayLiteral [Literal 1; Literal 2; Literal 3]));
           Assignment (IndexExpr (Identifier "a") (Literal 0)) (Literal 4)])].

(** [program_8_2__3_invalid] of [test.py]. *)
Definition src_index_bounds : string :=
  "fn program_8_2__3() { let mut a=[1,2,3]; let mut b=a[3]; }".
Definition ast_index_bounds : node :=
  Program
    [FunctionDecl "program_8_2__3" [] TNone
       (FunctionExprBlock
          [VarDecl true "a" TNone (Some (ArrayLiteral [Literal 1; Literal 2; Literal 3]));
           VarDecl true "b" TNone (Some (IndexExpr (Identifier "a") (Literal 3)))])].

(** A tuple variable initialised from a tuple literal of the same shape. *)
Definition src_tuple_init : string := "fn t() { let a:(i32,i32)=(1,2); }".
Definition ast_tuple_init : node :=
  Program
    [FunctionDecl "t" [] TNone
       (FunctionExprBlock
          [VarDecl false "a" (TupleType [TI32; TI32])
             (Some (TupleLiteral [Literal 1; Literal 2]))])].

(** [program_9_2__1] of [test.py]. *)
Definition src_tuple_access : string :=
  "fn program_9_2__1(mut a:(i32,i32)) { let mut b:i32=a.0; a.0=1; }".
Definition ast_tuple_access : node :=
  Program
    [FunctionDecl "program_9_2__1" [Param true "a" (TupleType [TI32; TI32])] TNone
       (FunctionExprBlock
          [VarDecl true "b" TI32 (Some (TupleAccess (Identifier "a") (IdxInt 0)));
           Assignment (TupleAccess (Identifier "a") (IdxInt 0)) (Literal 1)])].

(** A [break] inside a block expression, outside any loop. *)
Definition src_break_block : string := "fn p() { { break; } }".
Definition ast_break_block : node :=
  Program
    [FunctionDecl "p" [] TNone
       (FunctionExprBlock [FunctionExprBlock [BreakStmt None]])].

(** A [continue] inside a block expression inside an [if], outside any loop. *)
Definition src_continue_nested : string := "fn p() { if 1 { { continue; }; } }".
Definition ast_continue_nested : node :=
  Program
    [FunctionDecl "p" [] TNone
       (FunctionExprBlock
          [IfStmt (Literal 1)
             (Block [ExprStmt (FunctionExprBlock [ContinueStmt])]) None])].

(** [program_5_4__2_invalid] of [test.py]. *)
Definition src_break_top : string := "fn program_5_4__2() { break; }".
Definition ast_break_top : node :=
  Program [FunctionDecl "program_5_4__2" [] TNone (FunctionExprBlock [BreakStmt None])].

(** A function whose name is the name of a label. *)
Definition src_L0 : string := "fn L0() { if 1 { } }".
Definition ast_L0 : node :=
  Program
    [FunctionDecl "L0" [] TNone (FunctionExprBlock [IfStmt (Literal 1) (Block []) None])].

(** Two functions with loops, [break] and [continue]. *)
Definition src_loops : string :=
  "fn a(mut n: i32) { while n > 0 { if n == 5 { break; } n = n - 1; } } fn b() { loop { continue; } }".
Definition ast_loops : node :=
  Program
    [FunctionDecl "a" [Param true "n" TI32] TNone
       (FunctionExprBlock
          [WhileStmt (BinaryExpression ">" (Identifier "n") (Literal 0))
             (Block
                [IfStmt (BinaryExpression "==" (Identifier "n") (Literal 5))
                   (Block [BreakStmt None]) None;
                 Assignment (Identifier "n")
                   (BinaryExpression "-" (Identifier "n") (Literal 1))])]);
     FunctionDecl "b" [] TNone
       (FunctionExprBlock [LoopStmt (Block [ContinueStmt])])].

(** Scenario 5 of the specification ([program_6_2__4_invalid]). *)
Definition src_borrow_conflict : string :=
  "fn bad2() { let mut a: i32 = 1; let b = &a; let mut c = &mut a; }".
Definition ast_borrow_conflict : node :=
  Program
    [FunctionDecl "bad2" [] TNone
       (FunctionExprBlock
          [VarDecl true "a" TI32 (Some (Literal 1));
           VarDecl false "b" TNone (Some (RefExpr false (Identifier "a")));
           VarDecl true "c" TNone (Some (RefExpr true (Identifier "a")))])].

(** [program_6_2__6] of [test.py]: two shared borrows. *)
Definition src_borrow_shared : string :=
  "fn program_6_2__6() { let mut a:i32=1; let b=&a; let c=&a; }".
Definition ast_borrow_shared : node :=
  Program
    [FunctionDecl "program_6_2__6" [] TNone
       (FunctionExprBlock
          [VarDecl true "a" TI32 (Some (Literal 1));
           VarDecl false "b" TNone (Some (RefExpr false (Identifier "a")));
           VarDecl false "c" TNone (Some (RefExpr false (Identifier "a")))])].

(** A mutable borrow of a declared but uninitialized variable. *)
Definition src_borrow_uninit : string := "fn u() { let mut a: i32; let b = &mut a; }".
Definition ast_borrow_uninit : node :=
  Program
    [FunctionDecl "u" [] TNone
       (FunctionExprBlock
          [VarDecl true "a" TI32 None;
           VarDecl false "b" TNone (Some (RefExpr true (Identifier "a")))])].

(** The generator for [src_h] after [generate], and the quads it
    returned. *)
Definition generated_h : QuadGen.generator :=
  Eval vm_compute in
    match QuadGen.generate (QuadGen.__init__ ast_h) with
    | Ok (_, g) => g
    | Raise _ => QuadGen.__init__ ast_h
    end.
Definition quads_h : list QuadGen.quad := QuadGen.quadruples generated_h.

(** A fresh generator for [src_h] after its [while] statement alone. *)
Definition after_while_h : QuadGen.generator :=
  Eval vm_compute in
    match QuadGen._process_statement while_h (QuadGen.__init__ ast_h) with
    | Ok (_, g) => g
    | Raise _ => QuadGen.__init__ ast_h
    end.

(** The quads of [src_loops]. *)
Definition quads_loops : list QuadGen.quad :=
  Eval vm_compute in
    match QuadGen.generate_quadruples ast_loops with
    | Ok qs => qs
    | Raise _ => []
    end.

(** The recursion budget used when parsing the samples. *)
Definition budget : nat := 40.

End Programs.

(** ** Vocabulary of the properties of the analyzer *)

Module SemaSpec.
Import Sema.

(** No symbol is borrowed both mutably and immutably. *)
Definition no_conflict (a : analyzer) : Prop :=
  forall addr s, symbols a !! addr = Some s -> borrowed_mut s && borrowed_immut s = false.

(** A flag that is set in [a] is still set in [a']. *)
Definition flags_kept (a a' : analyzer) : Prop :=
  forall addr s, symbols a !! addr = Some s ->
    exists s', symbols a' !! addr = Some s'
               /\ (borrowed_mut s = true -> borrowed_mut s' = true)
               /\ (borrowed_immut s = true -> borrowed_immut s' = true).

Definition keeps (a a' : analyzer) : Prop :=
  flags_kept a a' /\ (no_conflict a -> no_conflict a').

(** Every successful run of [m] keeps the flags. *)
Definition sem_ok {T} (m : A T) : Prop :=
  forall a x a', m a = Ok (x, a') -> keeps a a'.

(** The three mutually recursive methods at one node. *)
Definition sem_ok_all (n : node) : Prop :=
  sem_ok (infer_expr_type n) /\ sem_ok (check_var_decl n) /\ sem_ok (check_assignment n).

(** What [infer_expr_type] does with a loop element tagged ['BreakStmt']. *)
Definition infer_break (e : node) : A tyval :=
  match e with
  | BreakStmt expression => infer_opt infer_expr_type expression
  | _ => raise KeyError
  end.

(** The sub-nodes below the direct parts of a node that the methods
    recurse into. *)
Definition sub_ok (n : node) : Prop :=
  match n with
  | TupleAccess t _ | ExprStmt t => sem_ok (infer_expr_type t)
  | BreakStmt (Some x) => sem_ok (infer_expr_type x)
  | FunctionExprBlock l | ArrayLiteral l | TupleLiteral l =>
      Forall (fun e => tag_is e "BreakStmt" = true -> sem_ok (infer_break e)) l
  | _ => True
  end.

(** The two mutually recursive statement methods at one node, and at the
    statements of a block. *)
Definition visit_ok (n : node) : Prop :=
  forall t, sem_ok (visit_stmt t n) /\ sem_ok (check_if t n).

Definition visit_sub_ok (n : node) : Prop :=
  match n with
  | Block l => Forall visit_ok l
  | _ => True
  end.

Definition with_borrowed_mut (s : Symbol) : Symbol :=
  mkSymbol (name s) (type s) (mut s) (initialized s) true (borrowed_immut s).
Definition with_borrowed_immut (s : Symbol) : Symbol :=
  mkSymbol (name s) (type s) (mut s) (initialized s) (borrowed_mut s) true.

(** The borrow rule in the words of the specification, for a reference
    ([ref_mut] says whether mutable) to the symbol [s] stored at [addr]. *)
Definition ref_outcome (ref_mut : bool) (addr : nat) (s : Symbol) (a : analyzer)
  : result (tyval * analyzer) :=
  if ref_mut then
    if negb (mut s) then Raise BorrowCheckError
    else if borrowed_mut s || borrowed_immut s then Raise BorrowCheckError
    else Ok (ReferenceType true (type s),
             set_symbols (<[addr := with_borrowed_mut s]> (symbols a)) a)
  else
    if borrowed_mut s then Raise BorrowCheckError
    else Ok (ReferenceType false (type s),
             set_symbols (<[addr := with_borrowed_immut s]> (symbols a)) a).

(** The rule as the claim has it: for every bound identifier. *)
Definition ref_rule_for_every_symbol : Prop :=
  forall ref_mut n a addr s,
    lookup_variable n a = Ok (addr, a) ->
    symbols a !! addr = Some s ->
    infer_expr_type (RefExpr ref_mut (Identifier n)) a = ref_outcome ref_mut addr s a.

(** The analyzer for [fn u() { let mut a: i32; ... }] after entering the
    function scope and checking the declaration of [a]. *)
Definition after_uninit_decl : analyzer :=
  Eval vm_compute in
    match (push_env ;;; check_var_decl (VarDecl true "a" TI32 None))
            (__init__ Programs.ast_borrow_uninit) with
    | Ok (_, a) => a
    | Raise _ => __init__ Programs.ast_borrow_uninit
    end.

(** The analyzer for [fn program_6_2__6() { let mut a:i32=1; ... }] after
    entering the function scope and checking the declaration of [a]. *)
Definition after_init_decl : analyzer :=
  Eval vm_compute in
    match (push_env ;;; check_var_decl (VarDecl true "a" TI32 (Some (Literal 1))))
            (__init__ Programs.ast_borrow_shared) with
    | Ok (_, a) => a
    | Raise _ => __init__ Programs.ast_borrow_shared
    end.

(** The analyzer after [analyze] on [program_6_2__6]. *)
Definition analyzed_shared : analyzer :=
  Eval vm_compute in
    match analyze (__init__ Programs.ast_borrow_shared) with
    | Ok (_, a) => a
    | Raise _ => __init__ Programs.ast_borrow_shared
    end.

End SemaSpec.

(** ** Vocabulary for the lexer *)

Module LexSpec.
Import Lexer.

(** The characters that occur in an operator of [OPERATORS]. *)
Definition operator_char (c : ascii) : bool :=
  existsb (fun op => mem_char c (list_ascii_of_string op)) OPERATORS.

(** A character that starts no token class: not white space, not a letter
    or underscore, not a digit, not a comment opener, and not an operator,
    delimiter, separator, assignment, dot or arrow character. *)
Definition starts_no_token (c : ascii) : bool :=
  negb (isspace c)
  && negb (isalpha c || Ascii.eqb c "_")
  && negb (isdigit c)
  && negb (Ascii.eqb c "/")
  && negb (operator_char c)
  && negb (mem_char c DELIMITERS)
  && negb (mem_char c SEPARATORS)
  && negb (Ascii.eqb c "=")
  && negb (Ascii.eqb c ".")
  && negb (Ascii.eqb c "-" || Ascii.eqb c ">").

(** [reaches l l']: the loop of [lex], started in state [l], calls
    [get_next_token] in state [l']. *)
Inductive reaches : lexer -> lexer -> Prop :=
| reaches_here l : reaches l l
| reaches_next l tok l' l'' :
    get_next_token l = Ok (tok, l') ->
    type tok <> EOF ->
    reaches l' l'' ->
    reaches l l''.

(** [reads l tokens l']: the loop of [lex], started in state [l], calls
    [get_next_token] in state [l'] after it has appended [tokens]. *)
Inductive reads : lexer -> list Token -> lexer -> Prop :=
| reads_here l : reads l [] l
| reads_next l tok l' tokens l'' :
    get_next_token l = Ok (tok, l') ->
    type tok <> EOF ->
    reads l' tokens l'' ->
    reads l (if bool_decide (type tok = COMMENT) then tokens else tok :: tokens) l''.

Definition invalid_character (c : ascii) : exn :=
  ValueError ("Invalid character '" +:+ String c "' ").

(** The rule for every character that starts no token class: when the
    loop of [lex] arrives at it, [lex] fails with the lex-error. *)
Definition unknown_character_rule : Prop :=
  forall code l c rest,
    reaches (__init__ code) l ->
    skip_whitespace l = String c rest ->
    starts_no_token c = true ->
    lex code = Some (Raise (invalid_character c)).

(** [l'] is what is left of [l] after some characters have been read. *)
Definition suffix_of (l' l : lexer) : Prop := exists p, l = p +:+ l'.

(** A state of a lexer on a text that ends with the end marker. *)
Definition marked (l : lexer) : Prop :=
  l = EmptyString \/ exists p, l = p +:+ "#".

End LexSpec.

(** ** Vocabulary for the tokens *)

Module LexVocab.
Import Lexer.

(** A string of white space only. *)
Definition all_space (s : string) : bool := forallb isspace (list_ascii_of_string s).





(** The text contains the closing [*/] of a block comment. *)
Fixpoint has_close (s : string) : bool :=
  match s with
  | String "*" (String "/" _) => true
  | String _ r => has_close r
  | EmptyString => false
  end.

(** A decimal digit, and a character that [str.isdigit] accepts and
    [int] does not. *)
Definition decimal (c : ascii) : bool := between 48 57 c.
Definition odd_digit (c : ascii) : bool := isdigit c && negb (decimal c).

End LexVocab.

(** ** Vocabulary for the invariants of the analyzer *)

Module SemaInv.
Import Sema.

(** Every successful run of [m] relates the state before to the state
    after by [R]. *)
Definition holds (R : analyzer -> analyzer -> Prop) {T} (m : A T) : Prop :=
  forall a x a', m a = Ok (x, a') -> R a a'.

Section Relations.

(** [Re] for the methods that leave the scopes as they are, [Rs] for the
    ones that may declare a variable in the current scope. *)
Variables Re Rs : analyzer -> analyzer -> Prop.

Definition inv_all (n : node) : Prop :=
  holds Re (infer_expr_type n) /\ holds Rs (check_var_decl n)
  /\ holds Re (check_assignment n).

Definition inv_sub (n : node) : Prop :=
  match n with
  | TupleAccess t _ | ExprStmt t => holds Re (infer_expr_type t)
  | BreakStmt (Some x) => holds Re (infer_expr_type x)
  | FunctionExprBlock l | ArrayLiteral l | TupleLiteral l =>
      Forall (fun e => tag_is e "BreakStmt" = true -> holds Re (SemaSpec.infer_break e)) l
  | _ => True
  end.

Definition inv_visit (n : node) : Prop :=
  forall t, holds Rs (visit_stmt t n) /\ holds Rs (check_if t n).

Definition inv_visit_sub (n : node) : Prop :=
  match n with
  | Block l => Forall inv_visit l
  | _ => True
  end.

End Relations.

(** The scopes, the loop depth and the function table are as before. *)
Definition scopes_restored (a a' : analyzer) : Prop :=
  env_stack a' = env_stack a /\ loop_depth a' = loop_depth a
  /\ functions a' = functions a /\ ast a' = ast a.

(** The loop depth, the function table and the enclosing scopes are as
    before, and the current scope binds every name it bound. *)
Definition scope_extended (a a' : analyzer) : Prop :=
  loop_depth a' = loop_depth a /\ functions a' = functions a /\ ast a' = ast a
  /\ match env_stack a, env_stack a' with
     | [], [] => True
     | env :: r, env' :: r' => r' = r /\ forall n, is_Some (env !! n) -> is_Some (env' !! n)
     | _, _ => False
     end.

(** The symbols of [a] are still there, with their name, type and
    mutability; an initialized one stays initialized. *)
Definition symbols_stable (a a' : analyzer) : Prop :=
  forall addr s, symbols a !! addr = Some s ->
    exists s', symbols a' !! addr = Some s'
               /\ name s' = name s /\ type s' = type s /\ mut s' = mut s
               /\ (initialized s = true -> initialized s' = true).

(** The address that the innermost binding of [n] holds. *)
Fixpoint resolve (envs : list (gmap string nat)) (n : string) : option nat :=
  match envs with
  | [] => None
  | env :: r =>
      match env !! n with
      | Some addr => Some addr
      | None => resolve r n
      end
  end.

(** [name] is bound in no scope. *)
Definition unbound (n : string) (a : analyzer) : Prop :=
  Forall (fun env : gmap string nat => env !! n = None) (env_stack a).

(** The declaration that a call of [n] is checked against: the last one
    of that name. *)
Definition declared (n : string) (declarations : list node) : option node :=
  last (filter (fun d => node_name d = Some n) declarations).

(** The elements of the body of a function declaration. *)
Definition body_elements (decl : node) : list node :=
  match decl with
  | FunctionDecl _ _ _ (FunctionExprBlock elements) => elements
  | _ => []
  end.

Definition is_break_or_continue (n : node) : bool :=
  tag_is n "BreakStmt" || tag_is n "ContinueStmt".

(** The first pass of [analyze] at one declaration:
    [self.functions[decl['name']] = decl]. *)
Definition set_function (decl : node) : A unit :=
  match node_name decl with
  | Some n => modify (fun a => set_functions (<[n := decl]> (functions a)) a)
  | None => raise KeyError
  end.

(** The analyzer after [visit_function] on [fn g() { a = 1; }], started
    where [a] is declared and not initialized. *)
Definition after_assign_in_g : analyzer :=
  Eval vm_compute in
    match visit_function
            (FunctionDecl "g" [] TNone
               (FunctionExprBlock [Assignment (Identifier "a") (Literal 1)]))
            SemaSpec.after_uninit_decl with
    | Ok (_, a) => a
    | Raise _ => SemaSpec.after_uninit_decl
    end.

End SemaInv.

(** ** Vocabulary for the outcome of the generator *)

Module QuadVocab.
Import QuadGen QuadSpec.

(** What a successful run of a method from [g] to [g'] leaves alone:
    [qs] is appended to the quads, the counters do not decrease, and the
    tree, the loop stack and the current function are as before. *)
Definition frame (g g' : generator) (qs : list quad) : Prop :=
  quadruples g' = quadruples g ++ qs
  /\ ast g' = ast g
  /\ loop_stack g' = loop_stack g
  /\ current_function g' = current_function g
  /\ temp_counter g <= temp_counter g'
  /\ label_counter g <= label_counter g'.

(** [g'] is the state after a successful run of one of the four
    mutually recursive methods from [g]. *)
Definition runs_from (g g' : generator) : Prop :=
  (exists n v, _process_expr n g = Ok (v, g'))
  \/ (exists n, _process_block n g = Ok (tt, g'))
  \/ (exists n, _process_elements n g = Ok (tt, g'))
  \/ (exists n, _process_statement n g = Ok (tt, g')).

(** [if not self.loop_stack] is false. *)
Definition in_loop (g : generator) : bool :=
  match loop_stack g with
  | [] => false
  | _ :: _ => true
  end.

(** Every [break] and [continue] that [_process_statement] and
    [_process_elements] reach below [s] is inside a loop; [d] says
    whether [s] itself is. *)
Fixpoint loops_ok (d : bool) (s : node) : bool :=
  let body := fun (d : bool) (b : node) =>
    match b with
    | Block l | FunctionExprBlock l => forallb (loops_ok d) l
    | _ => true
    end in
  match s with
  | BreakStmt _ | ContinueStmt => d
  | IfStmt _ t e => body d t && match e with Some e => body d e | None => true end
  | WhileStmt _ b | ForStmt _ _ _ _ _ b | LoopStmt b => body true b
  | Block l => forallb (loops_ok d) l
  | _ => true
  end.

(** The same for what [_process_block] reaches in [b]. *)
Definition body_ok (d : bool) (b : node) : bool :=
  match b with
  | Block l | FunctionExprBlock l => forallb (loops_ok d) l
  | _ => true
  end.

Definition decl_ok (d : bool) (decl : node) : bool :=
  match decl with
  | FunctionDecl _ _ _ body => body_ok d body
  | _ => true
  end.

(** Every [break] and [continue] that [generate] reaches is inside a
    loop. *)
Definition program_ok (program : node) : bool :=
  match program with
  | Program declarations => forallb (decl_ok false) declarations
  | _ => true
  end.

(** The two exceptions of [_process_break_stmt] and
    [_process_continue_stmt]. *)
Definition outside_loop (e : exn) : Prop :=
  e = ValueError "break statement outside of loop"
  \/ e = ValueError "continue statement outside of loop".

(** A run that succeeds says that [ok] holds; a run that raises does so
    with one of the two exceptions, when [ok] does not hold, or with the
    exception of [str] on a literal of too many digits. *)
Definition outcome {T} (r : result (T * generator)) (ok : bool) : Prop :=
  match r with
  | Ok _ => ok = true
  | Raise e => (ok = false /\ outside_loop e) \/ e = str_too_many_digits
  end.

Definition outcome_all (n : node) : Prop :=
  (forall g, outcome (_process_block n g) (body_ok (in_loop g) n))
  /\ (forall g, outcome (_process_elements n g) (loops_ok (in_loop g) n))
  /\ (forall g, outcome (_process_statement n g) (loops_ok (in_loop g) n)).

(** A run of [m] raises nothing but the exception of [str] on a literal
    of too many digits. *)
Definition fails_on_digits {T} (m : G T) : Prop :=
  forall g e, m g = Raise e -> e = str_too_many_digits.

(** No [Block] stands where a statement is expected, in the statements
    that the generator reaches below [s]. *)
Fixpoint no_bare_block (s : node) : bool :=
  let body := fun (b : node) =>
    match b with
    | Block l | FunctionExprBlock l => forallb no_bare_block l
    | _ => true
    end in
  match s with
  | Block _ => false
  | IfStmt _ t e => body t && match e with Some e => body e | None => true end
  | WhileStmt _ b | ForStmt _ _ _ _ _ b | LoopStmt b => body b
  | _ => true
  end.

Definition no_bare_block_in (b : node) : bool :=
  match b with
  | Block l | FunctionExprBlock l => forallb no_bare_block l
  | _ => true
  end.

Definition no_bare_block_decl (decl : node) : bool :=
  match decl with
  | FunctionDecl _ _ _ body => no_bare_block_in body
  | _ => true
  end.

Definition no_bare_block_program (program : node) : bool :=
  match program with
  | Program declarations => forallb no_bare_block_decl declarations
  | _ => true
  end.

(** What [visit_stmt] accepting [s] says about the [break]s and
    [continue]s below [s]. *)
Definition accepted_loops (s : node) : Prop :=
  forall t a a',
    Sema.visit_stmt t s a = Ok (tt, a') ->
    no_bare_block s = true ->
    loops_ok (negb (Sema.loop_depth a =? 0)%Z) s = true.

Definition accepted_loops_sub (s : node) : Prop :=
  match s with
  | Block l => Forall accepted_loops l
  | _ => True
  end.

End QuadVocab.

(** ** Vocabulary for the layout of the quads *)

Module QuadLayout.
Import QuadGen QuadSpec.

Definition with_quads (g : generator) (qs : list quad) (tc lc : N) : generator :=
  Generator (ast g) (quadruples g ++ qs) tc lc (loop_stack g) (current_function g).

Definition temp_name (k : N) : string := "t" +:+ pretty k.

Definition label_quad (l : string) : quad := (l +:+ ":", FNone, FNone, FNone).
Definition goto_quad (l : string) : quad := ("goto", FNone, FNone, FStr l).

(** The quads of an [if] statement processed from [g] to [g']: the
    condition is evaluated from [g] to [g1], the [then] block runs from
    [g1'] to [g2], the [else] block from [g2'] to [g3]. *)
Definition if_layout (condition then_ : node) (else_ : option node) (g g' : generator) : Prop :=
  exists cond g1 qc g2 qt g3 qe,
    _process_expr condition g = Ok (cond, g1)
    /\ appended g g1 qc
    /\ let else_label := label_name (label_counter g1) in
       let end_label := label_name (label_counter g1 + 1) in
       let ifz := ("ifz", field_of_value cond, FNone, FStr else_label) in
       let g1' := with_quads g1 [ifz] (temp_counter g1) (label_counter g1 + 1 + 1) in
       _process_block then_ g1' = Ok (tt, g2)
       /\ appended g1' g2 qt
       /\ let g2' := with_quads g2 [goto_quad end_label; label_quad else_label]
                       (temp_counter g2) (label_counter g2) in
          match else_ with
          | Some e => _process_block e g2' = Ok (tt, g3)
          | None => g3 = g2'
          end
          /\ appended g2' g3 qe
          /\ appended g g'
               (qc ++ [ifz] ++ qt ++ [goto_quad end_label; label_quad else_label]
                   ++ qe ++ [label_quad end_label])
          /\ (forall e, else_ = Some e -> tag_is e "IfStmt" = true -> qe = []).

(** The quads of a [for] statement processed from [g] to [g']: the two
    bounds are evaluated from [g] to [g2], the body runs from [g2'] to
    [g3]. *)
Definition for_layout (is_mut : bool) (var : string) (var_type : tyval)
    (start_ end_ body : node) (g g' : generator) : Prop :=
  exists start g1 qs end_v g2 qe g3 qb,
    _process_expr start_ g = Ok (start, g1)
    /\ appended g g1 qs
    /\ _process_expr end_ g1 = Ok (end_v, g2)
    /\ appended g1 g2 qe
    /\ let start_label := label_name (label_counter g2) in
       let end_label := label_name (label_counter g2 + 1) in
       let temp := temp_name (temp_counter g2) in
       let head :=
         [("declare", FStr var, FStr (if is_mut then "mut" else "const"), field_of_type var_type);
          ("=", field_of_value start, FNone, FStr var);
          label_quad start_label;
          ("<", FStr var, field_of_value end_v, FStr temp);
          ("ifz", FStr temp, FNone, FStr end_label)] in
       let g2' := Generator (ast g2) (quadruples g2 ++ head) (temp_counter g2 + 1)
                    (label_counter g2 + 1 + 1)
                    (LoopCtx start_label end_label None :: loop_stack g2)
                    (current_function g2) in
       _process_block body g2' = Ok (tt, g3)
       /\ appended g2' g3 qb
       /\ let inc_temp := temp_name (temp_counter g3) in
          appended g g'
            (qs ++ qe ++ head ++ qb
                ++ [("+", FStr var, FStr "1", FStr inc_temp);
                    ("=", FStr inc_temp, FNone, FStr var);
                    goto_quad start_label;
                    label_quad end_label])
          /\ temp_counter g' = temp_counter g3 + 1
          /\ loop_stack g' = loop_stack g.

(** The state after a [loop] expression processed from [g]: three quads,
    whatever the block holds. *)
Definition after_loop_expr (g : generator) : generator :=
  let start_label := label_name (label_counter g) in
  with_quads g [label_quad start_label; goto_quad start_label;
                label_quad (label_name (label_counter g + 1))]
    (temp_counter g + 1) (label_counter g + 1 + 1).

(** The state after an [if] expression whose branches are blocks, when
    the condition has been evaluated to [cond], from [g] to [g1]. *)
Definition after_if_expr (cond : option string) (g1 : generator) : generator :=
  let else_label := label_name (label_counter g1) in
  let end_label := label_name (label_counter g1 + 1) in
  let result_temp := temp_name (temp_counter g1) in
  with_quads g1
    [("ifz", field_of_value cond, FNone, FStr else_label);
     ("=", FNone, FNone, FStr result_temp);
     goto_quad end_label;
     label_quad else_label;
     ("=", FNone, FNone, FStr result_temp);
     label_quad end_label]
    (temp_counter g1 + 1) (label_counter g1 + 1 + 1).

(** Samples: an [if] with an [else if], and a [for] loop, processed from
    a fresh generator. *)
Definition sample_if : node :=
  IfStmt (Identifier "a") (Block [ReturnStmt (Some (Literal 1))])
    (Some (IfStmt (Identifier "b") (Block [ReturnStmt (Some (Literal 2))]) None)).

Definition after_sample_if : generator :=
  Eval vm_compute in
    match _process_statement sample_if (__init__ (Program [])) with
    | Ok (_, g) => g
    | Raise _ => __init__ (Program [])
    end.

Definition after_sample_for : generator :=
  Eval vm_compute in
    match _process_statement
            (ForStmt true "i" TNone (Literal 1)
               (BinaryExpression "+" (Identifier "n") (Literal 1))
               (Block [Assignment (Identifier "n") (Identifier "i")]))
            (__init__ (Program [])) with
    | Ok (_, g) => g
    | Raise _ => __init__ (Program [])
    end.

End QuadLayout.

(** ** Vocabulary for the parser *)

Module ParseVocab.

(** A declaration as [parse_declaration] builds it. *)
Definition function_decl (d : node) : Prop :=
  exists name params return_type elements,
    d = FunctionDecl name params return_type (FunctionExprBlock elements).

(** Every result of the parser method [f] satisfies [Q]. *)
Definition returns {T} (f : Parser.P T) (Q : T -> Prop) : Prop :=
  forall s r s', f s = Some (Ok (r, s')) -> Q r.

(** A node that is no [Block] and has no [Block] where a statement is
    expected, and a [Block] of such nodes. *)
Definition good (n : node) : Prop :=
  QuadVocab.no_bare_block_in n = true /\ QuadVocab.no_bare_block n = true.

Definition good_block (n : node) : Prop :=
  exists l, n = Block l /\ forallb QuadVocab.no_bare_block l = true.

(** The methods that return a node, at one recursion budget. *)
Definition good_parser (fuel : nat) : Prop :=
  returns (Parser.parse_statement fuel) good
  /\ returns (Parser.parse_expression fuel) good
  /\ returns (Parser.parse_if_expression fuel) good
  /\ returns (Parser.parse_comparison fuel) good
  /\ returns (Parser.parse_additive fuel) good
  /\ returns (Parser.parse_term fuel) good
  /\ returns (Parser.parse_factor fuel) good
  /\ returns (Parser.parse_array_literal fuel) good
  /\ returns (Parser.parse_variable_decl fuel) good
  /\ returns (Parser.parse_if fuel) good
  /\ returns (Parser.parse_while fuel) good
  /\ returns (Parser.parse_for fuel) good
  /\ returns (Parser.parse_loop_stmt fuel) good
  /\ returns (Parser.parse_block fuel) good_block
  /\ returns (Parser.parse_function_expression_block fuel) good.

(** [n] is no [Block], and every [Block] below [n], at any depth, is the
    [then] or [else] part of an [IfStmt] or the body of a [WhileStmt],
    [ForStmt] or [LoopStmt]. *)
Fixpoint blocks_placed (n : node) : bool :=
  let body := fun b : node =>
    match b with
    | Block l => forallb blocks_placed l
    | _ => blocks_placed b
    end in
  let opt := fun o : option node =>
    match o with
    | Some e => blocks_placed e
    | None => true
    end in
  match n with
  | Block _ => false
  | Program l | CallExpression _ l | ArrayLiteral l | TupleLiteral l
  | FunctionExprBlock l => forallb blocks_placed l
  | FunctionDecl _ _ _ b | ExprStmt b | UnaryExpr _ b | LoopExpr b | RefExpr _ b
  | DerefExpr b | TupleAccess b _ => blocks_placed b
  | VarDecl _ _ _ o | ReturnStmt o | BreakStmt o => opt o
  | Assignment a b | BinaryExpression _ a b | IndexExpr a b =>
      blocks_placed a && blocks_placed b
  | IfStmt c t e =>
      blocks_placed c && body t && match e with Some e => body e | None => true end
  | WhileStmt c b => blocks_placed c && body b
  | ForStmt _ _ _ s e b => blocks_placed s && blocks_placed e && body b
  | LoopStmt b => body b
  | IfExpr c t e => blocks_placed c && blocks_placed t && blocks_placed e
  | ContinueStmt | EmptyStmt | Literal _ | Identifier _ => true
  end.

(** The same for a node in the place of a body: it may be a [Block]. *)
Definition placed_body (b : node) : bool :=
  match b with
  | Block l => forallb blocks_placed l
  | _ => blocks_placed b
  end.

Definition placed (n : node) : Prop := blocks_placed n = true.
Definition placed_list (l : list node) : Prop := forallb blocks_placed l = true.
Definition placed_block (n : node) : Prop :=
  exists l, n = Block l /\ forallb blocks_placed l = true.

(** The methods that return nodes, at one recursion budget. *)
Definition placed_parser (fuel : nat) : Prop :=
  returns (Parser.parse_statement fuel) placed
  /\ returns (Parser.parse_expression fuel) placed
  /\ returns (Parser.parse_if_expression fuel) placed
  /\ returns (Parser.parse_comparison fuel) placed
  /\ returns (Parser.parse_additive fuel) placed
  /\ returns (Parser.parse_term fuel) placed
  /\ returns (Parser.parse_factor fuel) placed
  /\ returns (Parser.parse_array_literal fuel) placed
  /\ returns (Parser.parse_arg_list fuel) placed_list
  /\ returns (Parser.parse_variable_decl fuel) placed
  /\ returns (Parser.parse_if fuel) placed
  /\ returns (Parser.parse_while fuel) placed
  /\ returns (Parser.parse_for fuel) placed
  /\ returns (Parser.parse_loop_stmt fuel) placed
  /\ returns (Parser.parse_block fuel) placed_block
  /\ returns (Parser.parse_function_expression_block fuel) placed.

(** The tokens and the tree of
    [fn f() { while 1 { let x = { if 1 { } else if 2 { } }; break; } }]. *)
Definition nested_tokens : list Lexer.Token :=
  Eval vm_compute in
    match Lexer.lex "fn f() { while 1 { let x = { if 1 { } else if 2 { } }; break; } }" with
    | Some (Ok tokens) => tokens
    | _ => []
    end.

Definition nested_tree : node :=
  Eval vm_compute in
    match Parser.parse 40 nested_tokens with
    | Some (Ok program) => program
    | _ => Program []
    end.

End ParseVocab.

(** * Properties *)

(** ** The state and exception monad *)

Lemma bind_Ok {S T U} (m : M S T) (k : T -> M S U) s b s' :
  bind m k s = Ok (b, s') <-> exists a s1, m s = Ok (a, s1) /\ k a s1 = Ok (b, s').
Proof.
  unfold bind. split.
  - destruct (m s) as [[a s1]|e]; [eauto | discriminate].
  - intros (a & s1 & -> & Hk). exact Hk.
Qed.

Lemma list_all_Forall {T} (P : T -> Prop) l : list_all T P l -> Forall P l.
Proof. induction 1; constructor; assumption. Qed.

(** ** Quadruple generator: what every method guarantees *)

Module QuadFacts.
Import QuadGen QuadSpec.

Lemma _process_expr_eq expr :
  _process_expr expr = _process_expr_body _process_expr expr.
Proof. destruct expr; reflexivity. Qed.

Lemma _process_block_eq block :
  _process_block block = _process_block_body _process_statement _process_elements block.
Proof. destruct block; reflexivity. Qed.

Lemma _process_elements_eq element :
  _process_elements element
  = _process_elements_body _process_expr _process_block _process_statement element.
Proof. destruct element; reflexivity. Qed.

Lemma _process_statement_eq stmt :
  _process_statement stmt
  = _process_statement_body _process_expr _process_block _process_block stmt.
Proof. destruct stmt; reflexivity. Qed.

(** *** Label quads and jumps *)

Lemma count_label_app l qs1 qs2 :
  count_label l (qs1 ++ qs2) = (count_label l qs1 + count_label l qs2)%nat.
Proof. induction qs1 as [|q r IH]; simpl; [reflexivity | rewrite IH; lia]. Qed.

Lemma label_name_inj k1 k2 : label_name k1 = label_name k2 -> k1 = k2.
Proof.
  unfold label_name. simpl. intros H. injection H as H.
  by apply (inj pretty).
Qed.

Lemma append_colon_inj (s1 s2 : string) : s1 +:+ ":" = s2 +:+ ":" -> s1 = s2.
Proof.
  revert s2. induction s1 as [|c s1 IH]; intros [|d s2]; simpl; intros H.
  - reflexivity.
  - injection H as _ H. destruct s2; discriminate.
  - injection H as _ H. destruct s1; discriminate.
  - injection H as -> H. f_equal. by apply IH.
Qed.

Lemma is_label_quad_label k a :
  is_label_quad (label_name k) (label_name a +:+ ":", FNone, FNone, FNone)
  = bool_decide (k = a).
Proof.
  unfold is_label_quad. case_bool_decide as Hk.
  - subst. apply String.eqb_refl.
  - apply String.eqb_neq. intros H. apply Hk. symmetry.
    apply label_name_inj. by apply append_colon_inj.
Qed.

Lemma is_label_quad_result l op a b r : is_label_quad l (op, a, b, FStr r) = false.
Proof. unfold is_label_quad. destruct a, b; reflexivity. Qed.

Lemma is_label_quad_arg1 l op s b r : is_label_quad l (op, FStr s, b, r) = false.
Proof. reflexivity. Qed.

Lemma is_label_quad_not_L k op a b r :
  not_L op = true -> is_label_quad (label_name k) (op, a, b, r) = false.
Proof.
  intros H. unfold is_label_quad. destruct a, b, r; try reflexivity.
  destruct op as [|c op]; [reflexivity|]. simpl in *.
  destruct (Ascii.eqb c "L"); [discriminate | reflexivity].
Qed.

Lemma is_label_quad_entry k fname :
  fname <> label_name k -> is_label_quad (label_name k) (entry_quad fname) = false.
Proof.
  intros H. unfold is_label_quad, entry_quad. apply String.eqb_neq.
  intros E. apply H. by apply append_colon_inj.
Qed.

Lemma is_jump_op_colon s : is_jump_op (s +:+ ":") = false.
Proof.
  unfold is_jump_op. apply orb_false_iff. split; apply String.eqb_neq; intros H.
  - destruct s as [|? [|? [|? [|? [|? ?]]]]]; simpl in H; try discriminate H;
      injection H; intros; discriminate.
  - destruct s as [|? [|? [|? [|? ?]]]]; simpl in H; try discriminate H;
      injection H; intros; discriminate.
Qed.

Lemma jump_ok_widen lo hi lo' hi' ls q :
  lo' <= lo -> hi <= hi' -> jump_ok lo hi ls q -> jump_ok lo' hi' ls q.
Proof.
  intros Hlo Hhi H t Ht. destruct (H t Ht) as (l & -> & [(k & -> & Hk)|Hin]).
  - exists (label_name k). split; [reflexivity|]. left. exists k. split; [reflexivity | lia].
  - eauto.
Qed.

(** Jumps of a loop body, seen from outside the loop. *)
Lemma jump_ok_loop lo hi lo' hi' a ls r q :
  lo' <= a -> a + 1 < hi' -> lo' <= lo -> hi <= hi' ->
  jump_ok lo hi (LoopCtx (label_name a) (label_name (a + 1)) r :: ls) q ->
  jump_ok lo' hi' ls q.
Proof.
  intros Ha Ha' Hlo Hhi H t Ht. destruct (H t Ht) as (l & -> & [(k & -> & Hk)|Hin]).
  - exists (label_name k). split; [reflexivity|]. left. exists k. split; [reflexivity | lia].
  - simpl in Hin. destruct Hin as [<- | [<- | Hin]].
    + eexists. split; [reflexivity|]. left. exists a. split; [reflexivity | lia].
    + eexists. split; [reflexivity|]. left. exists (a + 1). split; [reflexivity | lia].
    + eauto.
Qed.

Lemma jump_ok_nonjump lo hi ls op a b r :
  is_jump_op op = false -> jump_ok lo hi ls (op, a, b, r).
Proof. intros H t. unfold jump_target. rewrite H. discriminate. Qed.

Lemma jump_ok_label lo hi ls op a b k :
  lo <= k < hi -> jump_ok lo hi ls (op, a, b, FStr (label_name k)).
Proof.
  intros Hk t Ht. unfold jump_target in Ht. destruct (is_jump_op op); [|discriminate].
  injection Ht as <-. exists (label_name k). split; [reflexivity|]. left. eauto.
Qed.

Lemma jump_ok_stack lo hi ls op a b l :
  In l (stack_labels ls) -> jump_ok lo hi ls (op, a, b, FStr l).
Proof.
  intros Hl t Ht. unfold jump_target in Ht. destruct (is_jump_op op); [|discriminate].
  injection Ht as <-. eauto.
Qed.

(** *** Sequencing *)

Lemma post_refl strict g : post strict g g [].
Proof.
  constructor; try reflexivity; try lia.
  - by rewrite app_nil_r.
  - intros k. simpl. case_bool_decide; [lia | reflexivity].
  - constructor.
Qed.

Lemma post_trans strict g g1 g2 q1 q2 :
  post strict g g1 q1 -> post strict g1 g2 q2 -> post strict g g2 (q1 ++ q2).
Proof.
  intros [Hq1 Ha1 Hs1 Hf1 Hl1 Ht1 Hd1 Hj1] [Hq2 Ha2 Hs2 Hf2 Hl2 Ht2 Hd2 Hj2].
  constructor; try congruence; try lia.
  - rewrite Hq2, Hq1. by rewrite app_assoc.
  - intros k. rewrite count_label_app, Hd1, Hd2.
    repeat case_bool_decide; lia.
  - intros Hs. specialize (Hj1 Hs). specialize (Hj2 Hs). apply Forall_app. split.
    + eapply Forall_impl; [exact Hj1|]. intros q. apply jump_ok_widen; lia.
    + rewrite Hs1 in Hj2. eapply Forall_impl; [exact Hj2|]. intros q. apply jump_ok_widen; lia.
Qed.

(** *** The primitive steps *)

Lemma new_label_Ok g l g' :
  new_label g = Ok (l, g') ->
  l = label_name (label_counter g)
  /\ g' = Generator (ast g) (quadruples g) (temp_counter g) (label_counter g + 1)
            (loop_stack g) (current_function g).
Proof. unfold new_label. intros H. injection H as <- <-. split; reflexivity. Qed.

Lemma new_temp_Ok g t g' :
  new_temp g = Ok (t, g') ->
  g' = Generator (ast g) (quadruples g) (temp_counter g + 1) (label_counter g)
            (loop_stack g) (current_function g).
Proof. unfold new_temp. intros H. injection H as <- <-. reflexivity. Qed.

Lemma append_Ok q g u g' :
  append q g = Ok (u, g') ->
  g' = Generator (ast g) (quadruples g ++ [q]) (temp_counter g) (label_counter g)
            (loop_stack g) (current_function g).
Proof. unfold append, modify. intros H. injection H as <- <-. reflexivity. Qed.

Lemma loop_stack_append_Ok c g u g' :
  loop_stack_append c g = Ok (u, g') ->
  g' = Generator (ast g) (quadruples g) (temp_counter g) (label_counter g)
            (c :: loop_stack g) (current_function g).
Proof. unfold loop_stack_append, modify. intros H. injection H as <- <-. reflexivity. Qed.

Lemma loop_stack_pop_Ok g u g' :
  loop_stack_pop g = Ok (u, g') ->
  exists c r, loop_stack g = c :: r
  /\ g' = Generator (ast g) (quadruples g) (temp_counter g) (label_counter g)
            r (current_function g).
Proof.
  unfold loop_stack_pop. destruct (loop_stack g) as [|c r] eqn:E; [discriminate|].
  intros H. injection H as <- <-. eauto.
Qed.

Lemma set_current_function_Ok f g u g' :
  set_current_function f g = Ok (u, g') ->
  g' = Generator (ast g) (quadruples g) (temp_counter g) (label_counter g)
            (loop_stack g) f.
Proof. unfold set_current_function, modify. intros H. injection H as <- <-. reflexivity. Qed.

Ltac gen_simpl :=
  cbn [ast quadruples temp_counter label_counter loop_stack current_function] in *.

(** Splits a successful run of a sequence into the runs of its steps. *)
Ltac gen_inv H :=
  lazymatch type of H with
  | bind _ _ _ = Ok _ =>
      let a := fresh "a" in
      let g := fresh "g" in
      let H1 := fresh "Hstep" in
      let H2 := fresh "Hrest" in
      apply bind_Ok in H; destruct H as (a & g & H1 & H2);
      gen_inv H1; gen_inv H2
  | ret _ _ = Ok _ => unfold ret in H; injection H as <- <-
  | get _ = Ok _ => unfold get in H; injection H as <- <-
  | raise _ _ = Ok _ => discriminate H
  | new_label _ = Ok _ => apply new_label_Ok in H; destruct H as [-> ->]; gen_simpl
  | new_temp _ = Ok _ => apply new_temp_Ok in H; subst; gen_simpl
  | append _ _ = Ok _ => apply append_Ok in H; subst; gen_simpl
  | loop_stack_append _ _ = Ok _ => apply loop_stack_append_Ok in H; subst; gen_simpl
  | set_current_function _ _ = Ok _ => apply set_current_function_Ok in H; subst; gen_simpl
  | loop_stack_pop _ = Ok _ =>
      let c := fresh "c" in let r := fresh "r" in let E := fresh "Estack" in
      apply loop_stack_pop_Ok in H; destruct H as (c & r & E & ->); gen_simpl
  | _ => idtac
  end.

(** Replaces the runs of sub-methods by what they guarantee. *)
Ltac use_ok :=
  repeat match goal with
  | Hok : gen_ok _ ?m, H : ?m ?g = Ok (_, ?g') |- _ =>
      let qs := fresh "qs" in
      destruct (Hok _ _ _ H) as [qs []]; clear H; destruct g'; gen_simpl; subst
  end;
  repeat match goal with
  | E : _ :: _ = _ :: _ |- _ => injection E as ? ?; subst
  end.

Ltac solve_defs :=
  let k := fresh "k" in
  intros k; cbn [count_label];
  repeat (rewrite count_label_app; cbn [count_label]);
  repeat first
    [ rewrite is_label_quad_label
    | rewrite is_label_quad_result
    | rewrite is_label_quad_arg1
    | rewrite is_label_quad_not_L by reflexivity
    | rewrite is_label_quad_entry by auto ];
  repeat match goal with
  | H : forall k, count_label (label_name k) ?qs = _ |- context [count_label (label_name _) ?qs] =>
      rewrite H
  end;
  repeat case_bool_decide; lia.

Ltac solve_jump :=
  first
    [ apply jump_ok_nonjump; first [ reflexivity | apply is_jump_op_colon | auto; fail ]
    | apply jump_ok_label; lia
    | apply jump_ok_stack;
      match goal with E : loop_stack _ = _ :: _ |- _ => rewrite E end;
      simpl; tauto ].

Ltac solve_jumps :=
  let Hs := fresh "Hstrict" in
  intros Hs;
  repeat match goal with
  | H : ?s = true -> _, Hs : ?s = true |- _ => specialize (H Hs)
  end;
  repeat match goal with
  | |- Forall _ [] => constructor
  | |- Forall _ (_ :: _) => constructor; [ solve_jump | ]
  | |- Forall _ (_ ++ _) => apply Forall_app; split
  | H : Forall (jump_ok _ _ _) ?qs |- Forall (jump_ok _ _ _) ?qs =>
      eapply Forall_impl; [ exact H | ];
      let q := fresh "q" in
      intros q;
      first [ apply jump_ok_widen; lia | apply jump_ok_loop; lia ]
  end.

Ltac solve_post :=
  eexists; constructor; gen_simpl;
  [ rewrite <- ?app_assoc; reflexivity
  | congruence
  | congruence
  | congruence
  | lia
  | lia
  | solve_defs
  | solve_jumps ].

Lemma ret_ok strict {T} (x : T) : gen_ok strict (ret x).
Proof. intros g a g' H. gen_inv H. exists []. apply post_refl. Qed.

Lemma for_each_ok strict {T} (f : T -> G unit) l :
  Forall (fun x => gen_ok strict (f x)) l -> gen_ok strict (for_each f l).
Proof.
  induction 1 as [|x l Hx Hl IH]; intros g u g' Hrun; simpl in Hrun.
  - gen_inv Hrun. exists []. apply post_refl.
  - gen_inv Hrun.
    destruct (Hx _ _ _ Hstep) as [q1 H1]. destruct (IH _ _ _ Hrest) as [q2 H2].
    exists (q1 ++ q2). eapply post_trans; eassumption.
Qed.

Lemma for_enumerate_ok strict {T} (f : N -> T -> G unit) l :
  Forall (fun x => forall i, gen_ok strict (f i x)) l ->
  forall i, gen_ok strict (for_enumerate f i l).
Proof.
  induction 1 as [|x l Hx Hl IH]; intros i g u g' Hrun; simpl in Hrun.
  - gen_inv Hrun. exists []. apply post_refl.
  - gen_inv Hrun.
    destruct (Hx _ _ _ _ Hstep) as [q1 H1]. destruct (IH _ _ _ _ Hrest) as [q2 H2].
    exists (q1 ++ q2). eapply post_trans; eassumption.
Qed.

(** *** The methods, one by one *)

Lemma _process_break_stmt_ok strict stmt : gen_ok strict (_process_break_stmt stmt).
Proof.
  intros g u g' Hrun. unfold _process_break_stmt, bind, get in Hrun.
  destruct (loop_stack g) as [|loop_info r] eqn:E; [discriminate|].
  gen_inv Hrun. solve_post.
Qed.

Lemma _process_continue_stmt_ok strict stmt : gen_ok strict (_process_continue_stmt stmt).
Proof.
  intros g u g' Hrun. unfold _process_continue_stmt, bind, get in Hrun.
  destruct (loop_stack g) as [|loop_info r] eqn:E; [discriminate|].
  gen_inv Hrun. solve_post.
Qed.

Lemma _process_literal_ok strict n : gen_ok strict (_process_literal n).
Proof.
  destruct n; try apply ret_ok.
  unfold _process_literal. destruct (str value); [apply ret_ok|].
  intros g a g' H. discriminate H.
Qed.

Lemma _process_parameter_ok strict p : gen_ok strict (_process_parameter p).
Proof. intros g u g' Hrun. unfold _process_parameter in Hrun. gen_inv Hrun. solve_post. Qed.

Section HandlerFacts.

Variable strict : bool.
Variable pe : node -> G (option string).
Variable pb : node -> G unit.

Ltac handler h :=
  let g := fresh "g" in
  let u := fresh "u" in
  let g' := fresh "g'" in
  let Hrun := fresh "Hrun" in
  intros g u g' Hrun; unfold h in Hrun; gen_inv Hrun; use_ok; solve_post.

Lemma _process_variable_decl_ok m n t i :
  (forall e, i = Some e -> gen_ok strict (pe e)) ->
  gen_ok strict (_process_variable_decl pe (VarDecl m n t i)).
Proof.
  intros Hi. destruct i as [e|]; [specialize (Hi e eq_refl)|];
    handler _process_variable_decl.
Qed.

Lemma _process_if_stmt_ok c t e :
  gen_ok strict (pe c) -> gen_ok strict (pb t) ->
  (forall x, e = Some x -> gen_ok strict (pb x)) ->
  gen_ok strict (_process_if_stmt pe pb (IfStmt c t e)).
Proof.
  intros Hc Ht He. destruct e as [x|]; [specialize (He x eq_refl)|];
    handler _process_if_stmt.
Qed.

Lemma _process_while_stmt_ok c b :
  gen_ok strict (pe c) -> gen_ok strict (pb b) ->
  gen_ok strict (_process_while_stmt pe pb (WhileStmt c b)).
Proof. intros Hc Hb. handler _process_while_stmt. Qed.

Lemma _process_for_stmt_ok m v t s e b :
  gen_ok strict (pe s) -> gen_ok strict (pe e) -> gen_ok strict (pb b) ->
  gen_ok strict (_process_for_stmt pe pb (ForStmt m v t s e b)).
Proof. intros Hs He Hb. handler _process_for_stmt. Qed.

Lemma _process_loop_stmt_ok b :
  gen_ok strict (pb b) -> gen_ok strict (_process_loop_stmt pb (LoopStmt b)).
Proof. intros Hb. handler _process_loop_stmt. Qed.

Lemma _process_return_stmt_ok o :
  (forall e, o = Some e -> gen_ok strict (pe e)) ->
  gen_ok strict (_process_return_stmt pe (ReturnStmt o)).
Proof.
  intros Ho. destruct o as [e|]; [specialize (Ho e eq_refl)|];
    handler _process_return_stmt.
Qed.

Lemma _process_assignment_ok target value :
  gen_ok strict (pe value) ->
  (match target with
   | IndexExpr t i => gen_ok strict (pe t) /\ gen_ok strict (pe i)
   | TupleAccess t _ => gen_ok strict (pe t)
   | DerefExpr o => gen_ok strict (pe o)
   | _ => True
   end) ->
  gen_ok strict (_process_assignment pe (Assignment target value)).
Proof.
  intros Hv Ht g u g' Hrun. unfold _process_assignment in Hrun.
  destruct target; simpl in Hrun;
    lazymatch type of Ht with
    | _ /\ _ => destruct Ht as [Ht Hi]
    | _ => idtac
    end;
    gen_inv Hrun; use_ok; solve_post.
Qed.

Lemma _process_binary_expr_ok op l r :
  (strict = true -> is_jump_op op = false) ->
  gen_ok strict (pe l) -> gen_ok strict (pe r) ->
  gen_ok strict (_process_binary_expr pe (BinaryExpression op l r)).
Proof. intros Hop Hl Hr. handler _process_binary_expr. Qed.

Lemma _process_unary_expr_ok op a :
  (strict = true -> is_jump_op op = false) ->
  gen_ok strict (pe a) ->
  gen_ok strict (_process_unary_expr pe (UnaryExpr op a)).
Proof. intros Hop Ha. handler _process_unary_expr. Qed.

Lemma _process_call_expr_ok callee args :
  Forall (fun a => gen_ok strict (pe a)) args ->
  gen_ok strict (_process_call_expr pe (CallExpression callee args)).
Proof.
  intros Hargs.
  assert (Hloop : gen_ok strict (for_each (fun arg =>
            arg_value <- pe arg ;; append ("param", field_of_value arg_value, FNone, FNone)) args)).
  { apply for_each_ok. eapply Forall_impl; [exact Hargs|]. intros x Hx.
    intros g u g' Hrun. gen_inv Hrun. use_ok. solve_post. }
  handler _process_call_expr.
Qed.

Lemma _process_if_expr_ok c t e :
  gen_ok strict (pe c) -> gen_ok strict (pe t) -> gen_ok strict (pe e) ->
  gen_ok strict (_process_if_expr pe (IfExpr c t e)).
Proof. intros Hc Ht He. handler _process_if_expr. Qed.

Lemma _process_loop_expr_ok b :
  gen_ok strict (pe b) -> gen_ok strict (_process_loop_expr pe (LoopExpr b)).
Proof. intros Hb. handler _process_loop_expr. Qed.

Lemma _process_deref_expr_ok o :
  gen_ok strict (pe o) -> gen_ok strict (_process_deref_expr pe (DerefExpr o)).
Proof. intros Ho. handler _process_deref_expr. Qed.

Lemma _process_ref_expr_ok m o :
  gen_ok strict (pe o) -> gen_ok strict (_process_ref_expr pe (RefExpr m o)).
Proof. intros Ho. handler _process_ref_expr. Qed.

Lemma _process_index_expr_ok t i :
  gen_ok strict (pe t) -> gen_ok strict (pe i) ->
  gen_ok strict (_process_index_expr pe (IndexExpr t i)).
Proof. intros Ht Hi. handler _process_index_expr. Qed.

Lemma _process_tuple_access_ok t i :
  gen_ok strict (pe t) -> gen_ok strict (_process_tuple_access pe (TupleAccess t i)).
Proof. intros Ht. handler _process_tuple_access. Qed.

Lemma _process_array_literal_ok elements :
  Forall (fun a => gen_ok strict (pe a)) elements ->
  gen_ok strict (_process_array_literal pe (ArrayLiteral elements)).
Proof.
  intros Hel g u g' Hrun. unfold _process_array_literal in Hrun. gen_inv Hrun.
  match type of Hstep with for_enumerate ?f _ _ _ = _ =>
    assert (Hloop : forall i, gen_ok strict (for_enumerate f i elements)) end.
  { apply for_enumerate_ok. eapply Forall_impl; [exact Hel|]. intros elt Helt i.
    intros h v h' Hrun. gen_inv Hrun. use_ok. solve_post. }
  specialize (Hloop 0). use_ok. solve_post.
Qed.

Lemma _process_tuple_literal_ok elements :
  Forall (fun a => gen_ok strict (pe a)) elements ->
  gen_ok strict (_process_tuple_literal pe (TupleLiteral elements)).
Proof.
  intros Hel g u g' Hrun. unfold _process_tuple_literal in Hrun. gen_inv Hrun.
  match type of Hstep with for_enumerate ?f _ _ _ = _ =>
    assert (Hloop : forall i, gen_ok strict (for_enumerate f i elements)) end.
  { apply for_enumerate_ok. eapply Forall_impl; [exact Hel|]. intros elt Helt i.
    intros h v h' Hrun. gen_inv Hrun. use_ok. solve_post. }
  specialize (Hloop 0). use_ok. solve_post.
Qed.

End HandlerFacts.

(** *** All methods at all nodes *)

Lemma list_all_ok strict l :
  list_all node (fun n => (strict = true -> ops_ok n = true)
                          -> gen_ok_all strict n /\ target_ok strict n) l ->
  (strict = true -> forallb ops_ok l = true) -> Forall (gen_ok_all strict) l.
Proof.
  induction 1 as [|x Hx l Hl IH]; simpl; intros H; constructor.
  - apply Hx. intros Hs. specialize (H Hs). apply andb_true_iff in H. tauto.
  - apply IH. intros Hs. specialize (H Hs). apply andb_true_iff in H. tauto.
Qed.

Lemma option_all_ok strict o :
  option_all node (fun n => (strict = true -> ops_ok n = true)
                            -> gen_ok_all strict n /\ target_ok strict n) o ->
  (strict = true -> match o with Some e => ops_ok e | None => true end = true) ->
  forall x, o = Some x -> gen_ok_all strict x.
Proof.
  intros H. destruct H as [y Hy|]; intros Hops x Hx;
    [injection Hx as <-; apply Hy, Hops | discriminate].
Qed.

Ltac dispatch :=
  rewrite ?_process_expr_eq, ?_process_block_eq, ?_process_elements_eq, ?_process_statement_eq;
  cbn [_process_expr_body _process_block_body _process_elements_body _process_statement_body
       tag_is node_type String.eqb Ascii.eqb Bool.eqb];
  rewrite ?_process_block_eq;
  cbn [_process_block_body tag_is node_type String.eqb Ascii.eqb Bool.eqb].

(** What the hypothesis on the operators of a node says about a part. *)
Ltac ops_part Hops :=
  let Hs := fresh "Hs" in
  intros Hs; specialize (Hops Hs); simpl in Hops;
  repeat match goal with
  | H : _ && _ = true |- _ => apply andb_true_iff in H; destruct H
  | H : negb _ = true |- _ => apply negb_true_iff in H
  end;
  assumption.

(** The induction hypotheses of the parts of a node, in usable form. *)
Ltac use_parts Hops :=
  repeat match goal with
  | IH : (?s = true -> ops_ok ?c = true) -> _ |- _ =>
      let H := fresh "Hc" in
      assert (H : s = true -> ops_ok c = true) by ops_part Hops;
      destruct (IH H) as [[? [? [? ?]]] ?]; clear IH H
  | IH : list_all _ _ ?l |- _ =>
      let H := fresh "Hc" in
      assert (H : _ = true -> forallb ops_ok l = true) by ops_part Hops;
      pose proof (list_all_ok _ l IH H); clear IH H
  | IH : option_all _ _ ?o |- _ =>
      let H := fresh "Hc" in
      assert (H : _ = true -> match o with Some e => ops_ok e | None => true end = true)
        by ops_part Hops;
      pose proof (option_all_ok _ o IH H); clear IH H
  end.

Theorem process_ok strict n :
  (strict = true -> ops_ok n = true) -> gen_ok_all strict n /\ target_ok strict n.
Proof.
  induction n; intros Hops; use_parts Hops.
  all: split; [repeat split|]; dispatch.
  all: try (apply ret_ok).
  all: try (simpl; auto; fail).
  all: try (intros g u g' Hrun; gen_inv Hrun; use_ok; solve_post; fail).
  all: try (apply for_each_ok; eapply Forall_impl; [eassumption|];
            intros ? (? & ? & ? & ?); assumption).
  all: first
    [ apply _process_assignment_ok; assumption
    | apply _process_literal_ok
    | apply _process_if_stmt_ok; try assumption; intros x Hx;
      match goal with H : forall x, _ = Some x -> gen_ok_all _ x |- _ => apply (H x Hx) end
    | apply _process_variable_decl_ok; intros x Hx;
      match goal with H : forall x, _ = Some x -> gen_ok_all _ x |- _ => apply (H x Hx) end
    | apply _process_return_stmt_ok; intros x Hx;
      match goal with H : forall x, _ = Some x -> gen_ok_all _ x |- _ => apply (H x Hx) end
    | apply _process_while_stmt_ok; assumption
    | apply _process_for_stmt_ok; assumption
    | apply _process_loop_stmt_ok; assumption
    | apply _process_break_stmt_ok
    | apply _process_continue_stmt_ok
    | apply _process_binary_expr_ok; [ops_part Hops | assumption | assumption]
    | apply _process_unary_expr_ok; [ops_part Hops | assumption]
    | apply _process_if_expr_ok; assumption
    | apply _process_loop_expr_ok; assumption
    | apply _process_ref_expr_ok; assumption
    | apply _process_deref_expr_ok; assumption
    | apply _process_index_expr_ok; assumption
    | apply _process_tuple_access_ok; assumption
    | (apply _process_call_expr_ok || apply _process_array_literal_ok
       || apply _process_tuple_literal_ok);
      eapply Forall_impl; [eassumption|]; intros ? (? & ? & ? & ?); assumption ].
Qed.

End QuadFacts.

(** ** The sample programs are what the parser builds *)

Module ProgramsFacts.
Import Programs Parser.

Lemma parse_h : parse_source budget src_h = Some (Ok ast_h).
Proof. vm_compute. reflexivity. Qed.

Lemma parse_two : parse_source budget src_two = Some (Ok ast_two).
Proof. vm_compute. reflexivity. Qed.

Lemma parse_let : parse_source budget src_let = Some (Ok ast_let).
Proof. vm_compute. reflexivity. Qed.

Lemma parse_index_immutable :
  parse_source budget src_index_immutable = Some (Ok ast_index_immutable).
Proof. vm_compute. reflexivity. Qed.

Lemma parse_index_bounds : parse_source budget src_index_bounds = Some (Ok ast_index_bounds).
Proof. vm_compute. reflexivity. Qed.

Lemma parse_tuple_init : parse_source budget src_tuple_init = Some (Ok ast_tuple_init).
Proof. vm_compute. reflexivity. Qed.

Lemma parse_tuple_access : parse_source budget src_tuple_access = Some (Ok ast_tuple_access).
Proof. vm_compute. reflexivity. Qed.

Lemma parse_break_block : parse_source budget src_break_block = Some (Ok ast_break_block).
Proof. vm_compute. reflexivity. Qed.

Lemma parse_continue_nested :
  parse_source budget src_continue_nested = Some (Ok ast_continue_nested).
Proof. vm_compute. reflexivity. Qed.

Lemma parse_break_top : parse_source budget src_break_top = Some (Ok ast_break_top).
Proof. vm_compute. reflexivity. Qed.

Lemma parse_L0 : parse_source budget src_L0 = Some (Ok ast_L0).
Proof. vm_compute. reflexivity. Qed.

Lemma parse_loops : parse_source budget src_loops = Some (Ok ast_loops).
Proof. vm_compute. reflexivity. Qed.

Lemma parse_borrow_conflict :
  parse_source budget src_borrow_conflict = Some (Ok ast_borrow_conflict).
Proof. vm_compute. reflexivity. Qed.

Lemma parse_borrow_shared : parse_source budget src_borrow_shared = Some (Ok ast_borrow_shared).
Proof. vm_compute. reflexivity. Qed.

Lemma parse_borrow_uninit : parse_source budget src_borrow_uninit = Some (Ok ast_borrow_uninit).
Proof. vm_compute. reflexivity. Qed.

End ProgramsFacts.

(** ** Quadruple generator: functions and programs *)

Module QuadProgram.
Import QuadGen QuadSpec QuadFacts Programs.

Ltac gen_simpl :=
  cbn [ast quadruples temp_counter label_counter loop_stack current_function] in *.

(** Every node satisfies the frame conditions, whatever its operators. *)
Lemma process_frame n : gen_ok_all false n.
Proof. apply (process_ok false n). discriminate. Qed.

Lemma _process_function_ok strict fname params rt body :
  (strict = true -> ops_ok body = true) ->
  (forall k, fname <> label_name k) ->
  forall g u g',
    _process_function (FunctionDecl fname params rt body) g = Ok (u, g') ->
    exists rest,
      quadruples g' = quadruples g ++ entry_quad fname :: rest
      /\ QuadGen.ast g' = QuadGen.ast g
      /\ loop_stack g' = loop_stack g
      /\ label_counter g <= label_counter g'
      /\ (forall k, count_label (label_name k) (entry_quad fname :: rest)
                    = if bool_decide (label_counter g <= k < label_counter g')
                      then 1%nat else 0%nat)
      /\ (strict = true ->
          Forall (jump_ok (label_counter g) (label_counter g') (loop_stack g))
                 (entry_quad fname :: rest)).
Proof.
  intros Hops Hname g u g' Hrun. unfold _process_function in Hrun.
  assert (Hparams : gen_ok strict (for_each _process_parameter params)).
  { apply for_each_ok, Forall_forall. intros p _. apply _process_parameter_ok. }
  assert (Hbody : gen_ok strict (_process_block body)).
  { apply (process_ok strict body Hops). }
  apply bind_Ok in Hrun. destruct Hrun as (a0 & g0 & H0 & Hrun).
  apply set_current_function_Ok in H0. subst g0.
  apply bind_Ok in Hrun. destruct Hrun as (a1 & g1 & H1 & Hrun).
  apply append_Ok in H1. subst g1. gen_simpl.
  apply bind_Ok in Hrun. destruct Hrun as (a2 & g2 & H2 & Hrun).
  destruct (Hparams _ _ _ H2) as [qp [Pq Pa Ps Pf Pl Pt Pd Pj]]. gen_simpl.
  apply bind_Ok in Hrun. destruct Hrun as (a3 & g3 & H3 & Hrun).
  destruct (Hbody _ _ _ H3) as [qb [Bq Ba Bs Bf Bl Bt Bd Bj]].
  apply bind_Ok in Hrun. destruct Hrun as (a4 & g4 & H4 & Hrun).
  unfold get in H4. injection H4 as <- <-.
  apply bind_Ok in Hrun. destruct Hrun as (a5 & g5 & H5 & Hrun).
  apply set_current_function_Ok in Hrun. subst g'. gen_simpl.
  assert (Hentry : forall k, is_label_quad (label_name k) (entry_quad fname) = false).
  { intros k. apply is_label_quad_entry, Hname. }
  assert (Hjentry : forall lo hi ls, jump_ok lo hi ls (entry_quad fname)).
  { intros lo hi ls. apply jump_ok_nonjump, is_jump_op_colon. }
  destruct (negb _) in H5.
  - apply append_Ok in H5. subst g5. gen_simpl.
    exists (qp ++ qb ++ [("return", FNone, FNone, FNone)]).
    repeat split; try congruence; try lia.
    + rewrite Bq, Pq. rewrite <- !app_assoc. reflexivity.
    + intros k. cbn [count_label]. rewrite Hentry, !count_label_app, Pd, Bd.
      cbn [count_label]. rewrite is_label_quad_not_L by reflexivity.
      repeat case_bool_decide; lia.
    + intros Hs. specialize (Pj Hs). specialize (Bj Hs). rewrite Ps in Bj. gen_simpl.
      constructor; [apply Hjentry|]. apply Forall_app. split; [|apply Forall_app; split].
      * eapply Forall_impl; [exact Pj|]. intros q. apply jump_ok_widen; lia.
      * eapply Forall_impl; [exact Bj|]. intros q. apply jump_ok_widen; lia.
      * constructor; [|constructor]. apply jump_ok_nonjump. reflexivity.
  - unfold ret in H5. injection H5 as <- <-.
    exists (qp ++ qb).
    repeat split; try congruence; try lia.
    + rewrite Bq, Pq. rewrite <- !app_assoc. reflexivity.
    + intros k. cbn [count_label]. rewrite Hentry, !count_label_app, Pd, Bd.
      repeat case_bool_decide; lia.
    + intros Hs. specialize (Pj Hs). specialize (Bj Hs). rewrite Ps in Bj. gen_simpl.
      constructor; [apply Hjentry|]. apply Forall_app. split.
      * eapply Forall_impl; [exact Pj|]. intros q. apply jump_ok_widen; lia.
      * eapply Forall_impl; [exact Bj|]. intros q. apply jump_ok_widen; lia.
Qed.

(** [_process_declaration] keeps the [ast] attribute, whatever the node. *)
Lemma _process_declaration_ast decl g u g' :
  _process_declaration decl g = Ok (u, g') -> QuadGen.ast g' = QuadGen.ast g.
Proof.
  unfold _process_declaration. intros Hrun.
  destruct (tag_is decl "FunctionDecl") eqn:E1; [|destruct (tag_is decl "VarDecl") eqn:E2].
  - destruct decl; try discriminate E1. unfold _process_function in Hrun.
    assert (Hparams : gen_ok false (for_each _process_parameter params)).
    { apply for_each_ok, Forall_forall. intros p _. apply _process_parameter_ok. }
    pose proof (proj1 (proj2 (process_frame decl))) as Hbody.
    apply bind_Ok in Hrun. destruct Hrun as (a0 & g0 & H0 & Hrun).
    apply set_current_function_Ok in H0. subst g0.
    apply bind_Ok in Hrun. destruct Hrun as (a1 & g1 & H1 & Hrun).
    apply append_Ok in H1. subst g1. gen_simpl.
    apply bind_Ok in Hrun. destruct Hrun as (a2 & g2 & H2 & Hrun).
    destruct (Hparams _ _ _ H2) as [qp [Pq Pa _ _ _ _ _ _]]. gen_simpl.
    apply bind_Ok in Hrun. destruct Hrun as (a3 & g3 & H3 & Hrun).
    destruct (Hbody _ _ _ H3) as [qb [Bq Ba _ _ _ _ _ _]].
    apply bind_Ok in Hrun. destruct Hrun as (a4 & g4 & H4 & Hrun).
    unfold get in H4. injection H4 as <- <-.
    apply bind_Ok in Hrun. destruct Hrun as (a5 & g5 & H5 & Hrun).
    apply set_current_function_Ok in Hrun. subst g'. gen_simpl.
    destruct (negb _) in H5.
    + apply append_Ok in H5. subst g5. gen_simpl. congruence.
    + unfold ret in H5. injection H5 as <- <-. congruence.
  - destruct decl; try discriminate E2.
    assert (Hd : gen_ok false (_process_variable_decl _process_expr (VarDecl mut name var_type init))).
    { apply _process_variable_decl_ok. intros e ->.
      pose proof (process_frame (VarDecl mut name var_type (Some e))) as _.
      apply (process_frame e). }
    destruct (Hd _ _ _ Hrun) as [qs [_ Ha _ _ _ _ _ _]]. exact Ha.
  - unfold ret in Hrun. injection Hrun as <- <-. reflexivity.
Qed.

Lemma _process_program_ast n g u g' :
  _process_program n g = Ok (u, g') -> QuadGen.ast g' = QuadGen.ast g.
Proof.
  unfold _process_program. destruct (tag_is n "Program").
  - destruct n; try (unfold ret; intros H; injection H as <- <-; reflexivity).
    revert g. induction declarations as [|d l IH]; intros g Hrun; simpl in Hrun.
    + unfold ret in Hrun. injection Hrun as <- <-. reflexivity.
    + apply bind_Ok in Hrun. destruct Hrun as (a & g1 & H1 & Hrun).
      rewrite (IH _ Hrun). eapply _process_declaration_ast, H1.
  - unfold ret. intros H. injection H as <- <-. reflexivity.
Qed.

(** The quads of a program, function by function. *)
Lemma declarations_segments decls :
  Forall function_ok decls ->
  forall g u g',
    for_each _process_declaration decls g = Ok (u, g') ->
    loop_stack g = [] ->
    exists segs,
      Forall2 function_segment decls segs
      /\ quadruples g' = quadruples g ++ concat segs
      /\ loop_stack g' = []
      /\ label_counter g <= label_counter g'
      /\ (forall k, count_label (label_name k) (concat segs)
                    = if bool_decide (label_counter g <= k < label_counter g')
                      then 1%nat else 0%nat)
      /\ Forall (fun seg => exists lo hi,
                   label_counter g <= lo /\ hi <= label_counter g'
                   /\ (forall k, count_label (label_name k) seg
                                 = if bool_decide (lo <= k < hi) then 1%nat else 0%nat)
                   /\ Forall (jump_ok lo hi []) seg) segs.
Proof.
  induction 1 as [|d l Hd Hl IH]; intros g u g' Hrun Hstack; simpl in Hrun.
  - unfold ret in Hrun. injection Hrun as <- <-. exists [].
    repeat split; try constructor; try lia; simpl.
    + by rewrite app_nil_r.
    + assumption.
    + intros k. case_bool_decide; [lia | reflexivity].
  - apply bind_Ok in Hrun. destruct Hrun as (a & g1 & H1 & Hrun).
    destruct d; try contradiction. destruct Hd as [Hops Hname].
    change (_process_declaration (FunctionDecl name params return_type d))
      with (_process_function (FunctionDecl name params return_type d)) in H1.
    destruct (_process_function_ok true name params return_type d (fun _ => Hops) Hname _ _ _ H1)
      as (rest & Fq & Fa & Fs & Fl & Fd & Fj).
    specialize (Fj eq_refl). rewrite Hstack in Fj.
    assert (Hstack1 : loop_stack g1 = []) by congruence.
    destruct (IH _ _ _ Hrun Hstack1) as (segs & S2 & Sq & Ss & Sl & Sd & Sj).
    exists ((entry_quad name :: rest) :: segs).
    split; [|split; [|split; [|split; [|split]]]].
    + constructor; [|exact S2]. simpl. eauto.
    + rewrite Sq, Fq. simpl. rewrite <- app_assoc. reflexivity.
    + exact Ss.
    + lia.
    + intros k. change (concat ((entry_quad name :: rest) :: segs))
        with ((entry_quad name :: rest) ++ concat segs).
      rewrite count_label_app, Fd, Sd. repeat case_bool_decide; lia.
    + constructor.
      * exists (label_counter g), (label_counter g1). repeat split; try lia; assumption.
      * eapply Forall_impl; [exact Sj|]. intros seg (lo & hi & ? & ? & ? & ?).
        exists lo, hi. repeat split; try lia; assumption.
Qed.

End QuadProgram.

(** ** Quadruple generator: the properties of the specification *)

Module QuadClaims.
Import QuadGen QuadSpec QuadFacts QuadProgram Programs.

Ltac gen_simpl :=
  cbn [ast quadruples temp_counter label_counter loop_stack current_function] in *.

(** C1 (return insertion).  The claim: every function's portion of the
    quad list contains a [return] quad, a default one being appended when
    the body emitted none, also for the second and later functions.  The
    code tests the whole quad list, not the function's portion: for
    [fn f() { return; } fn g() { }] the portion of [g] is its entry quad
    alone. *)
Theorem return_missing_in_second_function :
  Parser.parse_source budget src_two = Some (Ok ast_two)
  /\ generate_quadruples ast_two
     = Ok [("f:", FNone, FNone, FNone);
           ("return", FNone, FNone, FNone);
           ("g:", FNone, FNone, FNone)].
Proof. split; vm_compute; reflexivity. Qed.

(** C4 (variable declarations).  The claim: a [VarDecl] among the elements
    of a function body emits a [declare] quad and, with an initializer, a
    copy quad.  [_process_elements] tests the tag ['VariableDecl'], which
    no node carries, and [_process_statement] has no arm for declarations:
    both leave the generator unchanged on every [VarDecl], and
    [fn f() { let mut a: i32 = 1; }] yields the entry quad and the default
    return only. *)
Theorem var_decl_emits_nothing :
  (forall m n t i g, _process_elements (VarDecl m n t i) g = Ok (tt, g))
  /\ (forall m n t i g, _process_statement (VarDecl m n t i) g = Ok (tt, g))
  /\ Parser.parse_source budget src_let = Some (Ok ast_let)
  /\ generate_quadruples ast_let
     = Ok [("f:", FNone, FNone, FNone); ("return", FNone, FNone, FNone)].
Proof.
  split; [|split; [|split]].
  - reflexivity.
  - reflexivity.
  - vm_compute. reflexivity.
  - vm_compute. reflexivity.
Qed.

(** C6, as stated, fails: in the quads of [fn L0() { if 1 { } }] the jump
    [ifz 1 -> L0] targets a label that has two label quads, the entry quad
    of the function and the else label. *)
Lemma labels_not_unique_for_function_L0 :
  Parser.parse_source budget src_L0 = Some (Ok ast_L0)
  /\ exists qs, generate_quadruples ast_L0 = Ok qs /\ ~ labels_unique qs.
Proof.
  split; [vm_compute; reflexivity|].
  eexists. split; [vm_compute; reflexivity|].
  intros H.
  destruct (H ("ifz", FStr "1", FNone, FStr "L0") (FStr "L0")) as (l & Hl & Hcount).
  - simpl. tauto.
  - reflexivity.
  - injection Hl as <-. vm_compute in Hcount. discriminate Hcount.
Qed.

(** C6, amended (label well-formedness).  For every program whose
    declarations are functions, none named like a label ([L] followed by a
    number) and none with an operator spelled [goto] or [ifz]: the quad
    list splits into one segment per function, each starting with the
    entry quad of its function, and every jump target of a segment is a
    label that has exactly one label quad in the whole list, which lies
    in that same segment. *)
Theorem labels_well_formed (decls : list node) (qs : list quad) :
  Forall function_ok decls ->
  generate_quadruples (Program decls) = Ok qs ->
  exists segs,
    qs = concat segs
    /\ Forall2 function_segment decls segs
    /\ forall seg q t,
         In seg segs -> In q seg -> jump_target q = Some t ->
         exists l, t = FStr l
                   /\ count_label l seg = 1%nat
                   /\ count_label l qs = 1%nat.
Proof.
  intros Hok Hgen. unfold generate_quadruples, generate in Hgen.
  destruct (bind _ _ _) as [[qs' g']|e] eqn:Hrun in Hgen; [|discriminate].
  injection Hgen as ->.
  apply bind_Ok in Hrun. destruct Hrun as (a0 & g0 & H0 & Hrun).
  unfold _reset, modify in H0. injection H0 as <- <-.
  apply bind_Ok in Hrun. destruct Hrun as (a1 & g1 & H1 & Hrun).
  unfold get in H1. injection H1 as <- <-. gen_simpl.
  apply bind_Ok in Hrun. destruct Hrun as (a2 & g2 & H2 & Hrun).
  apply bind_Ok in Hrun. destruct Hrun as (a3 & g3 & H3 & Hrun).
  unfold get in H3. injection H3 as <- <-.
  unfold ret in Hrun. injection Hrun as <- <-.
  change (_process_program (Program decls)) with (for_each _process_declaration decls) in H2.
  destruct (declarations_segments decls Hok _ _ _ H2 eq_refl)
    as (segs & S2 & Sq & Ss & Sl & Sd & Sj).
  gen_simpl. exists segs. split; [exact Sq|]. split; [exact S2|].
  intros seg q t Hseg Hq Ht.
  destruct (proj1 (List.Forall_forall _ _) Sj seg Hseg) as (lo & hi & Hlo & Hhi & Hd & Hj).
  destruct (proj1 (List.Forall_forall _ _) Hj q Hq t Ht) as (l & -> & [(k & -> & Hk)|[]]).
  exists (label_name k). split; [reflexivity|]. split.
  - rewrite Hd. case_bool_decide; [reflexivity | lia].
  - rewrite Sq. simpl. rewrite Sd. case_bool_decide; [reflexivity | lia].
Qed.

Lemma labels_well_formed_witness :
  exists segs,
    quads_loops = concat segs
    /\ Forall2 function_segment
         (match ast_loops with Program decls => decls | _ => [] end) segs
    /\ forall seg q t,
         In seg segs -> In q seg -> jump_target q = Some t ->
         exists l, t = FStr l
                   /\ count_label l seg = 1%nat
                   /\ count_label l quads_loops = 1%nat.
Proof.
  apply (labels_well_formed
           (match ast_loops with Program decls => decls | _ => [] end) quads_loops).
  - repeat constructor; try (intros k H; discriminate H).
  - vm_compute. reflexivity.
Defined.

(** C7 (while loops).  A [WhileStmt] appends, in this order: the start
    label quad; the quads of the condition; [ifz cond -> end]; the quads
    of the body; [goto start]; the end label quad; each of the two labels
    has exactly one label quad among them.  For
    [fn h(mut n: i32) { while n > 0 { n = n - 1; } }] the list is the one
    given: one start label [L0], one end label [L1], the conditional jump
    is an [ifz], and the decrement goes to the fresh temporary [t1], which
    is then copied into [n]. *)
Theorem while_stmt_layout (condition body : node) (g : generator) (u : unit) (g' : generator) :
  _process_while_stmt _process_expr _process_block (WhileStmt condition body) g = Ok (u, g') ->
  while_layout condition body g g'
  /\ Parser.parse_source budget src_h = Some (Ok ast_h)
  /\ generate_quadruples ast_h
     = Ok [("h:", FNone, FNone, FNone);
           ("param", FStr "n", FNone, FNone);
           ("L0:", FNone, FNone, FNone);
           (">", FStr "n", FStr "0", FStr "t0");
           ("ifz", FStr "t0", FNone, FStr "L1");
           ("-", FStr "n", FStr "1", FStr "t1");
           ("=", FStr "t1", FNone, FStr "n");
           ("goto", FNone, FNone, FStr "L0");
           ("L1:", FNone, FNone, FNone);
           ("return", FNone, FNone, FNone)].
Proof.
  intros Hrun. split; [|split; vm_compute; reflexivity].
  unfold while_layout. set (start := label_name (label_counter g)).
  set (end_ := label_name (label_counter g + 1)).
  unfold _process_while_stmt in Hrun.
  apply bind_Ok in Hrun. destruct Hrun as (l0 & h0 & H0 & Hrun).
  apply new_label_Ok in H0. destruct H0 as [-> ->].
  apply bind_Ok in Hrun. destruct Hrun as (l1 & h1 & H1 & Hrun).
  apply new_label_Ok in H1. destruct H1 as [-> ->]. gen_simpl.
  apply bind_Ok in Hrun. destruct Hrun as (u2 & h2 & H2 & Hrun).
  apply loop_stack_append_Ok in H2. subst h2. gen_simpl.
  apply bind_Ok in Hrun. destruct Hrun as (u3 & h3 & H3 & Hrun).
  apply append_Ok in H3. subst h3. gen_simpl.
  apply bind_Ok in Hrun. destruct Hrun as (cond & g2 & Hcond & Hrun).
  apply bind_Ok in Hrun. destruct Hrun as (u4 & h4 & H4 & Hrun).
  apply append_Ok in H4. subst h4.
  apply bind_Ok in Hrun. destruct Hrun as (u5 & g3 & Hbody & Hrun).
  apply bind_Ok in Hrun. destruct Hrun as (u6 & h6 & H6 & Hrun).
  apply append_Ok in H6. subst h6.
  apply bind_Ok in Hrun. destruct Hrun as (u7 & h7 & H7 & Hrun).
  apply append_Ok in H7. subst h7.
  apply loop_stack_pop_Ok in Hrun. destruct Hrun as (c & r & Estack & ->). gen_simpl.
  destruct (proj1 (process_frame condition) _ _ _ Hcond) as [qc [Cq _ _ _ Cl _ Cd _]].
  destruct (proj1 (proj2 (process_frame body)) _ _ _ Hbody) as [qb [Bq _ _ _ Bl _ Bd _]].
  gen_simpl. destruct u5.
  exists cond, g2, qc, g3, qb. unfold appended. gen_simpl.
  split; [exact Hcond|]. split; [exact Cq|]. split; [exact Hbody|]. split; [exact Bq|].
  split; [|split].
  - rewrite Bq, Cq. rewrite <- !app_assoc. reflexivity.
  - cbn [count_label app]. repeat (rewrite count_label_app; cbn [count_label]).
    unfold start, end_. rewrite !is_label_quad_label, !is_label_quad_result, Cd, Bd.
    repeat case_bool_decide; lia.
  - cbn [count_label app]. repeat (rewrite count_label_app; cbn [count_label]).
    unfold start, end_. rewrite !is_label_quad_label, !is_label_quad_result, Cd, Bd.
    repeat case_bool_decide; lia.
Qed.

Lemma while_stmt_layout_witness :
  while_layout (BinaryExpression ">" (Identifier "n") (Literal 0))
    (Block [Assignment (Identifier "n") (BinaryExpression "-" (Identifier "n") (Literal 1))])
    (__init__ ast_h) after_while_h
  /\ Parser.parse_source budget src_h = Some (Ok ast_h)
  /\ generate_quadruples ast_h
     = Ok [("h:", FNone, FNone, FNone);
           ("param", FStr "n", FNone, FNone);
           ("L0:", FNone, FNone, FNone);
           (">", FStr "n", FStr "0", FStr "t0");
           ("ifz", FStr "t0", FNone, FStr "L1");
           ("-", FStr "n", FStr "1", FStr "t1");
           ("=", FStr "t1", FNone, FStr "n");
           ("goto", FNone, FNone, FStr "L0");
           ("L1:", FNone, FNone, FNone);
           ("return", FNone, FNone, FNone)].
Proof.
  apply (while_stmt_layout _ _ (__init__ ast_h) tt after_while_h).
  vm_compute. reflexivity.
Defined.

(** C10 (repeated generation).  A second call of [generate] on the same
    generator object returns the quad list of the first call and leaves
    the object in the same state; more generally the outcome of [generate]
    depends on the [ast] attribute alone. *)
Theorem generate_twice (g : generator) (qs : list quad) (g' : generator) :
  generate g = Ok (qs, g') ->
  generate g' = Ok (qs, g')
  /\ forall h, QuadGen.ast h = QuadGen.ast g -> generate h = generate g.
Proof.
  assert (Hast : forall h1 h2, QuadGen.ast h1 = QuadGen.ast h2 -> generate h1 = generate h2).
  { intros h1 h2 E. unfold generate, bind, _reset, modify, get. rewrite E. reflexivity. }
  intros Hgen. split; [|intros h E; apply Hast, E].
  rewrite <- Hgen. apply Hast.
  unfold generate in Hgen.
  apply bind_Ok in Hgen. destruct Hgen as (a0 & g0 & H0 & Hgen).
  unfold _reset, modify in H0. injection H0 as <- <-.
  apply bind_Ok in Hgen. destruct Hgen as (a1 & g1 & H1 & Hgen).
  unfold get in H1. injection H1 as <- <-. gen_simpl.
  apply bind_Ok in Hgen. destruct Hgen as (a2 & g2 & H2 & Hgen).
  apply bind_Ok in Hgen. destruct Hgen as (a3 & g3 & H3 & Hgen).
  unfold get in H3. injection H3 as <- <-.
  unfold ret in Hgen. injection Hgen as <- <-.
  apply _process_program_ast in H2. exact H2.
Qed.

Lemma generate_twice_witness :
  generate generated_h = Ok (quads_h, generated_h)
  /\ forall h, QuadGen.ast h = QuadGen.ast (__init__ ast_h) -> generate h = generate (__init__ ast_h).
Proof.
  apply (generate_twice (__init__ ast_h) quads_h generated_h).
  vm_compute. reflexivity.
Defined.

End QuadClaims.

(** ** Semantic analyzer: evaluations *)

Module SemaEval.
Import Sema Programs.

(** Python's [==] on type values is structural equality. *)
Lemma tyval_eqb_eq a b : tyval_eqb a b = true <-> a = b.
Proof.
  revert b. induction a as [| |m a IH|a IH s|l IH|l IH]; intros b.
  - destruct b; simpl; split; congruence.
  - destruct b; simpl; split; congruence.
  - destruct b; simpl; try (split; congruence).
    rewrite andb_true_iff, IH, Bool.eqb_true_iff. split; [intros [-> ->]; reflexivity|].
    intros E. injection E as -> ->. tauto.
  - destruct b; simpl; try (split; congruence).
    rewrite andb_true_iff, IH, N.eqb_eq. split; [intros [-> ->]; reflexivity|].
    intros E. injection E as -> ->. tauto.
  - destruct b as [| | | |l'|]; simpl; try (split; congruence).
    enough (H : forall l', (fix go (l l' : list tyval) {struct l} : bool :=
                 match l, l' with
                 | [], [] => true
                 | x :: r, y :: r' => tyval_eqb x y && go r r'
                 | _, _ => false
                 end) l l' = true <-> l = l').
    { rewrite H. split; congruence. }
    clear l'. induction IH as [|x Hx l Hl IHl]; intros [|y l']; try (split; congruence).
    rewrite andb_true_iff, Hx, IHl. split; [intros [-> ->]; reflexivity|].
    intros E. injection E as -> ->. tauto.
  - destruct b as [| | | | |l']; simpl; try (split; congruence).
    enough (H : forall l', (fix go (l l' : list tyval) {struct l} : bool :=
                 match l, l' with
                 | [], [] => true
                 | x :: r, y :: r' => tyval_eqb x y && go r r'
                 | _, _ => false
                 end) l l' = true <-> l = l').
    { rewrite H. split; congruence. }
    clear l'. induction IH as [|x Hx l Hl IHl]; intros [|y l']; try (split; congruence).
    rewrite andb_true_iff, Hx, IHl. split; [intros [-> ->]; reflexivity|].
    intros E. injection E as -> ->. tauto.
Qed.

(** C2 (index expressions).  The claim: for an [IndexExpr] the analyzer
    requires an array target and an [i32] index, bounds-checks a literal
    index, yields the element type, and rejects assignment through an
    index on a non-[mut] array as [ImmutableAssignment].  The analyzer
    tests the tag ['IndexAccess'], the parser builds ['IndexExpr']: every
    [IndexExpr] is typed [i32] without looking at it, an assignment
    through one only types its right-hand side, and the programs
    [program_8_2__4_invalid] and [program_8_2__3_invalid] of [test.py] are
    accepted. *)
Theorem index_expr_unchecked :
  (forall t i a, infer_expr_type (IndexExpr t i) a = Ok (TI32, a))
  /\ (forall t i v a,
        check_assignment (Assignment (IndexExpr t i) v) a
        = (infer_expr_type v ;;; ret tt) a)
  /\ Parser.parse_source budget src_index_immutable = Some (Ok ast_index_immutable)
  /\ run_analyze ast_index_immutable = Ok tt
  /\ Parser.parse_source budget src_index_bounds = Some (Ok ast_index_bounds)
  /\ run_analyze ast_index_bounds = Ok tt.
Proof.
  split; [reflexivity|]. split; [reflexivity|].
  repeat split; vm_compute; reflexivity.
Qed.

(** C3 (tuples).  The claim: a declared tuple type and the type inferred
    for a tuple literal of the same shape are equal, so initializing a
    tuple variable from such a literal type-checks and an in-bounds
    [TupleAccess] on it has the element type.  Equality is structural
    ([tyval_eqb_eq]), but the parser tags a declared tuple type
    ['TupleType'] and the analyzer tags the inferred one ['Tuple'] and
    accepts only ['Tuple'] as the target of an access: the two are never
    equal, the initialization is a [TypeMismatchError], and so is
    [program_9_2__1] of [test.py]. *)
Theorem declared_tuple_type_never_matches :
  (forall l l', tyval_eqb (TupleType l) (Tuple l') = false)
  /\ Parser.parse_source budget src_tuple_init = Some (Ok ast_tuple_init)
  /\ run_analyze ast_tuple_init = Raise TypeMismatchError
  /\ Parser.parse_source budget src_tuple_access = Some (Ok ast_tuple_access)
  /\ run_analyze ast_tuple_access = Raise TypeMismatchError.
Proof.
  split; [reflexivity|].
  repeat split; vm_compute; reflexivity.
Qed.

(** C9 (break and continue outside loops).  The claim: a [break] or
    [continue] outside every loop is rejected with [InvalidControlFlow]
    wherever it occurs, also inside nested blocks and block expressions.
    Only [visit_block] tests [loop_depth]; [infer_expr_type], which types
    block expressions, has no arm for the two statements and types them
    [i32], and [visit_block] skips nested [Block] statements: the two
    programs below are accepted, while the same [break] directly in the
    function body ([program_5_4__2_invalid]) is rejected. *)
Theorem break_in_block_expression_accepted :
  (forall o a, infer_expr_type (BreakStmt o) a = Ok (TI32, a))
  /\ (forall a, infer_expr_type ContinueStmt a = Ok (TI32, a))
  /\ (forall t l a, visit_stmt t (Block l) a = Ok (tt, a))
  /\ Parser.parse_source budget src_break_block = Some (Ok ast_break_block)
  /\ run_analyze ast_break_block = Ok tt
  /\ Parser.parse_source budget src_continue_nested = Some (Ok ast_continue_nested)
  /\ run_analyze ast_continue_nested = Ok tt
  /\ Parser.parse_source budget src_break_top = Some (Ok ast_break_top)
  /\ run_analyze ast_break_top = Raise InvalidControlFlowError.
Proof.
  split; [reflexivity|]. split; [reflexivity|]. split; [reflexivity|].
  repeat split; vm_compute; reflexivity.
Qed.

End SemaEval.

(** ** Semantic analyzer: the borrow flags *)

Module SemaFacts.
Import Sema SemaSpec.

Lemma infer_expr_type_eq expr :
  infer_expr_type expr
  = infer_expr_type_body infer_expr_type check_var_decl check_assignment expr.
Proof. destruct expr; reflexivity. Qed.

Lemma check_var_decl_eq stmt :
  check_var_decl stmt = check_var_decl_body infer_expr_type stmt.
Proof. destruct stmt; reflexivity. Qed.

Lemma check_assignment_eq stmt :
  check_assignment stmt = check_assignment_body infer_expr_type stmt.
Proof. destruct stmt; reflexivity. Qed.

Lemma visit_stmt_eq t stmt :
  visit_stmt t stmt
  = visit_stmt_body t (for_each (visit_stmt t)) (check_if t) stmt.
Proof. destruct stmt; reflexivity. Qed.

Lemma check_if_eq t stmt :
  check_if t stmt = check_if_body (for_each (visit_stmt t)) (check_if t) stmt.
Proof. destruct stmt; reflexivity. Qed.

(** *** [keeps] is a preorder *)

Lemma keeps_refl a : keeps a a.
Proof. split; [|tauto]. intros addr s Hs. eauto. Qed.

Lemma keeps_trans a b c : keeps a b -> keeps b c -> keeps a c.
Proof.
  intros [K1 N1] [K2 N2]. split; [|tauto].
  intros addr s Hs. destruct (K1 addr s Hs) as (s1 & Hs1 & Hm1 & Hi1).
  destruct (K2 addr s1 Hs1) as (s2 & Hs2 & Hm2 & Hi2).
  exists s2. split; [exact Hs2|]. split; auto.
Qed.

(** A change that leaves the store alone keeps the flags. *)
Lemma keeps_same_symbols a a' : symbols a' = symbols a -> keeps a a'.
Proof.
  intros E. split.
  - intros addr s Hs. rewrite E. eauto.
  - intros H addr s Hs. rewrite E in Hs. eauto.
Qed.

(** *** Sequencing *)

Lemma sem_ok_ret {T} (x : T) : sem_ok (ret x).
Proof. intros a y a' H. injection H as <- <-. apply keeps_refl. Qed.

Lemma sem_ok_raise {T} e : sem_ok (raise (A := T) e).
Proof. intros a y a' H. discriminate H. Qed.

Lemma sem_ok_raise_if c e : sem_ok (raise_if c e).
Proof. destruct c; [apply sem_ok_raise | apply sem_ok_ret]. Qed.

Lemma sem_ok_get : sem_ok (get (S := analyzer)).
Proof. intros a y a' H. injection H as <- <-. apply keeps_refl. Qed.

Lemma sem_ok_bind {T U} (m : A T) (k : T -> A U) :
  sem_ok m -> (forall x, sem_ok (k x)) -> sem_ok (bind m k).
Proof.
  intros Hm Hk a y a' H. apply bind_Ok in H. destruct H as (x & a1 & H1 & H2).
  eapply keeps_trans; [eapply Hm, H1 | eapply Hk, H2].
Qed.

Lemma sem_ok_for_each {T} (f : T -> A unit) l :
  Forall (fun x => sem_ok (f x)) l -> sem_ok (for_each f l).
Proof.
  induction 1 as [|x l Hx Hl IH]; simpl.
  - apply sem_ok_ret.
  - apply sem_ok_bind; auto.
Qed.

Lemma sem_ok_list_comp {T U} (f : T -> A U) l :
  Forall (fun x => sem_ok (f x)) l -> sem_ok (list_comp f l).
Proof.
  induction 1 as [|x l Hx Hl IH]; simpl.
  - apply sem_ok_ret.
  - apply sem_ok_bind; [assumption|]. intros y.
    apply sem_ok_bind; [assumption|]. intros ys. apply sem_ok_ret.
Qed.

Lemma sem_ok_for_zip {T U} (f : T -> U -> A unit) l1 l2 :
  Forall (fun x => forall y, sem_ok (f x y)) l1 -> sem_ok (for_zip f l1 l2).
Proof.
  intros H. revert l2. induction H as [|x l Hx Hl IH]; intros [|y l2]; simpl;
    try apply sem_ok_ret.
  apply sem_ok_bind; auto.
Qed.

Lemma sem_ok_block_elements {T} (f_elem : node -> A unit) (f_last : node -> A T) l :
  Forall (fun x => sem_ok (f_elem x) /\ sem_ok (f_last x)) l ->
  sem_ok (block_elements f_elem f_last l).
Proof.
  induction 1 as [|x l [Hx1 Hx2] Hl IH]; simpl.
  - apply sem_ok_raise.
  - destruct l as [|y l]; [assumption|]. apply sem_ok_bind; [assumption|]. intros _. exact IH.
Qed.

Lemma sem_ok_first_break {T} (f_break : node -> A T) l :
  Forall (fun x => tag_is x "BreakStmt" = true -> sem_ok (f_break x)) l ->
  sem_ok (first_break f_break l).
Proof.
  induction 1 as [|x l Hx Hl IH]; simpl.
  - apply sem_ok_raise.
  - destruct (tag_is x "BreakStmt"); auto.
Qed.

(** *** The primitive steps *)

Lemma sem_ok_push_env : sem_ok push_env.
Proof. intros a x a' H. injection H as <- <-. apply keeps_same_symbols. reflexivity. Qed.

Lemma sem_ok_pop_env : sem_ok pop_env.
Proof.
  intros a x a' H. unfold pop_env in H. destruct (env_stack a); [discriminate|].
  injection H as <- <-. apply keeps_same_symbols. reflexivity.
Qed.

Lemma sem_ok_incr_loop_depth : sem_ok incr_loop_depth.
Proof. intros a x a' H. injection H as <- <-. apply keeps_same_symbols. reflexivity. Qed.

Lemma sem_ok_decr_loop_depth : sem_ok decr_loop_depth.
Proof. intros a x a' H. injection H as <- <-. apply keeps_same_symbols. reflexivity. Qed.

Lemma sem_ok_in_current_env n : sem_ok (in_current_env n).
Proof.
  intros a x a' H. unfold in_current_env in H. destruct (env_stack a); [discriminate|].
  injection H as <- <-. apply keeps_refl.
Qed.

Lemma lookup_variable_state n a addr a' : lookup_variable n a = Ok (addr, a') -> a' = a.
Proof.
  unfold lookup_variable. induction (env_stack a) as [|env r IH]; [discriminate|].
  destruct (env !! n); [intros H; injection H as <- <-; reflexivity | exact IH].
Qed.

Lemma sem_ok_lookup_variable n : sem_ok (lookup_variable n).
Proof. intros a x a' H. apply lookup_variable_state in H. subst. apply keeps_refl. Qed.

Lemma sem_ok_deref addr : sem_ok (deref addr).
Proof.
  intros a x a' H. unfold deref in H. destruct (symbols a !! addr); [|discriminate].
  injection H as <- <-. apply keeps_refl.
Qed.

(** A fresh symbol is not borrowed. *)
Lemma sem_ok_declare_variable n t m i : sem_ok (declare_variable n t m i).
Proof.
  intros a x a' H. unfold declare_variable in H. destruct (env_stack a); [discriminate|].
  injection H as <- <-. cbn. split.
  - intros addr s Hs. exists s. split; [|tauto]. cbn.
    apply lookup_app_l_Some. exact Hs.
  - intros Hn addr s Hs. cbn in Hs. apply lookup_app_Some in Hs.
    destruct Hs as [Hs | [_ Hs]]; [eauto|].
    destruct (addr - length (symbols a))%nat; [|destruct n0; discriminate].
    injection Hs as <-. reflexivity.
Qed.

(** Rewriting a symbol in place. *)
Lemma keeps_update a addr s s' :
  symbols a !! addr = Some s ->
  (borrowed_mut s = true -> borrowed_mut s' = true) ->
  (borrowed_immut s = true -> borrowed_immut s' = true) ->
  (borrowed_mut s && borrowed_immut s = false -> borrowed_mut s' && borrowed_immut s' = false) ->
  keeps a (set_symbols (<[addr := s']> (symbols a)) a).
Proof.
  intros Hs Hm Hi Hc. split.
  - intros addr' t Ht. cbn. destruct (decide (addr' = addr)) as [->|Hne].
    + exists s'. rewrite list_lookup_insert_eq by (eapply lookup_lt_Some; eassumption).
      rewrite Hs in Ht. injection Ht as <-. auto.
    + exists t. rewrite list_lookup_insert_ne by congruence. auto.
  - intros Hn addr' t Ht. cbn in Ht. destruct (decide (addr' = addr)) as [->|Hne].
    + rewrite list_lookup_insert_eq in Ht by (eapply lookup_lt_Some; eassumption).
      injection Ht as <-. apply Hc. eauto.
    + rewrite list_lookup_insert_ne in Ht by congruence. eauto.
Qed.

Lemma sem_ok_set_initialized addr : sem_ok (set_initialized addr).
Proof.
  intros a x a' H. unfold set_initialized, bind, deref, modify in H.
  destruct (symbols a !! addr) as [s|] eqn:Hs; [|discriminate].
  injection H as <- <-. eapply keeps_update; eauto.
Qed.

(** The borrow check sets a flag only when the other one is clear. *)
Lemma sem_ok_borrow ref_mut sym : sem_ok (borrow ref_mut sym).
Proof.
  intros a x a' H. unfold borrow, bind, deref in H.
  destruct (symbols a !! sym) as [s|] eqn:Hs; [|discriminate].
  destruct ref_mut; cbn in H.
  - destruct (mut s); cbn in H; [|discriminate].
    destruct (borrowed_mut s) eqn:Em; cbn in H; [discriminate|].
    destruct (borrowed_immut s) eqn:Ei; cbn in H; [discriminate|].
    unfold set_borrowed_mut, bind, deref, modify in H. rewrite Hs in H.
    injection H as <- <-.
    eapply keeps_update; [exact Hs | | | ]; cbn; intros; rewrite ?Em, ?Ei in *; auto.
  - destruct (borrowed_mut s) eqn:Em; cbn in H; [discriminate|].
    unfold set_borrowed_immut, bind, deref, modify in H. rewrite Hs in H.
    injection H as <- <-.
    eapply keeps_update; [exact Hs | | | ]; cbn; intros; rewrite ?Em, ?Ei in *; auto.
Qed.

Ltac sem_simpl :=
  cbn [tag_is node_type String.eqb Ascii.eqb Bool.eqb infer_opt sub_ok visit_sub_ok
       orb andb] in *.

Ltac sem_step :=
  match goal with
  | H : sem_ok ?m |- sem_ok ?m => exact H
  | H : _ /\ _ |- _ => destruct H
  | H : sem_ok_all _ |- _ => destruct H as [? [? ?]]
  | H : forall x, Some ?n = Some x -> _ |- _ => specialize (H n eq_refl)
  | H : forall x, None = Some x -> _ |- _ => clear H
  | |- sem_ok (bind _ _) => apply sem_ok_bind; [|intros ?]
  | |- sem_ok (ret _) => apply sem_ok_ret
  | |- sem_ok (raise _) => apply sem_ok_raise
  | |- sem_ok (raise_if _ _) => apply sem_ok_raise_if
  | |- sem_ok get => apply sem_ok_get
  | |- sem_ok push_env => apply sem_ok_push_env
  | |- sem_ok pop_env => apply sem_ok_pop_env
  | |- sem_ok incr_loop_depth => apply sem_ok_incr_loop_depth
  | |- sem_ok decr_loop_depth => apply sem_ok_decr_loop_depth
  | |- sem_ok (in_current_env _) => apply sem_ok_in_current_env
  | |- sem_ok (lookup_variable _) => apply sem_ok_lookup_variable
  | |- sem_ok (deref _) => apply sem_ok_deref
  | |- sem_ok (declare_variable _ _ _ _) => apply sem_ok_declare_variable
  | |- sem_ok (set_initialized _) => apply sem_ok_set_initialized
  | |- sem_ok (borrow _ _) => apply sem_ok_borrow
  | |- sem_ok (for_each _ _) =>
      apply sem_ok_for_each; eapply Forall_impl; [eassumption|]; intros ? ?; cbv beta in *
  | |- sem_ok (list_comp _ _) =>
      apply sem_ok_list_comp; eapply Forall_impl; [eassumption|]; intros ? ?; cbv beta in *
  | |- sem_ok (for_zip _ _ _) =>
      apply sem_ok_for_zip; eapply Forall_impl; [eassumption|]; intros ? ? ?; cbv beta in *
  | |- sem_ok (first_break _ _) => apply sem_ok_first_break; assumption
  | |- sem_ok (block_elements _ _ _) =>
      apply sem_ok_block_elements; eapply Forall_impl; [eassumption|]; intros ? ?;
      cbv beta in *; split
  | |- sem_ok (infer_opt _ ?o) => destruct o; sem_simpl
  | |- sem_ok (if tag_is ?x _ then _ else _) => is_var x; destruct x; sem_simpl
  | |- sem_ok (if tag_is ?x _ || _ then _ else _) => is_var x; destruct x; sem_simpl
  | |- sem_ok (if ?c then _ else _) => destruct c
  | |- sem_ok (match ?x with _ => _ end) => destruct x; sem_simpl
  end.

Lemma list_all_sem (P : node -> Prop) l :
  list_all node (fun n => sem_ok_all n /\ sub_ok n) l ->
  Forall (fun n => sem_ok_all n /\ sub_ok n) l.
Proof. apply list_all_Forall. Qed.

Lemma option_all_sem o :
  option_all node (fun n => sem_ok_all n /\ sub_ok n) o ->
  forall x, o = Some x -> sem_ok_all x /\ sub_ok x.
Proof. intros H. destruct H; intros x Hx; [injection Hx as <-; assumption | discriminate]. Qed.

Ltac sem_dispatch :=
  rewrite ?infer_expr_type_eq, ?check_var_decl_eq, ?check_assignment_eq;
  unfold infer_expr_type_body, check_var_decl_body, check_assignment_body;
  cbn [tag_is node_type String.eqb Ascii.eqb Bool.eqb].

Lemma sub_ok_elements l :
  Forall (fun n => sem_ok_all n /\ sub_ok n) l ->
  Forall (fun e => tag_is e "BreakStmt" = true -> sem_ok (infer_break e)) l.
Proof.
  intros H. eapply Forall_impl; [exact H|]. intros e [_ He] Htag.
  destruct e; try discriminate Htag. unfold infer_break.
  destruct expression as [x|]; cbn [infer_opt sub_ok] in *; [assumption | apply sem_ok_raise].
Qed.

Theorem infer_ok n : sem_ok_all n /\ sub_ok n.
Proof.
  induction n.
  all: repeat match goal with
         | IH : sem_ok_all _ /\ sub_ok _ |- _ => destruct IH as [[? [? ?]] ?]
         | IH : list_all _ _ _ |- _ => apply list_all_Forall in IH
         | IH : option_all _ _ ?o |- _ => pose proof (option_all_sem o IH); clear IH
         end.
  all: split; [split; [|split]|]; sem_dispatch.
  all: repeat sem_step.
  all: try (cbn [sub_ok]; auto; fail).
  - destruct expression as [x|]; cbn [sub_ok]; [|exact I].
    destruct (H0 x eq_refl) as [[? _] _]. assumption.
  - apply sub_ok_elements. assumption.
  - apply sub_ok_elements. assumption.
  - apply sub_ok_elements. assumption.
Qed.

(** *** Statements, functions, programs *)

Ltac visit_step :=
  match goal with
  | |- sem_ok (infer_expr_type _) => apply infer_ok
  | |- sem_ok (check_var_decl _) => apply infer_ok
  | |- sem_ok (check_assignment _) => apply infer_ok
  | H : visit_ok ?n |- sem_ok (visit_stmt ?t ?n) => apply (H t)
  | H : visit_ok ?n |- sem_ok (check_if ?t ?n) => apply (H t)
  | _ => sem_step
  end.

Lemma check_return_ok stmt t : sem_ok (check_return stmt t).
Proof. unfold check_return. repeat visit_step. Qed.

Lemma option_all_visit o :
  option_all node (fun n => visit_ok n /\ visit_sub_ok n) o ->
  forall x, o = Some x -> visit_ok x /\ visit_sub_ok x.
Proof. intros H. destruct H; intros x Hx; [injection Hx as <-; assumption | discriminate]. Qed.

Theorem visit_all n : visit_ok n /\ visit_sub_ok n.
Proof.
  induction n.
  all: repeat match goal with
         | IH : visit_ok _ /\ visit_sub_ok _ |- _ => destruct IH
         | IH : list_all _ _ _ |- _ => apply list_all_Forall in IH
         | IH : option_all _ _ ?o |- _ => pose proof (option_all_visit o IH); clear IH
         end.
  all: split;
    [ intros t;
      match goal with
      | |- sem_ok (visit_stmt _ ?n) /\ _ =>
          assert (Hci : sem_ok (check_if t n)); [ | split; [ | exact Hci ] ]
      end
    | ].
  all: rewrite ?visit_stmt_eq, ?check_if_eq; unfold visit_stmt_body, check_if_body; sem_simpl.
  all: repeat visit_step.
  all: try exact I.
  - apply check_return_ok.
  - eapply Forall_impl; [eassumption|]. intros x [Hx _]. exact Hx.
Qed.

Lemma visit_block_ok stmts t : sem_ok (visit_block stmts t).
Proof.
  unfold visit_block. apply sem_ok_for_each, Forall_forall. intros x _.
  apply (proj1 (visit_all x) t).
Qed.

Lemma visit_function_ok n : sem_ok (visit_function n).
Proof.
  unfold visit_function. repeat visit_step; try apply visit_block_ok.
  all: apply sem_ok_for_each, Forall_forall; intros p _; apply sem_ok_declare_variable.
Qed.

Lemma sem_ok_set_function n decl :
  sem_ok (modify (fun a => set_functions (<[n := decl]> (functions a)) a)).
Proof. intros a x a' H. injection H as <- <-. apply keeps_same_symbols. reflexivity. Qed.

Lemma analyze_ok : sem_ok analyze.
Proof.
  unfold analyze. apply sem_ok_bind; [apply sem_ok_get|]. intros a.
  apply sem_ok_bind; [apply sem_ok_raise_if|]. intros _.
  destruct (Sema.ast a); try apply sem_ok_raise.
  apply sem_ok_bind.
  - apply sem_ok_for_each, Forall_forall. intros d _.
    destruct (node_name d); [apply sem_ok_set_function | apply sem_ok_raise].
  - intros _. apply sem_ok_for_each, Forall_forall. intros d _. apply visit_function_ok.
Qed.

(** *** The borrow rule at a reference to an initialized symbol *)

Lemma bind_eq {S T U} (m : M S T) (k : T -> M S U) s x s1 :
  m s = Ok (x, s1) -> bind m k s = k x s1.
Proof. intros H. unfold bind. rewrite H. reflexivity. Qed.

Lemma deref_eq addr a s : symbols a !! addr = Some s -> deref addr a = Ok (s, a).
Proof. intros H. unfold deref. rewrite H. reflexivity. Qed.

Lemma infer_identifier n a addr s :
  lookup_variable n a = Ok (addr, a) ->
  symbols a !! addr = Some s ->
  type s <> TNone ->
  initialized s = true ->
  infer_expr_type (Identifier n) a = Ok (type s, a).
Proof.
  intros Hl Hs Ht Hi. rewrite infer_expr_type_eq. unfold infer_expr_type_body.
  cbn [tag_is node_type String.eqb Ascii.eqb Bool.eqb].
  rewrite (bind_eq _ _ _ _ _ Hl), (bind_eq _ _ _ _ _ (deref_eq _ _ _ Hs)).
  destruct (type s); try congruence; rewrite Hi; reflexivity.
Qed.

Lemma ref_expr_outcome ref_mut n a addr s :
  lookup_variable n a = Ok (addr, a) ->
  symbols a !! addr = Some s ->
  type s <> TNone ->
  initialized s = true ->
  infer_expr_type (RefExpr ref_mut (Identifier n)) a = ref_outcome ref_mut addr s a.
Proof.
  intros Hl Hs Ht Hi. rewrite infer_expr_type_eq. unfold infer_expr_type_body.
  cbn [tag_is node_type String.eqb Ascii.eqb Bool.eqb].
  rewrite (bind_eq _ _ _ _ _ (infer_identifier n a addr s Hl Hs Ht Hi)).
  assert (Hb : borrow ref_mut addr a
               = match ref_outcome ref_mut addr s a with
                 | Ok (_, a') => Ok (tt, a')
                 | Raise e => Raise e
                 end).
  { unfold borrow, ref_outcome. rewrite (bind_eq _ _ _ _ _ (deref_eq _ _ _ Hs)).
    destruct ref_mut, (mut s), (borrowed_mut s), (borrowed_immut s); cbn; try reflexivity.
    all: unfold set_borrowed_mut, set_borrowed_immut;
         rewrite (bind_eq _ _ _ _ _ (deref_eq _ _ _ Hs)); reflexivity. }
  unfold bind at 1. unfold bind at 1. rewrite Hl, Hb. unfold ref_outcome.
  destruct ref_mut, (mut s), (borrowed_mut s), (borrowed_immut s); reflexivity.
Qed.

End SemaFacts.

(** ** Semantic analyzer: the borrow check *)

Module SemaClaims.
Import Sema SemaSpec SemaFacts Programs.

(** C5, as stated, fails: the rule is claimed for every reference to a
    bound identifier, but the operand is typed first.  In
    [fn u() { let mut a: i32; let b = &mut a; }] the symbol [a] is [mut]
    and not borrowed, yet [&mut a] does not set [borrowed_mut]: it raises
    [UninitializedVariableError]. *)
Lemma ref_rule_fails_on_uninitialized :
  Parser.parse_source budget src_borrow_uninit = Some (Ok ast_borrow_uninit)
  /\ run_analyze ast_borrow_uninit = Raise UninitializedVariableError
  /\ ~ ref_rule_for_every_symbol.
Proof.
  split; [vm_compute; reflexivity|]. split; [vm_compute; reflexivity|].
  intros H.
  specialize (H true "a" after_uninit_decl 0%nat
                (mkSymbol "a" TI32 true false false false) eq_refl eq_refl).
  vm_compute in H. discriminate H.
Qed.

(** C5, amended (borrow flags).  For every [RefExpr] whose operand is an
    identifier bound to a symbol [S] that is initialized and of known
    type: a mutable reference fails with [BorrowCheck] if [S] is not
    [mut], fails if [S.borrowed_mut] or [S.borrowed_immut] is set, and
    otherwise sets [S.borrowed_mut]; an immutable reference fails if
    [S.borrowed_mut] is set and otherwise sets [S.borrowed_immut].  The
    analysis of a function never clears a flag and never makes both flags
    of a symbol true, so after a successful analysis no symbol has both
    set. *)
Theorem borrow_flags (program : node) (final : analyzer) :
  analyze (__init__ program) = Ok (tt, final) ->
  no_conflict final
  /\ (forall decl a a',
        visit_function decl a = Ok (tt, a') ->
        flags_kept a a' /\ (no_conflict a -> no_conflict a'))
  /\ (forall ref_mut n a addr s,
        lookup_variable n a = Ok (addr, a) ->
        symbols a !! addr = Some s ->
        type s <> TNone ->
        initialized s = true ->
        infer_expr_type (RefExpr ref_mut (Identifier n)) a = ref_outcome ref_mut addr s a).
Proof.
  intros Hrun. split; [|split].
  - apply (analyze_ok _ _ _ Hrun). intros addr s Hs. discriminate Hs.
  - intros decl a a' H. exact (visit_function_ok decl _ _ _ H).
  - apply ref_expr_outcome.
Qed.

Lemma borrow_flags_witness :
  no_conflict analyzed_shared
  /\ infer_expr_type (RefExpr false (Identifier "a")) after_init_decl
     = ref_outcome false 0 (mkSymbol "a" TI32 true true false false) after_init_decl.
Proof.
  destruct (borrow_flags ast_borrow_shared analyzed_shared) as (H1 & _ & H3).
  - vm_compute. reflexivity.
  - split; [exact H1|]. apply H3.
    + vm_compute. reflexivity.
    + vm_compute. reflexivity.
    + discriminate.
    + reflexivity.
Defined.

End SemaClaims.

(** ** Lexer: facts *)

Module LexFacts.
Import Lexer LexSpec.

Lemma length_app_marker (s t : string) :
  String.length (s +:+ t) = (String.length s + String.length t)%nat.
Proof. induction s as [|c s IH]; simpl; [reflexivity|]. f_equal. exact IH. Qed.

Lemma append_cons c (s t : string) : String c s +:+ t = String c (s +:+ t).
Proof. reflexivity. Qed.

Lemma append_nil (t : string) : EmptyString +:+ t = t.
Proof. reflexivity. Qed.

Lemma isspace_not_marker c : isspace c = true -> Ascii.eqb c "#" = false.
Proof.
  intros H. destruct (Ascii.eqb_spec c "#") as [->|]; [|reflexivity].
  vm_compute in H. discriminate H.
Qed.

(** The white space before a token is passed one character per turn or by
    [skip_whitespace]: the token is the same. *)
Lemma get_next_token_skip_whitespace l :
  get_next_token l = get_next_token (skip_whitespace l).
Proof.
  induction l as [|c r IH]; [reflexivity|].
  cbn [skip_whitespace]. destruct (isspace c) eqn:Hs; [|reflexivity].
  cbn [get_next_token]. rewrite (isspace_not_marker c Hs), Hs. exact IH.
Qed.

(** *** Every token consumes a character *)

Lemma advance_length l : (String.length (advance l) <= String.length l)%nat.
Proof. destruct l; cbn; lia. Qed.

Lemma take_while_length p l :
  (String.length (take_while p l).2 <= String.length l)%nat.
Proof.
  induction l as [|c r IH]; cbn; [lia|].
  destruct (p c); cbn; [|lia].
  destruct (take_while p r) as [buf rest]; cbn in *. lia.
Qed.

Lemma take_while_first p c r :
  p c = true ->
  (String.length (take_while p (String c r)).2 <= String.length r)%nat.
Proof.
  intros H. cbn. rewrite H.
  pose proof (take_while_length p r) as Hl.
  destruct (take_while p r) as [buf rest]; cbn in *. lia.
Qed.

Lemma block_comment_loop_length l buf rest :
  block_comment_loop l = Ok (buf, rest) ->
  (String.length rest <= String.length l)%nat.
Proof.
  revert buf. induction l as [|c r IH]; intros buf H; cbn in H; [discriminate H|].
  destruct (Ascii.eqb c "*" && bool_decide (peek (String c r) = Some "/"%char)).
  - injection H as _ <-. pose proof (advance_length r). cbn. lia.
  - destruct (block_comment_loop r) as [[b l']|e] eqn:E; [|discriminate H].
    injection H as _ <-. specialize (IH _ eq_refl). cbn. lia.
Qed.

Lemma read_operator_length c r tok l' :
  read_operator (String c r) = Ok (Some tok, l') ->
  (String.length l' <= String.length r)%nat.
Proof.
  unfold read_operator. destruct r as [|d r]; [discriminate|].
  destruct (mem_string (String c (String d EmptyString)) OPERATORS).
  - intros H. injection H as _ <-. cbn. lia.
  - destruct (mem_char c SINGLE_CHAR_OPS); intros H; [|discriminate H].
    injection H as _ <-. cbn. lia.
Qed.

Lemma scan_length c r tok l' :
  scan c (String c r) = Ok (tok, l') ->
  (String.length l' <= String.length r)%nat.
Proof.
  unfold scan.
  destruct (isalpha c || Ascii.eqb c "_") eqn:Ea.
  { unfold read_identifier.
    assert (Hp : (fun c => isalnum c || Ascii.eqb c "_") c = true).
    { cbv beta. unfold isalnum. apply orb_true_iff in Ea as [->| ->]; [reflexivity|].
      apply orb_true_r. }
    pose proof (take_while_first _ c r Hp) as Hl.
    destruct (take_while _ (String c r)) as [ident rest]; cbn in Hl.
    destruct (mem_string ident KEYWORDS); intros H; injection H as _ <-; exact Hl. }
  destruct (isdigit c) eqn:Ed.
  { unfold read_number.
    pose proof (take_while_first isdigit c r Ed) as Hl.
    destruct (take_while isdigit (String c r)) as [buffer rest]; cbn in Hl.
    destruct (int buffer) as [n|e]; intros H; [|discriminate H].
    injection H as _ <-; exact Hl. }
  destruct (Ascii.eqb c "/" && _).
  { unfold read_line_comment. cbn [advance].
    pose proof (take_while_length (fun c => negb (Ascii.eqb c newline)) (advance r)) as Hl.
    destruct (take_while _ (advance r)) as [buffer rest]; cbn in Hl.
    intros H; injection H as _ <-. pose proof (advance_length r). lia. }
  destruct (Ascii.eqb c "/" && _).
  { unfold read_block_comment. cbn [advance].
    destruct (block_comment_loop (advance r)) as [[buffer rest]|e] eqn:E; [|discriminate].
    intros H; injection H as _ <-.
    pose proof (block_comment_loop_length _ _ _ E). pose proof (advance_length r). lia. }
  destruct (Ascii.eqb c "-" && _).
  { unfold read_arrow. cbn [advance]. intros H; injection H as _ <-. apply advance_length. }
  destruct (Ascii.eqb c ".").
  { destruct (bool_decide _); unfold read_double_dot, read_dot; cbn [advance];
      intros H; injection H as _ <-; [apply advance_length|lia]. }
  destruct (read_operator (String c r)) as [[[op|] l1]|e] eqn:E; [| |discriminate].
  { intros H; injection H as _ <-. exact (read_operator_length _ _ _ _ E). }
  destruct (mem_char c SEPARATORS).
  { cbn. intros H; injection H as _ <-. lia. }
  destruct (mem_char c DELIMITERS).
  { cbn. intros H; injection H as _ <-. lia. }
  destruct (Ascii.eqb c "="); [|discriminate].
  destruct (bool_decide _); cbn [advance]; intros H; injection H as _ <-;
    [apply advance_length|lia].
Qed.

Lemma get_next_token_consumes l tok l' :
  get_next_token l = Ok (tok, l') ->
  type tok <> EOF ->
  (String.length l' < String.length l)%nat.
Proof.
  induction l as [|c r IH]; cbn [get_next_token].
  - intros H; injection H as <- _. intros Ht. contradiction Ht. reflexivity.
  - destruct (Ascii.eqb c "#").
    { intros H; injection H as <- _. intros Ht. contradiction Ht. reflexivity. }
    destruct (isspace c).
    + intros H Ht. specialize (IH H Ht). cbn. lia.
    + intros H _. pose proof (scan_length _ _ _ _ H). cbn. lia.
Qed.

(** *** The loop of [lex] ends *)

Lemma lex_loop_enough_fuel fuel l tokens :
  (String.length l < fuel)%nat ->
  exists r, lex_loop fuel l tokens = Some r.
Proof.
  revert l tokens. induction fuel as [|fuel IH]; intros l tokens Hlen; [lia|].
  cbn [lex_loop].
  destruct (get_next_token l) as [[tok l']|e] eqn:E; [|eauto].
  destruct (type tok) eqn:Et; eauto;
    (apply IH;
     assert (Hne : type tok <> EOF) by (rewrite Et; discriminate);
     pose proof (get_next_token_consumes _ _ _ E Hne); lia).
Qed.

Lemma lex_total code : exists r, lex code = Some r.
Proof.
  apply lex_loop_enough_fuel. unfold __init__.
  rewrite length_app_marker. cbn. lia.
Qed.

(** *** The states of the loop *)

Lemma reaches_length l l' :
  reaches l l' -> (String.length l' <= String.length l)%nat.
Proof.
  induction 1 as [l|l tok l' l'' Hg Ht _ IH]; [lia|].
  pose proof (get_next_token_consumes _ _ _ Hg Ht). lia.
Qed.

Lemma lex_loop_reaches l l' :
  reaches l l' ->
  forall fuel tokens,
    (String.length l < fuel + String.length l')%nat ->
    exists fuel' tokens',
      (0 < fuel')%nat /\ lex_loop fuel l tokens = lex_loop fuel' l' tokens'.
Proof.
  induction 1 as [l|l tok l' l'' Hg Ht Hr IH]; intros fuel tokens Hlen.
  - exists fuel, tokens. split; [lia|reflexivity].
  - pose proof (get_next_token_consumes _ _ _ Hg Ht) as Hc.
    pose proof (reaches_length _ _ Hr) as Hle.
    destruct fuel as [|fuel]; [lia|].
    cbn [lex_loop]. rewrite Hg.
    destruct (type tok); try (contradiction Ht; reflexivity); apply IH; lia.
Qed.

Lemma reaches_reads l l' : reaches l l' -> exists tokens, reads l tokens l'.
Proof.
  induction 1 as [l|l tok l' l'' Hg Ht _ [tokens IH]].
  - exists []. apply reads_here.
  - eexists. exact (reads_next _ _ _ _ _ Hg Ht IH).
Qed.

Lemma reads_reaches l tokens l' : reads l tokens l' -> reaches l l'.
Proof.
  induction 1 as [l|l tok l' tokens l'' Hg Ht _ IH]; [apply reaches_here|].
  exact (reaches_next _ _ _ _ Hg Ht IH).
Qed.

Lemma lex_loop_reads l read l' :
  reads l read l' ->
  forall fuel tokens,
    (String.length l < fuel + String.length l')%nat ->
    exists fuel',
      (0 < fuel')%nat /\ lex_loop fuel l tokens = lex_loop fuel' l' (tokens ++ read).
Proof.
  induction 1 as [l|l tok l' read l'' Hg Ht Hr IH]; intros fuel tokens Hlen.
  - exists fuel. rewrite app_nil_r. split; [lia|reflexivity].
  - pose proof (get_next_token_consumes _ _ _ Hg Ht) as Hc.
    pose proof (reaches_length _ _ (reads_reaches _ _ _ Hr)) as Hle.
    destruct fuel as [|fuel]; [lia|].
    cbn [lex_loop]. rewrite Hg.
    destruct (type tok) eqn:Et; try (contradiction Ht; reflexivity).
    all: match goal with
         | |- exists _, _ /\ lex_loop _ _ ?acc = _ =>
             destruct (IH fuel acc) as (fuel' & Hf & Heq); [lia|]
         end.
    all: exists fuel'; split; [exact Hf|]; rewrite Heq.
    all: first [ rewrite bool_decide_eq_true_2 by reflexivity
               | rewrite bool_decide_eq_false_2 by discriminate ].
    all: rewrite <- ?app_assoc; reflexivity.
Qed.

(** At the end marker, and at the white space before it, the loop ends
    with the tokens it has. *)
Lemma lex_loop_marker fuel l rest tokens :
  skip_whitespace l = String "#" rest ->
  lex_loop (S fuel) l tokens = Some (Ok tokens).
Proof.
  intros Hs. cbn [lex_loop]. rewrite get_next_token_skip_whitespace, Hs. reflexivity.
Qed.

(** Every state of the loop is a suffix of the text. *)
Lemma suffix_of_refl l : suffix_of l l.
Proof. exists EmptyString. reflexivity. Qed.

Lemma suffix_of_cons c l' l : suffix_of l' l -> suffix_of l' (String c l).
Proof. intros [p ->]. exists (String c p). reflexivity. Qed.

Lemma suffix_of_trans l1 l2 l3 : suffix_of l1 l2 -> suffix_of l2 l3 -> suffix_of l1 l3.
Proof.
  intros [p ->] [q ->]. exists (q +:+ p).
  induction q as [|c q IH]; [reflexivity|]. rewrite !append_cons, IH. reflexivity.
Qed.

Lemma suffix_of_advance l : suffix_of (advance l) l.
Proof. destruct l; [apply suffix_of_refl|]. apply suffix_of_cons, suffix_of_refl. Qed.

Lemma take_while_suffix p l : suffix_of (take_while p l).2 l.
Proof.
  induction l as [|c r IH]; cbn; [apply suffix_of_refl|].
  destruct (p c); [|apply suffix_of_refl].
  destruct (take_while p r) as [buf rest]; cbn in *. apply suffix_of_cons, IH.
Qed.

Lemma block_comment_loop_suffix l buf rest :
  block_comment_loop l = Ok (buf, rest) -> suffix_of rest l.
Proof.
  revert buf. induction l as [|c r IH]; intros buf H; cbn in H; [discriminate H|].
  destruct (Ascii.eqb c "*" && bool_decide (peek (String c r) = Some "/"%char)).
  - injection H as _ <-. apply suffix_of_cons, suffix_of_advance.
  - destruct (block_comment_loop r) as [[b l']|e] eqn:E; [|discriminate H].
    injection H as _ <-. apply suffix_of_cons. exact (IH _ eq_refl).
Qed.

Lemma suffix_of_advance2 l : suffix_of (advance (advance l)) l.
Proof. eapply suffix_of_trans; apply suffix_of_advance. Qed.

Lemma scan_suffix c l tok l' :
  scan c l = Ok (tok, l') -> suffix_of l' l.
Proof.
  unfold scan.
  destruct (isalpha c || Ascii.eqb c "_").
  { unfold read_identifier.
    pose proof (take_while_suffix (fun c => isalnum c || Ascii.eqb c "_") l) as Hl.
    destruct (take_while _ l) as [ident rest]; cbn in Hl.
    destruct (mem_string ident KEYWORDS); intros H; injection H as _ <-; exact Hl. }
  destruct (isdigit c).
  { unfold read_number.
    pose proof (take_while_suffix isdigit l) as Hl.
    destruct (take_while isdigit l) as [buffer rest]; cbn in Hl.
    destruct (int buffer) as [n|e]; intros H; [|discriminate H].
    injection H as _ <-; exact Hl. }
  destruct (Ascii.eqb c "/" && _).
  { unfold read_line_comment.
    pose proof (take_while_suffix (fun c => negb (Ascii.eqb c newline)) (advance (advance l))) as Hl.
    destruct (take_while _ (advance (advance l))) as [buffer rest]; cbn in Hl.
    intros H; injection H as _ <-.
    eapply suffix_of_trans; [exact Hl|apply suffix_of_advance2]. }
  destruct (Ascii.eqb c "/" && _).
  { unfold read_block_comment.
    destruct (block_comment_loop (advance (advance l))) as [[buffer rest]|e] eqn:E; [|discriminate].
    intros H; injection H as _ <-.
    eapply suffix_of_trans; [exact (block_comment_loop_suffix _ _ _ E)|apply suffix_of_advance2]. }
  destruct (Ascii.eqb c "-" && _).
  { unfold read_arrow. intros H; injection H as _ <-. apply suffix_of_advance2. }
  destruct (Ascii.eqb c ".").
  { destruct (bool_decide _); unfold read_double_dot, read_dot;
      intros H; injection H as _ <-; [apply suffix_of_advance2|apply suffix_of_advance]. }
  destruct (read_operator l) as [[[op|] l1]|e] eqn:E; [| |discriminate].
  { intros H; injection H as _ <-. unfold read_operator in E.
    destruct l as [|a [|d r]]; try discriminate E.
    destruct (mem_string (String a (String d EmptyString)) OPERATORS).
    - injection E as _ <-. apply (suffix_of_advance2 (String a (String d r))).
    - destruct (mem_char a SINGLE_CHAR_OPS); [|discriminate E].
      injection E as _ <-. apply suffix_of_advance. }
  destruct (mem_char c SEPARATORS).
  { destruct l; cbn; [discriminate|]. intros H; injection H as _ <-.
    apply suffix_of_cons, suffix_of_refl. }
  destruct (mem_char c DELIMITERS).
  { destruct l; cbn; [discriminate|]. intros H; injection H as _ <-.
    apply suffix_of_cons, suffix_of_refl. }
  destruct (Ascii.eqb c "="); [|discriminate].
  destruct (bool_decide _); intros H; injection H as _ <-;
    [apply suffix_of_advance2|apply suffix_of_advance].
Qed.

Lemma get_next_token_suffix l tok l' :
  get_next_token l = Ok (tok, l') -> suffix_of l' l.
Proof.
  induction l as [|c r IH]; cbn [get_next_token].
  - intros H; injection H as _ <-. apply suffix_of_refl.
  - destruct (Ascii.eqb c "#").
    { intros H; injection H as _ <-. apply suffix_of_cons, suffix_of_refl. }
    destruct (isspace c).
    + intros H. apply suffix_of_cons, IH, H.
    + apply scan_suffix.
Qed.

Lemma skip_whitespace_suffix l : suffix_of (skip_whitespace l) l.
Proof.
  induction l as [|c r IH]; cbn; [apply suffix_of_refl|].
  destruct (isspace c); [apply suffix_of_cons, IH|apply suffix_of_refl].
Qed.

Lemma reaches_suffix l l' : reaches l l' -> suffix_of l' l.
Proof.
  induction 1 as [l|l tok l' l'' Hg _ _ IH]; [apply suffix_of_refl|].
  eapply suffix_of_trans; [exact IH|exact (get_next_token_suffix _ _ _ Hg)].
Qed.

(** The end marker stays the last character of every state that is not
    empty. *)
Lemma marked_init code : marked (__init__ code).
Proof. right. exists code. reflexivity. Qed.

Lemma marked_suffix l' l : suffix_of l' l -> marked l -> marked l'.
Proof.
  intros [p ->]. revert l'. induction p as [|c p IH]; intros l' H; [exact H|].
  apply IH. destruct H as [H|[q H]]; [discriminate H|].
  rewrite append_cons in H. destruct q as [|d q].
  - rewrite append_nil in H. injection H as _ H. left. exact H.
  - rewrite append_cons in H. injection H as _ H. right. exists q. exact H.
Qed.

Lemma marked_single c : marked (String c EmptyString) -> c = "#"%char.
Proof.
  intros [H|[[|d q] H]]; [discriminate H| |].
  - rewrite append_nil in H. congruence.
  - rewrite append_cons in H. injection H as _ H. destruct q; discriminate H.
Qed.

(** *** A character that starts no token *)

Lemma scan_unknown c d r :
  starts_no_token c = true ->
  c <> "#"%char ->
  scan c (String c (String d r)) = Raise (invalid_character c).
Proof.
  intros H Hc.
  destruct c as [[] [] [] [] [] [] [] []];
    vm_compute in H; try discriminate H;
    try (contradiction Hc; reflexivity);
    reflexivity.
Qed.

Lemma starts_no_token_not_space c : starts_no_token c = true -> isspace c = false.
Proof.
  unfold starts_no_token. destruct (isspace c); [|reflexivity].
  cbn. discriminate.
Qed.

Lemma get_next_token_unknown l c rest :
  marked l ->
  skip_whitespace l = String c rest ->
  starts_no_token c = true ->
  c <> "#"%char ->
  get_next_token l = Raise (invalid_character c).
Proof.
  intros Hm Hs Hc Hne.
  rewrite get_next_token_skip_whitespace, Hs. cbn [get_next_token].
  destruct (Ascii.eqb_spec c "#") as [->|_]; [contradiction Hne; reflexivity|].
  rewrite (starts_no_token_not_space c Hc).
  destruct rest as [|d r].
  - assert (Hm' : marked (String c EmptyString)).
    { rewrite <- Hs. exact (marked_suffix _ _ (skip_whitespace_suffix l) Hm). }
    contradiction Hne. exact (marked_single c Hm').
  - exact (scan_unknown c d r Hc Hne).
Qed.

Lemma skip_whitespace_length l :
  (String.length (skip_whitespace l) <= String.length l)%nat.
Proof.
  induction l as [|c r IH]; cbn; [lia|]. destruct (isspace c); cbn; lia.
Qed.

End LexFacts.

(** ** Lexer: the unknown character *)

Module LexClaims.
Import Lexer LexSpec LexFacts.

(** C8, as stated, fails: the end marker ['#'] starts no token class, and
    the lexer that arrives at a ['#'] of the source ends the token stream
    there without an error.  For ["x # @"] the tokens are those of ["x"];
    the ['@'] after the marker is never looked at. *)
Lemma end_marker_in_source_ends_stream :
  starts_no_token "#" = true
  /\ reaches (__init__ "x # @") " # @#"
  /\ skip_whitespace " # @#" = "# @#"
  /\ lex "x # @" = Some (Ok [mkToken IDENTIFIER (VStr "x")])
  /\ ~ unknown_character_rule.
Proof.
  assert (Hr : reaches (__init__ "x # @") " # @#").
  { eapply reaches_next; [reflexivity|discriminate|apply reaches_here]. }
  split; [reflexivity|]. split; [exact Hr|]. split; [reflexivity|].
  split; [reflexivity|].
  intros H. specialize (H "x # @" " # @#" "#"%char " @#" Hr eq_refl eq_refl).
  vm_compute in H. discriminate H.
Qed.

(** C8, amended (unknown character).  For every source string, when the
    lexer reaches, at the start of a token, a character other than ['#']
    that starts no token class (not white space, not a letter or
    underscore, not a digit, not a comment opener, and not an operator,
    delimiter, separator, assignment, dot or arrow character), [lex]
    fails with the lex-error [ValueError] naming that character: it
    neither skips the character nor ends the token stream.  When the
    character it reaches there is a ['#'], [lex] takes it for the end
    marker and returns the tokens it has read up to it, without an
    error. *)
Theorem unknown_character_raises (code : string) (l : lexer) (c : ascii) (rest : string) :
  reaches (__init__ code) l ->
  skip_whitespace l = String c rest ->
  starts_no_token c = true ->
  (c <> "#"%char -> lex code = Some (Raise (invalid_character c)))
  /\ (c = "#"%char ->
      exists tokens, reads (__init__ code) tokens l /\ lex code = Some (Ok tokens)).
Proof.
  intros Hr Hs Hc.
  assert (Hlen : (0 < String.length l)%nat).
  { pose proof (skip_whitespace_length l) as Hl. rewrite Hs in Hl. cbn in Hl. lia. }
  assert (Hfuel : (String.length (__init__ code)
                   < String.length code + 2 + String.length l)%nat).
  { unfold __init__. rewrite length_app_marker. cbn. lia. }
  split.
  - intros Hne.
    destruct (lex_loop_reaches _ _ Hr (String.length code + 2) [] Hfuel)
      as (fuel & tokens & Hf & Heq).
    unfold lex. rewrite Heq.
    destruct fuel as [|fuel]; [lia|].
    cbn [lex_loop].
    rewrite (get_next_token_unknown l c rest); [reflexivity| |exact Hs|exact Hc|exact Hne].
    exact (marked_suffix _ _ (reaches_suffix _ _ Hr) (marked_init code)).
  - intros ->.
    destruct (reaches_reads _ _ Hr) as [tokens Hread].
    exists tokens. split; [exact Hread|].
    destruct (lex_loop_reads _ _ _ Hread (String.length code + 2) [] Hfuel)
      as (fuel & Hf & Heq).
    unfold lex. rewrite Heq.
    destruct fuel as [|fuel]; [lia|].
    exact (lex_loop_marker fuel l rest _ Hs).
Qed.

Lemma unknown_character_raises_witness :
  lex "let a = 1 $ 2;" = Some (Raise (ValueError "Invalid character '$' "))
  /\ exists tokens,
       reads (__init__ "x # @") tokens " # @#" /\ lex "x # @" = Some (Ok tokens).
Proof.
  split.
  - apply (unknown_character_raises "let a = 1 $ 2;" " $ 2;#" "$"%char " 2;#").
    + do 4 (eapply reaches_next; [reflexivity|discriminate|]). apply reaches_here.
    + reflexivity.
    + reflexivity.
    + discriminate.
  - apply (unknown_character_raises "x # @" " # @#" "#"%char " @#").
    + eapply reaches_next; [reflexivity|discriminate|]. apply reaches_here.
    + reflexivity.
    + reflexivity.
    + reflexivity.
Defined.

End LexClaims.

(** ** Lexer: further properties *)

Module LexMore.
Import Lexer LexSpec LexFacts LexVocab.

(** *** Fuel *)

Lemma lex_loop_more_fuel fuel fuel' l tokens r :
  lex_loop fuel l tokens = Some r -> (fuel <= fuel')%nat ->
  lex_loop fuel' l tokens = Some r.
Proof.
  revert fuel' l tokens. induction fuel as [|fuel IH]; intros fuel' l tokens H Hle;
    [discriminate H|].
  destruct fuel' as [|fuel']; [lia|]. cbn [lex_loop] in *.
  destruct (get_next_token l) as [[tok l']|e]; [|exact H].
  destruct (type tok); try exact H; apply IH; (exact H || lia).
Qed.

Lemma lex_eq_loop code fuel :
  (String.length code + 2 <= fuel)%nat ->
  lex_loop fuel (__init__ code) [] = lex code.
Proof.
  intros Hle. destruct (lex_total code) as [r Hr]. rewrite Hr.
  exact (lex_loop_more_fuel _ _ _ _ _ Hr Hle).
Qed.

(** *** White space *)

Lemma skip_whitespace_all_space ws l :
  all_space ws = true -> skip_whitespace (ws +:+ l) = skip_whitespace l.
Proof.
  induction ws as [|c ws IH]; intros H; [reflexivity|].
  cbn in H. apply andb_true_iff in H as [Hc H].
  rewrite append_cons. cbn [skip_whitespace]. rewrite Hc. exact (IH H).
Qed.

Lemma get_next_token_all_space ws l :
  all_space ws = true -> get_next_token (ws +:+ l) = get_next_token l.
Proof.
  intros H. rewrite get_next_token_skip_whitespace, (skip_whitespace_all_space _ _ H).
  symmetry. apply get_next_token_skip_whitespace.
Qed.

Lemma append_assoc (a b c : string) : (a +:+ b) +:+ c = a +:+ (b +:+ c).
Proof. induction a as [|x a IH]; [reflexivity|]. rewrite !append_cons, IH. reflexivity. Qed.

Lemma lex_skips_leading_space (ws code : string) :
  all_space ws = true -> lex (ws +:+ code) = lex code.
Proof.
  intros H. unfold lex at 1. unfold __init__. rewrite append_assoc.
  rewrite length_app_marker.
  replace (String.length ws + String.length code + 2)%nat
    with (S (String.length ws + String.length code + 1)) by lia.
  cbn [lex_loop]. rewrite (get_next_token_all_space _ _ H).
  change (lex_loop (S (String.length ws + String.length code + 1)) (__init__ code) [] = lex code).
  apply lex_eq_loop. lia.
Qed.

(** *** The tokens *)







(** *** Block comments *)

Lemma block_comment_loop_unclosed body :
  has_close body = false ->
  block_comment_loop (body +:+ "#") = Raise (ValueError "Unclosed block comment").
Proof.
  induction body as [|c r IH]; intros H; [reflexivity|].
  rewrite append_cons. cbn [block_comment_loop].
  assert (Hrec : has_close r = false).
  { cbn [has_close] in H. destruct c as [[] [] [] [] [] [] [] []]; try exact H.
    destruct r as [|d r']; [reflexivity|].
    destruct d as [[] [] [] [] [] [] [] []]; try exact H. discriminate H. }
  assert (Hc : Ascii.eqb c "*" && bool_decide (peek (String c (r +:+ "#")) = Some "/"%char) = false).
  { destruct (Ascii.eqb_spec c "*") as [->|]; [|reflexivity]. cbn [andb].
    apply bool_decide_eq_false. destruct r as [|d r']; [discriminate|].
    rewrite append_cons. cbn. intros E. injection E as ->. discriminate H. }
  rewrite Hc, (IH Hrec). reflexivity.
Qed.

(** *** Numbers *)

Lemma decimal_facts c :
  decimal c = true ->
  isdigit c = true /\ isalpha c = false /\ Ascii.eqb c "_" = false
  /\ Ascii.eqb c "#" = false /\ isspace c = false
  /\ code (pretty_N_char (code c - 48)) = code c.
Proof.
  intros H. destruct c as [[] [] [] [] [] [] [] []]; vm_compute in H; try discriminate H;
    repeat split; reflexivity.
Qed.

Lemma pretty_N_char_decimal d :
  d < 10 -> decimal (pretty_N_char d) = true /\ code (pretty_N_char d) - 48 = d.
Proof.
  intros H.
  destruct d as [|p]; [split; reflexivity|].
  do 4 (destruct p as [p|p|]; try lia; try (split; reflexivity)).
Qed.

Lemma pretty_N_go_app x s : pretty_N_go x s = pretty_N_go x "" +:+ s.
Proof.
  revert s. induction (N.lt_wf_0 x) as [x _ IH]; intros s.
  destruct (decide (x = 0)) as [->|Hx]; [rewrite !pretty_N_go_0; reflexivity|].
  rewrite !(pretty_N_go_step x) by lia.
  assert (Hlt : x `div` 10 < x) by (apply N.div_lt; lia).
  rewrite (IH _ Hlt (String _ s)), (IH _ Hlt (String _ "")).
  rewrite append_assoc. reflexivity.
Qed.

Lemma int_digits_app acc s1 s2 :
  int_digits acc (s1 +:+ s2)
  = match int_digits acc s1 with
    | Some a => int_digits a s2
    | None => None
    end.
Proof.
  revert acc. induction s1 as [|c s1 IH]; intros acc; [reflexivity|].
  rewrite append_cons. cbn [int_digits]. destruct (between 48 57 c); [apply IH|reflexivity].
Qed.

(** Reading the digits of [x] after an accumulator [acc] multiplies
    [acc] by a power of ten and adds [x]. *)
Lemma int_digits_pretty_go x :
  forallb decimal (list_ascii_of_string (pretty_N_go x "")) = true
  /\ exists p, forall acc, int_digits acc (pretty_N_go x "") = Some (acc * p + x).
Proof.
  induction (N.lt_wf_0 x) as [x _ IH].
  destruct (decide (x = 0)) as [->|Hx].
  { rewrite pretty_N_go_0. split; [reflexivity|]. exists 1. intros acc. cbn. f_equal. lia. }
  assert (Hlt : x `div` 10 < x) by (apply N.div_lt; lia).
  destruct (IH _ Hlt) as [Hall [p Hp]].
  rewrite pretty_N_go_step by lia. rewrite pretty_N_go_app.
  assert (Hm : x `mod` 10 < 10) by (apply N.mod_lt; lia).
  destruct (pretty_N_char_decimal _ Hm) as [Hd Hv].
  split.
  - clear Hp. revert Hall. generalize (pretty_N_go (x `div` 10) "").
    induction s as [|c s IHs]; intros H.
    + rewrite append_nil. cbn [list_ascii_of_string forallb]. rewrite Hd. reflexivity.
    + rewrite append_cons. cbn [list_ascii_of_string forallb] in *.
      apply andb_true_iff in H as [-> H]. exact (IHs H).
  - exists (p * 10). intros acc. rewrite int_digits_app, Hp. cbn [int_digits].
    unfold decimal in Hd. rewrite Hd, Hv. f_equal.
    pose proof (N.div_mod x 10). lia.
Qed.

Lemma pretty_N_digits (n : N) :
  pretty n <> EmptyString
  /\ forallb decimal (list_ascii_of_string (pretty n)) = true
  /\ int_digits 0 (pretty n) = Some n.
Proof.
  unfold pretty, pretty_N. destruct (decide (n = 0)) as [->|Hn].
  { split; [discriminate|split; reflexivity]. }
  destruct (int_digits_pretty_go n) as [Hall [p Hp]].
  split; [|split; [exact Hall | rewrite Hp; f_equal; lia]].
  rewrite pretty_N_go_step by lia. rewrite pretty_N_go_app.
  destruct (pretty_N_go (n `div` 10) ""); discriminate.
Qed.

Lemma take_while_digits s :
  forallb decimal (list_ascii_of_string s) = true ->
  take_while isdigit (s +:+ "#") = (s, "#").
Proof.
  induction s as [|c s IH]; intros H; [reflexivity|].
  cbn in H. apply andb_true_iff in H as [Hc H].
  rewrite append_cons. cbn [take_while].
  rewrite (proj1 (decimal_facts c Hc)), (IH H). reflexivity.
Qed.

Lemma leading_decimals_all s :
  forallb decimal (list_ascii_of_string s) = true ->
  leading_decimals s = String.length s.
Proof.
  induction s as [|c s IH]; intros H; [reflexivity|].
  cbn in H. apply andb_true_iff in H as [Hc H].
  cbn [leading_decimals String.length]. unfold decimal in Hc. rewrite Hc, (IH H). reflexivity.
Qed.

(** [int(str(n))] is [n] up to [int_max_str_digits] digits. *)
Lemma int_pretty (n : N) :
  int (pretty n)
  = if int_max_str_digits <? N.of_nat (String.length (pretty n))
    then Raise (too_many_digits (String.length (pretty n)))
    else Ok n.
Proof.
  destruct (pretty_N_digits n) as (Hne & Hall & Hval).
  unfold int. rewrite (leading_decimals_all _ Hall).
  destruct (pretty n) as [|c s]; [contradiction Hne; reflexivity|].
  rewrite Hval. reflexivity.
Qed.

Lemma leading_decimals_odd c s :
  decimal c = false -> leading_decimals (String c s) = 0%nat.
Proof. intros H. cbn [leading_decimals]. unfold decimal in H. rewrite H. reflexivity. Qed.

(** [int] on a string that starts with a digit that is not decimal. *)
Lemma int_odd c s : decimal c = false -> int (String c s) = Raise (invalid_literal (String c s)).
Proof.
  intros H. unfold int. rewrite (leading_decimals_odd c s H).
  change (int_max_str_digits <? N.of_nat 0) with false. cbv iota.
  cbn [int_digits]. unfold decimal in H. rewrite H. reflexivity.
Qed.

End LexMore.

(** ** Lexer: termination, tokens, comments, numbers *)

Module LexProps.
Import Lexer LexSpec LexFacts LexVocab LexMore.

(** X1 (the lexer terminates).  Every token other than [EOF] that
    [get_next_token] returns has consumed at least one character of the
    text, and [lex] returns, with a token list or an exception, on every
    source string. *)
Theorem lex_terminates :
  (forall l tok l', get_next_token l = Ok (tok, l') -> type tok <> EOF ->
                    (String.length l' < String.length l)%nat)
  /\ forall code, exists r, lex code = Some r.
Proof. split; [exact get_next_token_consumes | exact lex_total]. Qed.



(** X3 (leading white space).  White space in front of a source string
    does not change the result of [lex]. *)
Theorem lex_leading_space (ws code : string) :
  all_space ws = true -> lex (ws +:+ code) = lex code.
Proof. apply lex_skips_leading_space. Qed.

Lemma lex_leading_space_witness :
  lex (String (ascii_of_N 10) "  x") = lex "x".
Proof. apply (lex_leading_space (String (ascii_of_N 10) "  ") "x"). reflexivity. Defined.

(** X4 (unclosed block comment).  A source that opens a block comment
    and never closes it makes [lex] fail with
    [ValueError("Unclosed block comment")]: the end marker does not end
    the comment. *)
Theorem lex_unclosed_block_comment (body : string) :
  has_close body = false ->
  lex ("/*" +:+ body) = Some (Raise (ValueError "Unclosed block comment")).
Proof.
  intros H.
  assert (Hg : get_next_token (("/*" +:+ body) +:+ "#")
               = Raise (ValueError "Unclosed block comment")).
  { rewrite append_assoc.
    change (get_next_token ("/*" +:+ body +:+ "#"))
      with (read_block_comment ("/*" +:+ body +:+ "#")).
    unfold read_block_comment.
    change (advance (advance ("/*" +:+ body +:+ "#"))) with (body +:+ "#").
    rewrite (block_comment_loop_unclosed body H). reflexivity. }
  unfold lex, __init__.
  replace (String.length ("/*" +:+ body) + 2)%nat
    with (S (String.length ("/*" +:+ body) + 1)) by lia.
  cbn [lex_loop]. rewrite Hg. reflexivity.
Qed.

Lemma lex_unclosed_block_comment_witness :
  lex "/* x * / y" = Some (Raise (ValueError "Unclosed block comment")).
Proof. apply (lex_unclosed_block_comment " x * / y"). reflexivity. Defined.

(** X5 (numbers round trip).  The decimal text of a natural number [n]
    of at most 4300 digits, as [str(n)] prints it, is read back by [lex]
    as the one token [LITERAL n].  On a text of more digits [int] in
    [read_number] raises its [ValueError] for the digit limit, and [lex]
    fails with it. *)
Theorem lex_pretty_literal (n : N) :
  lex (pretty n)
  = if int_max_str_digits <? N.of_nat (String.length (pretty n))
    then Some (Raise (too_many_digits (String.length (pretty n))))
    else Some (Ok [mkToken LITERAL (VInt n)]).
Proof.
  destruct (pretty_N_digits n) as (Hne & Hall & _).
  pose proof (int_pretty n) as Hint.
  unfold lex, __init__.
  replace (String.length (pretty n) + 2)%nat with (S (S (String.length (pretty n)))) by lia.
  cbn [lex_loop].
  assert (Hg : get_next_token (pretty n +:+ "#")
               = match int (pretty n) with
                 | Ok v => Ok (mkToken LITERAL (VInt v), "#")
                 | Raise e => Raise e
                 end).
  { pose proof (take_while_digits _ Hall) as Htw.
    destruct (pretty n) as [|c s] eqn:E; [contradiction Hne; reflexivity|].
    cbn in Hall. apply andb_true_iff in Hall as [Hc _].
    destruct (decimal_facts c Hc) as (Hd & Ha & Hu & Hm & Hs & _).
    rewrite append_cons in *. cbn [get_next_token]. rewrite Hm, Hs.
    unfold scan. rewrite Ha, Hu, Hd. cbn [orb]. unfold read_number.
    rewrite Htw. reflexivity. }
  rewrite Hg, Hint.
  destruct (int_max_str_digits <? N.of_nat (String.length (pretty n))); reflexivity.
Qed.

(** X6 (digits that are no decimal digits).  A number that starts with a
    character which [str.isdigit] accepts and [int] does not (a
    superscript digit) makes [get_next_token] fail with the [ValueError]
    of [int], not with the lexer's own error for an invalid character.
    The message is that of [int]: [invalid literal for int() with base
    10:] and the [repr], cut at 200 characters, of the digits that
    [read_number] has collected. *)
Theorem odd_digit_raises (c : ascii) (rest : string) :
  odd_digit c = true ->
  get_next_token (String c rest)
  = Raise (invalid_literal (String c (fst (take_while isdigit rest)))).
Proof.
  intros H. unfold odd_digit in H. apply andb_true_iff in H as [Hd Hn].
  apply negb_true_iff in Hn.
  assert (Hf : Ascii.eqb c "#" = false /\ isspace c = false
               /\ isalpha c = false /\ Ascii.eqb c "_" = false).
  { destruct c as [[] [] [] [] [] [] [] []]; vm_compute in Hd; try discriminate Hd;
      vm_compute in Hn; try discriminate Hn; repeat split; reflexivity. }
  destruct Hf as (Hm & Hs & Ha & Hu).
  cbn [get_next_token]. rewrite Hm, Hs. unfold scan. rewrite Ha, Hu, Hd. cbn [orb].
  unfold read_number. cbn [take_while]. rewrite Hd.
  destruct (take_while isdigit rest) as [buf r]. cbn [fst].
  rewrite (int_odd c buf Hn). reflexivity.
Qed.

Lemma odd_digit_raises_witness :
  get_next_token (String (ascii_of_N 178) "1#")
  = Raise (ValueError ("invalid literal for int() with base 10: '"
                       +:+ String (ascii_of_N 178) "1'")).
Proof. apply (odd_digit_raises (ascii_of_N 178) "1#"). reflexivity. Defined.

End LexProps.

(** ** Semantic analyzer: scopes, loop depth and symbols *)

Module SemaInvFacts.
Import Sema SemaSpec SemaFacts SemaInv.

(** *** Sequencing, for any preorder *)

Section Sequencing.

Context (R : analyzer -> analyzer -> Prop) `{!PreOrder R}.

Lemma h_ret {T} (x : T) : holds R (ret x).
Proof. intros a y a' H. injection H as <- <-. reflexivity. Qed.

Lemma h_raise {T} e : holds R (raise (A := T) e).
Proof. intros a y a' H. discriminate H. Qed.

Lemma h_raise_if c e : holds R (raise_if c e).
Proof. destruct c; [apply h_raise | apply h_ret]. Qed.

Lemma h_get : holds R (get (S := analyzer)).
Proof. intros a y a' H. injection H as <- <-. reflexivity. Qed.

Lemma h_bind {T U} (m : A T) (k : T -> A U) :
  holds R m -> (forall x, holds R (k x)) -> holds R (bind m k).
Proof.
  intros Hm Hk a y a' H. apply bind_Ok in H. destruct H as (x & a1 & H1 & H2).
  transitivity a1; [eapply Hm, H1 | eapply Hk, H2].
Qed.

Lemma h_for_each {T} (f : T -> A unit) l :
  Forall (fun x => holds R (f x)) l -> holds R (for_each f l).
Proof.
  induction 1 as [|x l Hx Hl IH]; simpl.
  - apply h_ret.
  - apply h_bind; auto.
Qed.

Lemma h_list_comp {T U} (f : T -> A U) l :
  Forall (fun x => holds R (f x)) l -> holds R (list_comp f l).
Proof.
  induction 1 as [|x l Hx Hl IH]; simpl.
  - apply h_ret.
  - apply h_bind; [assumption|]. intros y.
    apply h_bind; [assumption|]. intros ys. apply h_ret.
Qed.

Lemma h_for_zip {T U} (f : T -> U -> A unit) l1 l2 :
  Forall (fun x => forall y, holds R (f x y)) l1 -> holds R (for_zip f l1 l2).
Proof.
  intros H. revert l2. induction H as [|x l Hx Hl IH]; intros [|y l2]; simpl;
    try apply h_ret.
  apply h_bind; auto.
Qed.

Lemma h_block_elements {T} (f_elem : node -> A unit) (f_last : node -> A T) l :
  Forall (fun x => holds R (f_elem x) /\ holds R (f_last x)) l ->
  holds R (block_elements f_elem f_last l).
Proof.
  induction 1 as [|x l [Hx1 Hx2] Hl IH]; simpl.
  - apply h_raise.
  - destruct l as [|y l]; [assumption|]. apply h_bind; [assumption|]. intros _. exact IH.
Qed.

Lemma h_first_break {T} (f_break : node -> A T) l :
  Forall (fun x => tag_is x "BreakStmt" = true -> holds R (f_break x)) l ->
  holds R (first_break f_break l).
Proof.
  induction 1 as [|x l Hx Hl IH]; simpl.
  - apply h_raise.
  - destruct (tag_is x "BreakStmt"); auto.
Qed.

Lemma h_in_current_env n : holds R (in_current_env n).
Proof.
  intros a x a' H. unfold in_current_env in H. destruct (env_stack a); [discriminate|].
  injection H as <- <-. reflexivity.
Qed.

Lemma h_lookup_variable n : holds R (lookup_variable n).
Proof. intros a x a' H. apply lookup_variable_state in H. subst. reflexivity. Qed.

Lemma h_deref addr : holds R (deref addr).
Proof.
  intros a x a' H. unfold deref in H. destruct (symbols a !! addr); [|discriminate].
  injection H as <- <-. reflexivity.
Qed.

End Sequencing.

(** *** The methods, for any pair of relations that the primitive steps
    respect *)

Section Invariant.

Context (Re Rs : analyzer -> analyzer -> Prop) `{!PreOrder Re, !PreOrder Rs}.

Hypothesis Re_Rs : forall a a', Re a a' -> Rs a a'.
Hypothesis R_declare : forall n t m i, holds Rs (declare_variable n t m i).
Hypothesis R_set_initialized : forall addr, holds Re (set_initialized addr).
Hypothesis R_borrow : forall ref_mut addr, holds Re (borrow ref_mut addr).
(** Leaving a scope undoes entering it. *)
Hypothesis R_scope : forall a a2 a3,
  Rs (set_env_stack (∅ :: env_stack a) a) a2 -> pop_env a2 = Ok (tt, a3) -> Re a a3.
(** Leaving a loop undoes entering it. *)
Hypothesis R_loop : forall a a2,
  Rs (set_loop_depth (loop_depth a + 1)%Z a) a2 ->
  Rs a (set_loop_depth (loop_depth a2 - 1)%Z a2).

Lemma h_weaken {T} (m : A T) : holds Re m -> holds Rs m.
Proof. intros H a x a' Hm. apply Re_Rs. exact (H a x a' Hm). Qed.

Lemma h_scope_ret {T} (body : A T) :
  holds Rs body ->
  holds Re (bind push_env (fun _ => bind body (fun x => bind pop_env (fun _ => ret x)))).
Proof.
  intros Hb a y a' H.
  apply bind_Ok in H. destruct H as ([] & a1 & H1 & H).
  apply bind_Ok in H. destruct H as (x & a2 & H2 & H).
  apply bind_Ok in H. destruct H as ([] & a3 & H3 & H).
  injection H1 as <-. injection H as _ <-.
  exact (R_scope _ _ _ (Hb _ _ _ H2) H3).
Qed.

Lemma h_scope (body : A unit) :
  holds Rs body -> holds Re (bind push_env (fun _ => bind body (fun _ => pop_env))).
Proof.
  intros Hb a y a' H.
  apply bind_Ok in H. destruct H as ([] & a1 & H1 & H).
  apply bind_Ok in H. destruct H as (x & a2 & H2 & H).
  injection H1 as <-. destruct y.
  exact (R_scope _ _ _ (Hb _ _ _ H2) H).
Qed.

Lemma h_loop (body : A unit) :
  holds Rs body ->
  holds Rs (bind incr_loop_depth (fun _ => bind body (fun _ => decr_loop_depth))).
Proof.
  intros Hb a y a' H.
  apply bind_Ok in H. destruct H as ([] & a1 & H1 & H).
  apply bind_Ok in H. destruct H as (x & a2 & H2 & H).
  injection H1 as <-. injection H as _ <-.
  exact (R_loop _ _ (Hb _ _ _ H2)).
Qed.

Lemma h_for (body : A unit) :
  holds Rs body ->
  holds Rs (bind incr_loop_depth (fun _ =>
            bind push_env (fun _ =>
            bind body (fun _ => bind pop_env (fun _ => decr_loop_depth))))).
Proof.
  intros Hb a y a' H.
  apply bind_Ok in H. destruct H as ([] & a1 & H1 & H).
  apply bind_Ok in H. destruct H as ([] & a2 & H2 & H).
  apply bind_Ok in H. destruct H as (x & a3 & H3 & H).
  apply bind_Ok in H. destruct H as ([] & a4 & H4 & H).
  injection H1 as <-. injection H2 as <-. injection H as _ <-.
  apply R_loop, Re_Rs. exact (R_scope _ _ _ (Hb _ _ _ H3) H4).
Qed.

Ltac inv_simpl :=
  cbn [tag_is node_type String.eqb Ascii.eqb Bool.eqb infer_opt inv_sub inv_visit_sub
       orb andb] in *.

Ltac inv_step :=
  match goal with
  | H : holds ?R ?m |- holds ?R ?m => exact H
  | H : holds Re ?m |- holds Rs ?m => exact (h_weaken _ H)
  | H : _ /\ _ |- _ => destruct H
  | H : inv_all _ _ _ |- _ => destruct H as [? [? ?]]
  | H : forall x, Some ?n = Some x -> _ |- _ => specialize (H n eq_refl)
  | H : forall x, None = Some x -> _ |- _ => clear H
  | |- holds Re (bind push_env (fun _ => bind _ (fun x => bind pop_env (fun _ => ret x)))) =>
      apply h_scope_ret
  | |- holds Re (bind push_env (fun _ => bind _ (fun _ => pop_env))) => apply h_scope
  | |- holds Rs (bind push_env (fun _ => bind _ (fun _ => pop_env))) =>
      apply h_weaken, h_scope
  | |- holds Rs (bind incr_loop_depth (fun _ => bind push_env _)) => apply h_for
  | |- holds Rs (bind incr_loop_depth _) => apply h_loop
  | |- holds ?R (bind _ _) => apply (h_bind R); [|intros ?]
  | |- holds ?R (ret _) => apply (h_ret R)
  | |- holds ?R (raise _) => apply (h_raise R)
  | |- holds ?R (raise_if _ _) => apply (h_raise_if R)
  | |- holds ?R get => apply (h_get R)
  | |- holds ?R (in_current_env _) => apply (h_in_current_env R)
  | |- holds ?R (lookup_variable _) => apply (h_lookup_variable R)
  | |- holds ?R (deref _) => apply (h_deref R)
  | |- holds Rs (declare_variable _ _ _ _) => apply R_declare
  | |- holds Re (set_initialized _) => apply R_set_initialized
  | |- holds Rs (set_initialized _) => apply h_weaken, R_set_initialized
  | |- holds Re (borrow _ _) => apply R_borrow
  | |- holds Rs (borrow _ _) => apply h_weaken, R_borrow
  | |- holds ?R (for_each _ _) =>
      apply (h_for_each R);
      eapply Forall_impl; [eassumption|]; intros ? ?; cbv beta in *
  | |- holds ?R (list_comp _ _) =>
      apply (h_list_comp R);
      eapply Forall_impl; [eassumption|]; intros ? ?; cbv beta in *
  | |- holds ?R (for_zip _ _ _) =>
      apply (h_for_zip R);
      eapply Forall_impl; [eassumption|]; intros ? ? ?; cbv beta in *
  | |- holds ?R (first_break _ _) => apply (h_first_break R); assumption
  | |- holds ?R (block_elements _ _ _) =>
      apply (h_block_elements R);
      eapply Forall_impl; [eassumption|]; intros ? ?; cbv beta in *; split
  | |- holds _ (infer_opt _ ?o) => destruct o; inv_simpl
  | |- holds _ (if tag_is ?x _ then _ else _) => is_var x; destruct x; inv_simpl
  | |- holds _ (if tag_is ?x _ || _ then _ else _) => is_var x; destruct x; inv_simpl
  | |- holds _ (if ?c then _ else _) => destruct c
  | |- holds _ (match ?x with _ => _ end) => destruct x; inv_simpl
  end.

Lemma option_all_inv o :
  option_all node (fun n => inv_all Re Rs n /\ inv_sub Re n) o ->
  forall x, o = Some x -> inv_all Re Rs x /\ inv_sub Re x.
Proof. intros H. destruct H; intros x Hx; [injection Hx as <-; assumption | discriminate]. Qed.

Lemma inv_sub_elements l :
  Forall (fun n => inv_all Re Rs n /\ inv_sub Re n) l ->
  Forall (fun e => tag_is e "BreakStmt" = true -> holds Re (infer_break e)) l.
Proof.
  intros H. eapply Forall_impl; [exact H|]. intros e [_ He] Htag.
  destruct e; try discriminate Htag. unfold infer_break.
  destruct expression as [x|]; cbn [infer_opt inv_sub] in *; [assumption | apply (h_raise Re)].
Qed.

Theorem inv_infer n : inv_all Re Rs n /\ inv_sub Re n.
Proof.
  induction n.
  all: repeat match goal with
         | IH : inv_all _ _ _ /\ inv_sub _ _ |- _ => destruct IH as [[? [? ?]] ?]
         | IH : list_all _ _ _ |- _ => apply list_all_Forall in IH
         | IH : option_all _ _ ?o |- _ => pose proof (option_all_inv o IH); clear IH
         end.
  all: split; [split; [|split]|]; sem_dispatch.
  all: repeat inv_step.
  all: try (cbn [inv_sub]; auto; fail).
  - destruct expression as [x|]; cbn [inv_sub]; [|exact I].
    destruct (H0 x eq_refl) as [[? _] _]. assumption.
  - apply inv_sub_elements. assumption.
  - apply inv_sub_elements. assumption.
  - apply inv_sub_elements. assumption.
Qed.

Ltac inv_visit_step :=
  match goal with
  | |- holds Re (infer_expr_type _) => apply inv_infer
  | |- holds Rs (infer_expr_type _) => apply h_weaken, inv_infer
  | |- holds Rs (check_var_decl _) => apply inv_infer
  | |- holds Re (check_assignment _) => apply inv_infer
  | |- holds Rs (check_assignment _) => apply h_weaken, inv_infer
  | H : inv_visit _ ?n |- holds Rs (visit_stmt ?t ?n) => apply (H t)
  | H : inv_visit _ ?n |- holds Rs (check_if ?t ?n) => apply (H t)
  | _ => inv_step
  end.

Lemma inv_check_return stmt t : holds Rs (check_return stmt t).
Proof. unfold check_return. repeat inv_visit_step. Qed.

Lemma option_all_inv_visit o :
  option_all node (fun n => inv_visit Rs n /\ inv_visit_sub Rs n) o ->
  forall x, o = Some x -> inv_visit Rs x /\ inv_visit_sub Rs x.
Proof. intros H. destruct H; intros x Hx; [injection Hx as <-; assumption | discriminate]. Qed.

Theorem inv_visit_all n : inv_visit Rs n /\ inv_visit_sub Rs n.
Proof.
  induction n.
  all: repeat match goal with
         | IH : inv_visit _ _ /\ inv_visit_sub _ _ |- _ => destruct IH
         | IH : list_all _ _ _ |- _ => apply list_all_Forall in IH
         | IH : option_all _ _ ?o |- _ => pose proof (option_all_inv_visit o IH); clear IH
         end.
  all: split;
    [ intros t;
      match goal with
      | |- holds Rs (visit_stmt _ ?n) /\ _ =>
          assert (Hci : holds Rs (check_if t n)); [ | split; [ | exact Hci ] ]
      end
    | ].
  all: rewrite ?visit_stmt_eq, ?check_if_eq; unfold visit_stmt_body, check_if_body; inv_simpl.
  all: repeat inv_visit_step.
  all: try exact I.
  - apply inv_check_return.
  - eapply Forall_impl; [eassumption|]. intros x [Hx _]. exact Hx.
Qed.

Lemma inv_visit_block stmts t : holds Rs (visit_block stmts t).
Proof.
  unfold visit_block. apply (h_for_each Rs). apply Forall_forall.
  intros x _. apply (proj1 (inv_visit_all x) t).
Qed.

Lemma inv_visit_function n : holds Re (visit_function n).
Proof.
  unfold visit_function. apply h_scope.
  repeat inv_visit_step; try apply inv_visit_block.
  all: apply (h_for_each Rs); apply Forall_forall; intros p _; apply R_declare.
Qed.

End Invariant.

End SemaInvFacts.

(** ** Semantic analyzer: the two instances *)

Module SemaScopes.
Import Sema SemaSpec SemaFacts SemaInv SemaInvFacts.

#[export] Instance scopes_restored_preorder : PreOrder scopes_restored.
Proof.
  split.
  - intros a. repeat split.
  - intros a b c (E1 & D1 & F1 & A1) (E2 & D2 & F2 & A2).
    repeat split; congruence.
Qed.

#[export] Instance scope_extended_preorder : PreOrder scope_extended.
Proof.
  split.
  - intros a. repeat split. destruct (env_stack a); [exact I|]. split; [reflexivity|auto].
  - intros a b c (D1 & F1 & A1 & E1) (D2 & F2 & A2 & E2).
    split; [congruence|]. split; [congruence|]. split; [congruence|].
    destruct (env_stack a) as [|e1 r1], (env_stack b) as [|e2 r2], (env_stack c) as [|e3 r3];
      try contradiction; try exact I.
    destruct E1 as [-> H1], E2 as [-> H2]. split; [reflexivity|]. auto.
Qed.

Lemma scopes_restored_extended a a' : scopes_restored a a' -> scope_extended a a'.
Proof.
  intros (E & D & F & As). repeat split; try assumption.
  rewrite E. destruct (env_stack a); [exact I|]. split; [reflexivity|auto].
Qed.

Lemma scopes_same_but_symbols a ss : scopes_restored a (set_symbols ss a).
Proof. repeat split. Qed.

Lemma scopes_declare n t m i : holds scope_extended (declare_variable n t m i).
Proof.
  intros a x a' H. unfold declare_variable in H.
  destruct (env_stack a) as [|env r] eqn:E; [discriminate|].
  injection H as _ <-. repeat split; cbn. rewrite E. split; [reflexivity|].
  intros k Hk. destruct (decide (k = n)) as [->|Hne].
  - rewrite lookup_insert_eq. eauto.
  - rewrite lookup_insert_ne by congruence. exact Hk.
Qed.

Lemma scopes_set_initialized addr : holds scopes_restored (set_initialized addr).
Proof.
  intros a x a' H. unfold set_initialized, bind, deref, modify in H.
  destruct (symbols a !! addr); [|discriminate]. injection H as _ <-.
  apply scopes_same_but_symbols.
Qed.

Lemma scopes_borrow ref_mut addr : holds scopes_restored (borrow ref_mut addr).
Proof.
  intros a x a' H. unfold borrow, bind, deref in H.
  destruct (symbols a !! addr) as [s|] eqn:Hs; [|discriminate].
  destruct (raise_if (ref_mut && negb (mut s)) BorrowCheckError a) as [[[] a1]|] eqn:E1;
    [|discriminate].
  assert (a1 = a) as -> by (unfold raise_if in E1; destruct (_ && _); [discriminate|];
                            injection E1 as <-; reflexivity).
  destruct ref_mut.
  - destruct (borrowed_mut s || borrowed_immut s); cbn in H; [discriminate|].
    unfold set_borrowed_mut, bind, deref, modify in H. rewrite Hs in H.
    injection H as _ <-. apply scopes_same_but_symbols.
  - destruct (borrowed_mut s); cbn in H; [discriminate|].
    unfold set_borrowed_immut, bind, deref, modify in H. rewrite Hs in H.
    injection H as _ <-. apply scopes_same_but_symbols.
Qed.

Lemma scopes_scope a a2 a3 :
  scope_extended (set_env_stack (∅ :: env_stack a) a) a2 ->
  pop_env a2 = Ok (tt, a3) -> scopes_restored a a3.
Proof.
  intros (D & F & As & E) H. unfold pop_env in H. cbn in D, F, As, E.
  destruct (env_stack a2) as [|env r]; [discriminate|]. destruct E as [-> _].
  injection H as <-. repeat split; assumption.
Qed.

Lemma scopes_loop a a2 :
  scope_extended (set_loop_depth (loop_depth a + 1)%Z a) a2 ->
  scope_extended a (set_loop_depth (loop_depth a2 - 1)%Z a2).
Proof.
  intros (D & F & As & E). cbn in D, F, As, E. repeat split; cbn; try assumption. lia.
Qed.

Ltac scopes_side :=
  first [ exact scopes_restored_extended | exact scopes_declare
        | exact scopes_set_initialized | exact scopes_borrow
        | exact scopes_scope | exact scopes_loop | typeclasses eauto ].

Lemma scopes_infer n :
  inv_all scopes_restored scope_extended n /\ inv_sub scopes_restored n.
Proof. apply inv_infer; scopes_side. Qed.

Lemma scopes_visit n :
  inv_visit scope_extended n /\ inv_visit_sub scope_extended n.
Proof. apply (inv_visit_all scopes_restored); scopes_side. Qed.

Lemma scopes_visit_block stmts t : holds scope_extended (visit_block stmts t).
Proof. apply (inv_visit_block scopes_restored); scopes_side. Qed.

Lemma scopes_visit_function n : holds scopes_restored (visit_function n).
Proof. apply (inv_visit_function scopes_restored scope_extended); scopes_side. Qed.

(** *** The symbol store *)

#[export] Instance symbols_stable_preorder : PreOrder symbols_stable.
Proof.
  split.
  - intros a addr s Hs. exists s. auto.
  - intros a b c H1 H2 addr s Hs.
    destruct (H1 addr s Hs) as (s1 & Hs1 & N1 & T1 & M1 & I1).
    destruct (H2 addr s1 Hs1) as (s2 & Hs2 & N2 & T2 & M2 & I2).
    exists s2. repeat split; try congruence. auto.
Qed.

Lemma stable_same_symbols a a' : symbols a' = symbols a -> symbols_stable a a'.
Proof. intros E addr s Hs. rewrite E. exists s. auto. Qed.

Lemma stable_update a addr s s' :
  symbols a !! addr = Some s ->
  name s' = name s -> type s' = type s -> mut s' = mut s ->
  (initialized s = true -> initialized s' = true) ->
  symbols_stable a (set_symbols (<[addr := s']> (symbols a)) a).
Proof.
  intros Hs N T Mu I addr' t Ht. cbn. destruct (decide (addr' = addr)) as [->|Hne].
  - exists s'. rewrite list_lookup_insert_eq by (eapply lookup_lt_Some; eassumption).
    rewrite Hs in Ht. injection Ht as <-. auto.
  - exists t. rewrite list_lookup_insert_ne by congruence. auto.
Qed.

Lemma stable_declare n t m i : holds symbols_stable (declare_variable n t m i).
Proof.
  intros a x a' H. unfold declare_variable in H. destruct (env_stack a); [discriminate|].
  injection H as _ <-. intros addr s Hs. exists s. cbn.
  split; [apply lookup_app_l_Some; exact Hs|auto].
Qed.

Lemma stable_set_initialized addr : holds symbols_stable (set_initialized addr).
Proof.
  intros a x a' H. unfold set_initialized, bind, deref, modify in H.
  destruct (symbols a !! addr) as [s|] eqn:Hs; [|discriminate]. injection H as _ <-.
  eapply stable_update; eauto.
Qed.

Lemma stable_borrow ref_mut addr : holds symbols_stable (borrow ref_mut addr).
Proof.
  intros a x a' H. unfold borrow, bind, deref in H.
  destruct (symbols a !! addr) as [s|] eqn:Hs; [|discriminate].
  destruct (raise_if (ref_mut && negb (mut s)) BorrowCheckError a) as [[[] a1]|] eqn:E1;
    [|discriminate].
  assert (a1 = a) as -> by (unfold raise_if in E1; destruct (_ && _); [discriminate|];
                            injection E1 as <-; reflexivity).
  destruct ref_mut.
  - destruct (borrowed_mut s || borrowed_immut s); cbn in H; [discriminate|].
    unfold set_borrowed_mut, bind, deref, modify in H. rewrite Hs in H.
    injection H as _ <-. eapply stable_update; eauto.
  - destruct (borrowed_mut s); cbn in H; [discriminate|].
    unfold set_borrowed_immut, bind, deref, modify in H. rewrite Hs in H.
    injection H as _ <-. eapply stable_update; eauto.
Qed.

Lemma stable_scope a a2 a3 :
  symbols_stable (set_env_stack (∅ :: env_stack a) a) a2 ->
  pop_env a2 = Ok (tt, a3) -> symbols_stable a a3.
Proof.
  intros H Hp. unfold pop_env in Hp. destruct (env_stack a2); [discriminate|].
  injection Hp as <-. exact H.
Qed.

Lemma stable_loop a a2 :
  symbols_stable (set_loop_depth (loop_depth a + 1)%Z a) a2 ->
  symbols_stable a (set_loop_depth (loop_depth a2 - 1)%Z a2).
Proof. intros H. exact H. Qed.

Lemma stable_visit_function n : holds symbols_stable (visit_function n).
Proof.
  apply (inv_visit_function symbols_stable symbols_stable);
    first [ exact (fun _ _ H => H) | exact stable_declare | exact stable_set_initialized
          | exact stable_borrow | exact stable_scope | exact stable_loop
          | typeclasses eauto ].
Qed.

(** *** The two passes of [analyze] *)

Lemma for_each_app {S T} (f : T -> M S unit) l1 l2 s s' :
  for_each f (l1 ++ l2) s = Ok (tt, s') ->
  exists s1, for_each f l1 s = Ok (tt, s1) /\ for_each f l2 s1 = Ok (tt, s').
Proof.
  revert s. induction l1 as [|x l1 IH]; intros s H; simpl in *.
  - eauto.
  - apply bind_Ok in H. destruct H as ([] & s0 & H1 & H2).
    destruct (IH _ H2) as (s1 & Ha & Hb). exists s1. split; [|exact Hb].
    unfold bind. rewrite H1. exact Ha.
Qed.

Lemma declared_cons n d r :
  declared n (d :: r)
  = if bool_decide (node_name d = Some n)
    then Some (default d (declared n r))
    else declared n r.
Proof.
  unfold declared.
  destruct (decide (node_name d = Some n)) as [E|E].
  - rewrite bool_decide_eq_true_2 by exact E.
    rewrite filter_cons_True by exact E.
    destruct (filter _ r) as [|y l] eqn:El; [reflexivity|].
    rewrite last_cons. destruct (last (y :: l)) eqn:E2; [reflexivity|].
    apply last_None in E2. discriminate.
  - rewrite bool_decide_eq_false_2 by exact E.
    rewrite filter_cons_False by exact E. reflexivity.
Qed.

Lemma collect_functions decls a a1 :
  for_each set_function decls a = Ok (tt, a1) ->
  env_stack a1 = env_stack a /\ loop_depth a1 = loop_depth a /\ symbols a1 = symbols a
  /\ ast a1 = ast a
  /\ forall n, functions a1 !! n
               = match declared n decls with
                 | Some d => Some d
                 | None => functions a !! n
                 end.
Proof.
  revert a. induction decls as [|d r IH]; intros a H; simpl in H.
  - injection H as <-. repeat split.
  - apply bind_Ok in H. destruct H as ([] & a0 & H1 & H2).
    unfold set_function in H1. destruct (node_name d) as [k|] eqn:Ek; [|discriminate].
    injection H1 as <-. destruct (IH _ H2) as (E & D & S & As & F). cbn in E, D, S, As, F.
    repeat split; try assumption. intros n. rewrite F, declared_cons.
    destruct (declared n r) as [x|] eqn:Ed.
    + destruct (bool_decide _); reflexivity.
    + case_bool_decide as Hn.
      * rewrite Ek in Hn. injection Hn as ->. rewrite lookup_insert_eq. reflexivity.
      * rewrite lookup_insert_ne by congruence. reflexivity.
Qed.

Lemma analyze_passes decls a' :
  analyze (__init__ (Program decls)) = Ok (tt, a') ->
  exists a1,
    for_each set_function decls (__init__ (Program decls)) = Ok (tt, a1)
    /\ for_each visit_function decls a1 = Ok (tt, a').
Proof.
  unfold analyze. intros H.
  apply bind_Ok in H. destruct H as (a & a0 & H0 & H). injection H0 as <- <-.
  apply bind_Ok in H. destruct H as ([] & a0 & H0 & H). injection H0 as <-.
  cbn [Sema.ast __init__] in H.
  apply bind_Ok in H. destruct H as ([] & a1 & H1 & H). eauto.
Qed.

Lemma visit_functions_restore decls :
  holds scopes_restored (for_each visit_function decls).
Proof.
  apply (h_for_each scopes_restored), Forall_forall. intros d _.
  apply scopes_visit_function.
Qed.

End SemaScopes.

(** ** Semantic analyzer: scopes, symbols, functions *)

Module SemaProps.
Import Sema SemaSpec SemaFacts SemaInv SemaInvFacts SemaScopes.

(** X7 (expressions leave the scopes alone).  A successful
    [infer_expr_type] ends with the scope stack, the loop depth and the
    function table it started with: what a block expression declares is
    gone when the block ends. *)
Theorem expression_restores_scopes (e : node) (a : analyzer) (t : tyval) (a' : analyzer) :
  infer_expr_type e a = Ok (t, a') -> scopes_restored a a'.
Proof. intros H. exact (proj1 (proj1 (scopes_infer e)) a t a' H). Qed.

Lemma expression_restores_scopes_witness :
  scopes_restored (__init__ (Program []))
    (set_symbols [mkSymbol "x" TI32 false true false false] (__init__ (Program []))).
Proof.
  apply (expression_restores_scopes
           (FunctionExprBlock [VarDecl false "x" TNone (Some (Literal 1)); Identifier "x"])
           (__init__ (Program [])) TI32).
  vm_compute. reflexivity.
Defined.

(** X8 (statements keep the enclosing scopes).  A successful
    [visit_block] ends with the loop depth and the function table it
    started with; the enclosing scopes are untouched, and the current
    scope still binds every name it bound. *)
Theorem statements_keep_scopes (stmts : list node) (t : tyval) (a a' : analyzer) :
  visit_block stmts t a = Ok (tt, a') -> scope_extended a a'.
Proof. intros H. exact (scopes_visit_block stmts t a tt a' H). Qed.

Lemma statements_keep_scopes_witness :
  scope_extended (__init__ (Program []))
    (Analyzer (Program []) [{[ "i" := 0%nat ]}] 0 ∅ [mkSymbol "i" TI32 true true false false;
                                                      mkSymbol "j" TI32 false true false false]).
Proof.
  apply (statements_keep_scopes
           [VarDecl true "i" TI32 (Some (Literal 0));
            ForStmt false "j" TNone (Literal 0) (Literal 3)
              (Block [Assignment (Identifier "i") (Identifier "j"); BreakStmt None])]
           TNone).
  vm_compute. reflexivity.
Defined.

(** X9 (the analysis ends where it began).  After a successful
    [analyze] the scope stack is the global scope alone, still empty, and
    the loop depth is 0. *)
Theorem analyze_ends_at_global_scope (program : node) (a' : analyzer) :
  analyze (__init__ program) = Ok (tt, a') ->
  env_stack a' = [∅] /\ loop_depth a' = 0%Z.
Proof.
  intros H.
  destruct program; try (unfold analyze in H; cbn in H; discriminate H).
  destruct (analyze_passes _ _ H) as (a1 & H1 & H2).
  destruct (collect_functions _ _ _ H1) as (E1 & D1 & _).
  destruct (visit_functions_restore _ _ _ _ H2) as (E2 & D2 & _).
  cbn in E1, D1. split; congruence.
Qed.

Lemma analyze_ends_at_global_scope_witness :
  env_stack analyzed_shared = [∅] /\ loop_depth analyzed_shared = 0%Z.
Proof.
  apply (analyze_ends_at_global_scope Programs.ast_borrow_shared). vm_compute. reflexivity.
Defined.

(** X10 (symbols are stable).  While a function is analysed no symbol
    is removed, no symbol changes its name, type or mutability, and no
    initialized symbol becomes uninitialized. *)
Theorem function_keeps_symbols (decl : node) (a a' : analyzer) :
  visit_function decl a = Ok (tt, a') -> symbols_stable a a'.
Proof. intros H. exact (stable_visit_function decl a tt a' H). Qed.

Lemma function_keeps_symbols_witness :
  symbols after_uninit_decl = [mkSymbol "a" TI32 true false false false]
  /\ symbols after_assign_in_g = [mkSymbol "a" TI32 true true false false]
  /\ symbols_stable after_uninit_decl after_assign_in_g.
Proof.
  split; [reflexivity|]. split; [reflexivity|].
  apply (function_keeps_symbols
           (FunctionDecl "g" [] TNone
              (FunctionExprBlock [Assignment (Identifier "a") (Literal 1)]))).
  vm_compute. reflexivity.
Defined.

Lemma lookup_variable_resolve n a :
  lookup_variable n a
  = match resolve (env_stack a) n with
    | Some addr => Ok (addr, a)
    | None => Raise UndeclaredVariableError
    end.
Proof.
  unfold lookup_variable. induction (env_stack a) as [|env r IH]; [reflexivity|].
  cbn [resolve]. destruct (env !! n); [reflexivity|exact IH].
Qed.

(** X11 (undeclared names).  [lookup_variable] raises
    [UndeclaredVariableError] exactly when no scope of the stack binds
    the name. *)
Theorem lookup_unbound (n : string) (a : analyzer) :
  unbound n a <-> lookup_variable n a = Raise UndeclaredVariableError.
Proof.
  unfold unbound, lookup_variable. induction (env_stack a) as [|env r IH].
  - split; [reflexivity|constructor].
  - split.
    + intros H. inversion H as [|? ? He Hr]; subst. rewrite He. apply IH, Hr.
    + intros H. destruct (env !! n) eqn:E; [discriminate H|].
      constructor; [exact E|]. apply IH, H.
Qed.

(** X12 (declare, then look up).  After [declare_variable] the name
    resolves to the new symbol, which carries the declared type and
    flags and is not borrowed; every other name resolves as before. *)
Theorem declare_then_lookup (n : string) (t : tyval) (m i : bool) (a a' : analyzer) :
  declare_variable n t m i a = Ok (tt, a') ->
  lookup_variable n a' = Ok (length (symbols a), a')
  /\ symbols a' !! length (symbols a) = Some (mkSymbol n t m i false false)
  /\ forall k, k <> n ->
       lookup_variable k a'
       = match lookup_variable k a with
         | Ok (addr, _) => Ok (addr, a')
         | Raise e => Raise e
         end.
Proof.
  unfold declare_variable. destruct (env_stack a) as [|env r] eqn:E; [discriminate|].
  intros H. injection H as <-. split; [|split].
  - unfold lookup_variable. cbn. rewrite lookup_insert_eq. reflexivity.
  - cbn. rewrite lookup_app_r by lia. rewrite Nat.sub_diag. reflexivity.
  - intros k Hk. rewrite !lookup_variable_resolve, E.
    cbn [env_stack set_env_stack set_symbols resolve].
    rewrite lookup_insert_ne by congruence.
    destruct (env !! k); [reflexivity|]. destruct (resolve r k); reflexivity.
Qed.

Lemma declare_then_lookup_witness :
  lookup_variable "a" after_init_decl = Ok (0%nat, after_init_decl).
Proof.
  pose proof (declare_then_lookup "a" TI32 true true
                (set_env_stack [∅; ∅] (__init__ Programs.ast_borrow_shared))
                after_init_decl) as H.
  apply H. vm_compute. reflexivity.
Defined.

(** X13 (the function table).  After a successful [analyze] the
    function table maps every name to the last declaration of that name
    in the program, wherever it stands, and holds no other name. *)
Theorem functions_table (declarations : list node) (a' : analyzer) :
  analyze (__init__ (Program declarations)) = Ok (tt, a') ->
  forall n, functions a' !! n = declared n declarations.
Proof.
  intros H n.
  destruct (analyze_passes _ _ H) as (a1 & H1 & H2).
  destruct (collect_functions _ _ _ H1) as (_ & _ & _ & _ & F).
  destruct (visit_functions_restore _ _ _ _ H2) as (_ & _ & F2 & _).
  rewrite F2, F. destruct (declared n declarations); [reflexivity|]. apply lookup_empty.
Qed.

Lemma functions_table_witness :
  functions analyzed_shared !! "program_6_2__6" = declared "program_6_2__6"
    match Programs.ast_borrow_shared with Program l => l | _ => [] end.
Proof.
  apply (functions_table _ analyzed_shared). vm_compute. reflexivity.
Defined.

(** X14 (break and continue in a function body).  On a program with a
    function whose body has a [break] or [continue] among its own
    elements, outside every loop, [analyze] raises an exception. *)
Theorem break_in_function_body_rejected (declarations : list node) (decl : node) :
  In decl declarations ->
  existsb is_break_or_continue (body_elements decl) = true ->
  exists e, run_analyze (Program declarations) = Raise e.
Proof.
  intros Hin Hbc. unfold run_analyze.
  destruct (analyze (__init__ (Program declarations))) as [[[] a']|e] eqn:H; [exfalso|eauto].
  destruct (analyze_passes _ _ H) as (a1 & H1 & H2).
  destruct (collect_functions _ _ _ H1) as (_ & D1 & _).
  apply in_split in Hin. destruct Hin as (pre & post & ->).
  apply for_each_app in H2. destruct H2 as (a2 & Hpre & Hrest).
  destruct (visit_functions_restore _ _ _ _ Hpre) as (_ & D2 & _).
  simpl in Hrest. apply bind_Ok in Hrest. destruct Hrest as ([] & a3 & Hv & _).
  destruct decl as [| fname params rt body | | | | | | | | | | | | | | | | | | | | | | | | | |];
    try discriminate Hbc.
  destruct body; try discriminate Hbc. cbn [body_elements] in Hbc.
  unfold visit_function in Hv.
  apply bind_Ok in Hv. destruct Hv as ([] & b1 & Hb1 & Hv). injection Hb1 as <-.
  apply bind_Ok in Hv. destruct Hv as ([] & b2 & Hv & _).
  apply bind_Ok in Hv. destruct Hv as ([] & b3 & Hparams & Hv).
  assert (D3 : loop_depth b3 = 0%Z).
  { assert (Hs : holds scope_extended
                   (for_each (fun p => declare_variable (p_name p) (p_type p) (p_mut p) true)
                             params)).
    { apply (h_for_each scope_extended), Forall_forall. intros p _. apply scopes_declare. }
    destruct (Hs _ _ _ Hparams) as (D & _). cbn in D. cbn in D1. congruence. }
  apply existsb_exists in Hbc. destruct Hbc as (x & Hx & Hbx).
  apply in_split in Hx. destruct Hx as (p & q & ->).
  unfold visit_block in Hv. apply for_each_app in Hv. destruct Hv as (b4 & Hp & Hq).
  destruct (scopes_visit_block _ _ _ _ _ Hp) as (D4 & _).
  simpl in Hq. apply bind_Ok in Hq. destruct Hq as ([] & b5 & Hx & _).
  rewrite visit_stmt_eq in Hx. unfold visit_stmt_body in Hx.
  assert (D5 : (loop_depth b4 =? 0)%Z = true) by (apply Z.eqb_eq; congruence).
  destruct x; try discriminate Hbx;
    cbn [tag_is node_type String.eqb Ascii.eqb Bool.eqb orb andb] in Hx;
    unfold bind, get in Hx; rewrite D5 in Hx; discriminate Hx.
Qed.

Lemma break_in_function_body_rejected_witness :
  exists e, run_analyze Programs.ast_break_top = Raise e.
Proof.
  refine (break_in_function_body_rejected _
            (FunctionDecl "program_5_4__2" [] TNone (FunctionExprBlock [BreakStmt None])) _ _).
  - left. reflexivity.
  - reflexivity.
Defined.

End SemaProps.

(** ** Quadruple generator: when a run fails *)

Module QuadOutcome.
Import QuadGen QuadSpec QuadFacts QuadProgram QuadVocab.

Lemma bind_Raise {S T U} (m : M S T) (k : T -> M S U) s e :
  bind m k s = Raise e ->
  m s = Raise e \/ exists x s1, m s = Ok (x, s1) /\ k x s1 = Raise e.
Proof.
  unfold bind. destruct (m s) as [[x s1]|e']; intros H.
  - right. eauto.
  - left. injection H as ->. reflexivity.
Qed.

Lemma post_frame strict g g' qs : post strict g g' qs -> frame g g' qs.
Proof. intros [Hq Ha Hs Hf Hl Ht _ _]. repeat split; assumption. Qed.

Lemma expr_stack n g v g' : _process_expr n g = Ok (v, g') -> loop_stack g' = loop_stack g.
Proof. intros H. destruct (proj1 (process_frame n) _ _ _ H) as [qs []]. assumption. Qed.

Lemma block_stack n g u g' : _process_block n g = Ok (u, g') -> loop_stack g' = loop_stack g.
Proof.
  intros H. destruct (proj1 (proj2 (process_frame n)) _ _ _ H) as [qs []]. assumption.
Qed.

Lemma elements_stack n g u g' :
  _process_elements n g = Ok (u, g') -> loop_stack g' = loop_stack g.
Proof.
  intros H. destruct (proj1 (proj2 (proj2 (process_frame n))) _ _ _ H) as [qs []]. assumption.
Qed.

Lemma statement_stack n g u g' :
  _process_statement n g = Ok (u, g') -> loop_stack g' = loop_stack g.
Proof.
  intros H. destruct (proj2 (proj2 (proj2 (process_frame n))) _ _ _ H) as [qs []]. assumption.
Qed.

Lemma for_each_stack {T} (f : T -> G unit) l :
  (forall x g u g', f x g = Ok (u, g') -> loop_stack g' = loop_stack g) ->
  forall g u g', for_each f l g = Ok (u, g') -> loop_stack g' = loop_stack g.
Proof.
  intros Hf. induction l as [|x l IH]; intros g u g' H; simpl in H.
  - injection H as _ <-. reflexivity.
  - apply bind_Ok in H. destruct H as (y & g1 & H1 & H2).
    rewrite (IH _ _ _ H2). exact (Hf _ _ _ _ H1).
Qed.

Lemma for_enumerate_stack {T} (f : N -> T -> G unit) l :
  (forall i x g u g', f i x g = Ok (u, g') -> loop_stack g' = loop_stack g) ->
  forall i g u g', for_enumerate f i l g = Ok (u, g') -> loop_stack g' = loop_stack g.
Proof.
  intros Hf. induction l as [|x l IH]; intros i g u g' H; simpl in H.
  - injection H as _ <-. reflexivity.
  - apply bind_Ok in H. destruct H as (y & g1 & H1 & H2).
    rewrite (IH _ _ _ _ H2). exact (Hf _ _ _ _ _ H1).
Qed.

(** The loop stack after the successful runs in the context. *)
Ltac stacks :=
  repeat match goal with
  | H : _process_expr _ ?g = Ok (_, ?g') |- _ =>
      lazymatch goal with
      | _ : loop_stack g' = _ |- _ => fail
      | _ => pose proof (expr_stack _ _ _ _ H)
      end
  | H : _process_block _ ?g = Ok (_, ?g') |- _ =>
      lazymatch goal with
      | _ : loop_stack g' = _ |- _ => fail
      | _ => pose proof (block_stack _ _ _ _ H)
      end
  end;
  gen_simpl.

(** Splits a failed run of a sequence: the step that raised, after the
    successful runs of the steps before it. *)
Ltac raise_inv H :=
  lazymatch type of H with
  | bind _ _ _ = Raise _ =>
      let x := fresh "x" in
      let g := fresh "g" in
      let Hok := fresh "Hok" in
      apply bind_Raise in H; destruct H as [H | (x & g & Hok & H)];
      [ raise_inv H | gen_inv Hok; stacks; raise_inv H ]
  | ret _ _ = Raise _ => discriminate H
  | get _ = Raise _ => discriminate H
  | append _ _ = Raise _ => discriminate H
  | new_label _ = Raise _ => discriminate H
  | new_temp _ = Raise _ => discriminate H
  | loop_stack_append _ _ = Raise _ => discriminate H
  | set_current_function _ _ = Raise _ => discriminate H
  | loop_stack_pop _ = Raise _ =>
      unfold loop_stack_pop in H; gen_simpl;
      repeat match goal with
      | Hs : loop_stack _ = _ |- _ => rewrite Hs in H; gen_simpl
      end;
      discriminate H
  | _ => idtac
  end.

(** *** Expressions fail on a literal of too many digits only *)

Lemma for_each_digits {T} (f : T -> G unit) l :
  Forall (fun x => fails_on_digits (f x)) l -> fails_on_digits (for_each f l).
Proof.
  induction 1 as [|x l Hx Hl IH]; intros g e H; simpl in H; [discriminate H|].
  apply bind_Raise in H. destruct H as [H | (y & g1 & _ & H)]; [exact (Hx _ _ H)|exact (IH _ _ H)].
Qed.

Lemma for_enumerate_digits {T} (f : N -> T -> G unit) l :
  Forall (fun x => forall i, fails_on_digits (f i x)) l ->
  forall i, fails_on_digits (for_enumerate f i l).
Proof.
  induction 1 as [|x l Hx Hl IH]; intros i g e H; simpl in H; [discriminate H|].
  apply bind_Raise in H.
  destruct H as [H | (y & g1 & _ & H)]; [exact (Hx _ _ _ H)|exact (IH _ _ _ H)].
Qed.

Lemma arg_digits (pe : node -> G (option string)) (mk : option string -> quad) x :
  fails_on_digits (pe x) -> fails_on_digits (bind (pe x) (fun v => append (mk v))).
Proof.
  intros Hx g e H. apply bind_Raise in H.
  destruct H as [H | (y & g1 & _ & H)]; [exact (Hx _ _ H)|discriminate H].
Qed.

Lemma _process_literal_digits n : fails_on_digits (_process_literal n).
Proof.
  intros g e H. destruct n; try discriminate H.
  unfold _process_literal, str in H.
  destruct (int_max_str_digits <? _) in H; [|discriminate H].
  injection H as <-. reflexivity.
Qed.

Theorem expr_fails_on_digits n : fails_on_digits (_process_expr n).
Proof.
  induction n; intros g e Hrun; rewrite _process_expr_eq in Hrun;
    unfold _process_expr_body in Hrun;
    cbn [tag_is node_type String.eqb Ascii.eqb Bool.eqb andb] in Hrun;
    try discriminate Hrun.
  all: unfold _process_binary_expr, _process_unary_expr, _process_call_expr,
         _process_if_expr, _process_loop_expr, _process_deref_expr, _process_ref_expr,
         _process_index_expr, _process_tuple_access, _process_array_literal,
         _process_tuple_literal in Hrun.
  all: try exact (_process_literal_digits _ _ _ Hrun).
  all: raise_inv Hrun.
  all: try (match goal with IH : fails_on_digits ?m, H : ?m _ = Raise _ |- _ =>
              exact (IH _ _ H) end).
  all: match goal with IH : list_all _ _ _ |- _ => apply list_all_Forall in IH end;
       revert Hrun; first [apply for_each_digits | apply for_enumerate_digits];
       eapply Forall_impl; [eassumption|]; intros elt Helt; try intros i;
       apply arg_digits, Helt.
Qed.

(** *** Statements fail at a [break] or [continue] outside of a loop *)

Lemma outcome_digits {T} (m : G T) g : fails_on_digits m -> outcome (m g) true.
Proof.
  intros H. unfold outcome. destruct (m g) as [[x g']|e] eqn:E; [reflexivity|].
  right. exact (H _ _ E).
Qed.

Lemma for_each_outcome (f : node -> G unit) (ok : bool -> node -> bool) l :
  Forall (fun x => forall g, outcome (f x g) (ok (in_loop g) x)) l ->
  (forall x g u g', f x g = Ok (u, g') -> loop_stack g' = loop_stack g) ->
  forall g, outcome (for_each f l g) (forallb (ok (in_loop g)) l).
Proof.
  intros Hl Hs. induction Hl as [|x l Hx Hl IH]; intros g; simpl; [reflexivity|].
  specialize (Hx g). unfold bind. destruct (f x g) as [[u g1]|e] eqn:E; cbn [outcome] in *.
  - rewrite Hx. cbn [andb]. specialize (IH g1).
    unfold in_loop in *. rewrite (Hs _ _ _ _ E) in IH. exact IH.
  - destruct Hx as [[-> He]|He]; [left; split; [reflexivity|exact He] | right; exact He].
Qed.

Lemma _process_block_outcome b :
  match b with
  | Block l | FunctionExprBlock l => Forall outcome_all l
  | _ => True
  end ->
  forall g, outcome (_process_block b g) (body_ok (in_loop g) b).
Proof.
  intros H g. rewrite _process_block_eq. unfold _process_block_body.
  destruct b; cbn [tag_is node_type String.eqb Ascii.eqb Bool.eqb andb body_ok];
    try reflexivity.
  - apply for_each_outcome; [|apply statement_stack].
    eapply Forall_impl; [exact H|]. intros x (_ & _ & Hx). exact Hx.
  - apply for_each_outcome; [|apply elements_stack].
    eapply Forall_impl; [exact H|]. intros x (_ & Hx & _). exact Hx.
Qed.

Lemma in_loop_true g c r : loop_stack g = c :: r -> in_loop g = true.
Proof. unfold in_loop. intros ->. reflexivity. Qed.

Lemma in_loop_same g g' : loop_stack g' = loop_stack g -> in_loop g' = in_loop g.
Proof. unfold in_loop. intros ->. reflexivity. Qed.

(** What the run of the body [b] of a statement started in [g0] says. *)
Ltac body_outcome Hb b g0 :=
  match goal with
  | H : _process_block b ?g = _ |- _ =>
      let Ho := fresh "Ho" in
      pose proof (Hb g) as Ho; rewrite H in Ho; cbn [outcome] in Ho;
      first [ erewrite (in_loop_true g) in Ho
                by (gen_simpl; first [reflexivity | eassumption])
            | rewrite (in_loop_same g0 g) in Ho by (gen_simpl; congruence) ];
      clear H
  end.

Ltac no_expr_raise :=
  match goal with
  | H : _process_expr _ _ = Raise _ |- _ =>
      first [ exact (expr_fails_on_digits _ _ _ H)
            | right; exact (expr_fails_on_digits _ _ _ H) ]
  end.

Lemma _process_while_stmt_outcome c b :
  (forall g, outcome (_process_block b g) (body_ok (in_loop g) b)) ->
  forall g, outcome (_process_while_stmt _process_expr _process_block (WhileStmt c b) g)
              (body_ok true b).
Proof.
  intros Hb g. unfold outcome.
  destruct (_process_while_stmt _ _ _ g) as [[u g']|e] eqn:H; unfold _process_while_stmt in H.
  - gen_inv H. stacks. body_outcome Hb b g. exact Ho.
  - raise_inv H; try no_expr_raise. body_outcome Hb b g. exact Ho.
Qed.

Lemma _process_for_stmt_outcome mu v vt st en b :
  (forall g, outcome (_process_block b g) (body_ok (in_loop g) b)) ->
  forall g, outcome (_process_for_stmt _process_expr _process_block
                       (ForStmt mu v vt st en b) g)
              (body_ok true b).
Proof.
  intros Hb g. unfold outcome.
  destruct (_process_for_stmt _ _ _ g) as [[u g']|e] eqn:H; unfold _process_for_stmt in H.
  - gen_inv H. stacks. body_outcome Hb b g. exact Ho.
  - raise_inv H; try no_expr_raise. body_outcome Hb b g. exact Ho.
Qed.

Lemma _process_loop_stmt_outcome b :
  (forall g, outcome (_process_block b g) (body_ok (in_loop g) b)) ->
  forall g, outcome (_process_loop_stmt _process_block (LoopStmt b) g) (body_ok true b).
Proof.
  intros Hb g. unfold outcome.
  destruct (_process_loop_stmt _ _ g) as [[u g']|e] eqn:H; unfold _process_loop_stmt in H.
  - gen_inv H. stacks. body_outcome Hb b g. exact Ho.
  - raise_inv H; try no_expr_raise. body_outcome Hb b g. exact Ho.
Qed.

Lemma _process_if_stmt_outcome c t e :
  (forall g, outcome (_process_block t g) (body_ok (in_loop g) t)) ->
  (forall x, e = Some x -> forall g, outcome (_process_block x g) (body_ok (in_loop g) x)) ->
  forall g, outcome (_process_if_stmt _process_expr _process_block (IfStmt c t e) g)
              (body_ok (in_loop g) t
               && match e with Some x => body_ok (in_loop g) x | None => true end).
Proof.
  intros Ht He g. unfold outcome.
  destruct (_process_if_stmt _ _ _ g) as [[u g']|err] eqn:H; unfold _process_if_stmt in H.
  - destruct e as [x|]; gen_inv H; stacks; body_outcome Ht t g; rewrite Ho; cbn [andb].
    + specialize (He x eq_refl). body_outcome He x g. exact Ho0.
    + reflexivity.
  - destruct e as [x|]; raise_inv H; try no_expr_raise.
    + body_outcome Ht t g.
      destruct Ho as [[-> Ho]|Ho]; [left; split; [reflexivity|exact Ho] | right; exact Ho].
    + body_outcome Ht t g. rewrite Ho. cbn [andb].
      specialize (He x eq_refl). body_outcome He x g. exact Ho0.
    + body_outcome Ht t g.
      destruct Ho as [[-> Ho]|Ho]; [left; split; [reflexivity|exact Ho] | right; exact Ho].
Qed.

Lemma _process_break_stmt_outcome stmt g :
  outcome (_process_break_stmt stmt g) (in_loop g).
Proof.
  unfold _process_break_stmt, bind, get, in_loop.
  destruct (loop_stack g); [|reflexivity]. left. split; [reflexivity|]. left. reflexivity.
Qed.

Lemma _process_continue_stmt_outcome stmt g :
  outcome (_process_continue_stmt stmt g) (in_loop g).
Proof.
  unfold _process_continue_stmt, bind, get, in_loop.
  destruct (loop_stack g); [|reflexivity]. left. split; [reflexivity|]. right. reflexivity.
Qed.

Lemma _process_assignment_digits stmt : fails_on_digits (_process_assignment _process_expr stmt).
Proof.
  intros g e H. unfold _process_assignment in H.
  destruct stmt; try discriminate H.
  apply bind_Raise in H. destruct H as [H | (x & g1 & _ & H)]; [no_expr_raise|].
  match type of H with context [tag_is ?t _] => destruct t end;
    cbn [tag_is node_type String.eqb Ascii.eqb Bool.eqb andb] in H;
    try discriminate H; raise_inv H; no_expr_raise.
Qed.

Lemma _process_return_stmt_digits stmt : fails_on_digits (_process_return_stmt _process_expr stmt).
Proof.
  intros g e H. unfold _process_return_stmt in H.
  destruct stmt; try discriminate H.
  match type of H with context [match ?o with Some _ => _ | None => _ end] => destruct o end;
    [|discriminate H].
  raise_inv H. no_expr_raise.
Qed.

Lemma expr_stmt_digits expr :
  fails_on_digits (bind (_process_expr expr) (fun _ => ret tt)).
Proof. intros g e H. raise_inv H. no_expr_raise. Qed.

Lemma _process_variable_decl_digits decl :
  fails_on_digits (_process_variable_decl _process_expr decl).
Proof.
  intros g e H. unfold _process_variable_decl in H.
  destruct decl; try discriminate H.
  match type of H with context [match ?o with Some _ => _ | None => _ end] => destruct o end;
    raise_inv H. no_expr_raise.
Qed.

Lemma option_all_outcome o :
  option_all node outcome_all o -> forall x, o = Some x -> outcome_all x.
Proof. intros H. destruct H; intros x Hx; [injection Hx as <-; assumption | discriminate]. Qed.

Lemma loops_ok_while d c b : loops_ok d (WhileStmt c b) = body_ok true b.
Proof. reflexivity. Qed.
Lemma loops_ok_for d mu v vt st en b : loops_ok d (ForStmt mu v vt st en b) = body_ok true b.
Proof. reflexivity. Qed.
Lemma loops_ok_loop d b : loops_ok d (LoopStmt b) = body_ok true b.
Proof. reflexivity. Qed.
Lemma loops_ok_if d c t e :
  loops_ok d (IfStmt c t e)
  = body_ok d t && match e with Some x => body_ok d x | None => true end.
Proof. destruct e; reflexivity. Qed.
Lemma loops_ok_block d l : loops_ok d (Block l) = forallb (loops_ok d) l.
Proof. reflexivity. Qed.

Ltac body_hyp :=
  match goal with
  | H : outcome_all ?b |- forall g, outcome (_process_block ?b g) _ => exact (proj1 H)
  end.

Theorem statements_outcome n : outcome_all n.
Proof.
  induction n.
  all: repeat match goal with
         | IH : list_all _ _ _ |- _ => apply list_all_Forall in IH
         | IH : option_all _ _ ?o |- _ => pose proof (option_all_outcome o IH); clear IH
         end.
  all: split; [apply _process_block_outcome; try exact I; assumption|].
  all: split; intros g;
    rewrite ?_process_elements_eq, ?_process_statement_eq;
    unfold _process_elements_body, _process_statement_body;
    cbn [tag_is node_type String.eqb Ascii.eqb Bool.eqb andb];
    rewrite ?loops_ok_while, ?loops_ok_for, ?loops_ok_loop, ?loops_ok_if, ?loops_ok_block;
    try reflexivity.
  all: try (apply outcome_digits;
            first [ apply _process_assignment_digits | apply _process_return_stmt_digits
                  | apply expr_stmt_digits ]).
  all: try apply _process_break_stmt_outcome.
  all: try apply _process_continue_stmt_outcome.
  all: try (apply _process_while_stmt_outcome; body_hyp).
  all: try (apply _process_for_stmt_outcome; body_hyp).
  all: try (apply _process_loop_stmt_outcome; body_hyp).
  all: try (apply _process_if_stmt_outcome;
            [ body_hyp | intros x Hx; match goal with H : forall x, _ = Some x -> _ |- _ =>
                                        exact (proj1 (H x Hx)) end ]).
  all: try (apply _process_block_outcome; assumption).
  all: try (apply for_each_outcome; [|apply statement_stack];
            eapply Forall_impl; [eassumption|]; intros x (_ & _ & Hx); exact Hx).
Qed.

(** *** Functions and programs *)

Lemma _process_function_outcome decl g :
  outcome (_process_function decl g) (decl_ok (in_loop g) decl).
Proof.
  unfold outcome, decl_ok.
  destruct decl; try reflexivity.
  assert (Hb := proj1 (statements_outcome decl)).
  destruct (_process_function _ g) as [[u g']|e] eqn:H; unfold _process_function in H.
  - apply bind_Ok in H. destruct H as (? & ? & H0 & H). gen_inv H0.
    apply bind_Ok in H. destruct H as (? & ? & H0 & H). gen_inv H0.
    apply bind_Ok in H. destruct H as (? & gp & Hp & H).
    apply bind_Ok in H. destruct H as (? & gb & Hbody & _).
    assert (Hs : loop_stack gp = loop_stack g).
    { erewrite (for_each_stack _process_parameter params); [| |exact Hp]; [reflexivity|].
      intros p h v h' Hh. unfold _process_parameter in Hh. gen_inv Hh. reflexivity. }
    specialize (Hb gp). rewrite Hbody in Hb. cbn [outcome] in Hb.
    rewrite (in_loop_same g gp Hs) in Hb. exact Hb.
  - apply bind_Raise in H. destruct H as [H | (? & ? & H0 & H)]; [discriminate H|]. gen_inv H0.
    apply bind_Raise in H. destruct H as [H | (? & ? & H0 & H)]; [discriminate H|]. gen_inv H0.
    apply bind_Raise in H. destruct H as [H | (? & gp & Hp & H)].
    { right. revert H. apply for_each_digits, Forall_forall. intros p _ h e' Hh. discriminate Hh. }
    assert (Hs : loop_stack gp = loop_stack g).
    { erewrite (for_each_stack _process_parameter params); [| |exact Hp]; [reflexivity|].
      intros p h v h' Hh. unfold _process_parameter in Hh. gen_inv Hh. reflexivity. }
    apply bind_Raise in H. destruct H as [H | (? & gb & Hbody & H)].
    + specialize (Hb gp). rewrite H in Hb. cbn [outcome] in Hb.
      rewrite (in_loop_same g gp Hs) in Hb. exact Hb.
    + exfalso. unfold bind, get in H.
      destruct (negb _) in H; discriminate H.
Qed.

Lemma _process_function_stack decl g u g' :
  _process_function decl g = Ok (u, g') -> loop_stack g' = loop_stack g.
Proof.
  destruct decl; try (intros H; injection H as _ <-; reflexivity).
  unfold _process_function. intros H.
  apply bind_Ok in H. destruct H as (? & ? & H0 & H). gen_inv H0.
  apply bind_Ok in H. destruct H as (? & ? & H0 & H). gen_inv H0.
  apply bind_Ok in H. destruct H as (? & gp & Hp & H).
  apply bind_Ok in H. destruct H as (? & gb & Hbody & H).
  apply bind_Ok in H. destruct H as (? & ? & H0 & H). gen_inv H0.
  apply bind_Ok in H. destruct H as (? & gr & Hr & H). gen_inv H.
  assert (Hs : loop_stack gp = loop_stack g).
  { erewrite (for_each_stack _process_parameter params); [| |exact Hp]; [reflexivity|].
    intros p h v h' Hh. unfold _process_parameter in Hh. gen_inv Hh. reflexivity. }
  apply block_stack in Hbody.
  destruct (negb _) in Hr; gen_inv Hr; congruence.
Qed.

Lemma _process_declaration_outcome decl g :
  outcome (_process_declaration decl g) (decl_ok (in_loop g) decl).
Proof.
  unfold _process_declaration.
  destruct decl; cbn [tag_is node_type String.eqb Ascii.eqb Bool.eqb andb];
    try reflexivity.
  - apply _process_function_outcome.
  - apply outcome_digits, _process_variable_decl_digits.
Qed.

Lemma _process_declaration_stack decl g u g' :
  _process_declaration decl g = Ok (u, g') -> loop_stack g' = loop_stack g.
Proof.
  unfold _process_declaration.
  destruct decl; cbn [tag_is node_type String.eqb Ascii.eqb Bool.eqb andb];
    try (intros H; injection H as _ <-; reflexivity).
  - apply _process_function_stack.
  - unfold _process_variable_decl. intros H.
    match type of H with context [match ?o with Some _ => _ | None => _ end] => destruct o end;
      gen_inv H; stacks; congruence.
Qed.

Lemma generate_outcome_state g :
  outcome (generate g) (program_ok (QuadGen.ast g)).
Proof.
  unfold generate, bind, _reset, modify, get. gen_simpl.
  set (g0 := Generator (QuadGen.ast g) [] 0 0 [] None).
  assert (Hp : outcome (_process_program (QuadGen.ast g) g0) (program_ok (QuadGen.ast g))).
  { unfold _process_program, program_ok.
    destruct (QuadGen.ast g); cbn [tag_is node_type String.eqb Ascii.eqb Bool.eqb andb];
      try reflexivity.
    apply (for_each_outcome _process_declaration decl_ok declarations).
    - apply Forall_forall. intros d _ h. apply _process_declaration_outcome.
    - apply _process_declaration_stack. }
  unfold outcome in *. destruct (_process_program _ g0) as [[u g1]|e]; exact Hp.
Qed.

End QuadOutcome.

(** ** Analyzer and generator together *)

Module Pipeline.
Import SemaInv SemaInvFacts SemaScopes QuadVocab QuadOutcome.

Lemma loops_ok_mono_all s :
  (forall d, loops_ok d s = true -> loops_ok true s = true)
  /\ (forall d, body_ok d s = true -> body_ok true s = true).
Proof.
  assert (Hl : forall l,
             list_all node (fun s => (forall d, loops_ok d s = true -> loops_ok true s = true)
                                      /\ (forall d, body_ok d s = true -> body_ok true s = true)) l ->
             forall d, forallb (loops_ok d) l = true -> forallb (loops_ok true) l = true).
  { intros l Hl d. apply list_all_Forall in Hl.
    induction Hl as [|x l [Hx _] _ IH]; [reflexivity|].
    cbn [forallb]. intros H. apply andb_true_iff in H as [H1 H2].
    rewrite (Hx _ H1), (IH H2). reflexivity. }
  induction s; (split; intros d Hok; try reflexivity; try exact Hok).
  all: repeat match goal with IH : _ /\ _ |- _ => destruct IH end.
  - rewrite !loops_ok_if in *. apply andb_true_iff in Hok as [Hok1 Hok2].
    match goal with Hb : forall d, body_ok d s2 = true -> _ |- _ => rewrite (Hb _ Hok1) end.
    cbn [andb]. destruct else_ as [x|]; [|reflexivity].
    match goal with IH : option_all _ _ _ |- _ => inversion IH as [? [_ Hx]|]; subst end.
    exact (Hx _ Hok2).
  - rewrite !loops_ok_block in *. eapply Hl; eassumption.
  - cbn [body_ok] in *. eapply Hl; eassumption.
  - cbn [body_ok] in *. eapply Hl; eassumption.
Qed.

Lemma loops_ok_mono s d : loops_ok d s = true -> loops_ok true s = true.
Proof. apply (proj1 (loops_ok_mono_all s)). Qed.

Lemma forallb_loops_ok_mono d l :
  forallb (loops_ok d) l = true -> forallb (loops_ok true) l = true.
Proof.
  induction l as [|x l IH]; [reflexivity|]. cbn [forallb]. intros H.
  apply andb_true_iff in H as [H1 H2]. rewrite (loops_ok_mono _ _ H1), (IH H2). reflexivity.
Qed.

Lemma visit_stmt_depth t s a a' :
  Sema.visit_stmt t s a = Ok (tt, a') -> Sema.loop_depth a' = Sema.loop_depth a.
Proof. intros H. destruct (proj1 (proj1 (scopes_visit s) t) a tt a' H) as (D & _). exact D. Qed.

Lemma visit_list_loops t l :
  Forall accepted_loops l ->
  forall a a',
    for_each (Sema.visit_stmt t) l a = Ok (tt, a') ->
    forallb no_bare_block l = true ->
    forallb (loops_ok (negb (Sema.loop_depth a =? 0)%Z)) l = true.
Proof.
  induction 1 as [|x l Hx _ IH]; intros a a' H Hn; [reflexivity|].
  simpl in H. apply bind_Ok in H. destruct H as ([] & a1 & H1 & H2).
  cbn [forallb] in *. apply andb_true_iff in Hn as [Hn1 Hn2].
  rewrite (Hx _ _ _ H1 Hn1). cbn [andb].
  rewrite <- (visit_stmt_depth _ _ _ _ H1). exact (IH _ _ H2 Hn2).
Qed.

Lemma infer_depth e a t a' :
  Sema.infer_expr_type e a = Ok (t, a') -> Sema.loop_depth a' = Sema.loop_depth a.
Proof. intros H. destruct (proj1 (proj1 (scopes_infer e)) a t a' H) as (_ & D & _). exact D. Qed.

Lemma option_all_accepted o :
  option_all node (fun n => accepted_loops n /\ accepted_loops_sub n) o ->
  forall x, o = Some x -> accepted_loops x /\ accepted_loops_sub x.
Proof. intros H. destruct H; intros x Hx; [injection Hx as <-; assumption | discriminate]. Qed.

Ltac visit_unfold H :=
  rewrite SemaFacts.visit_stmt_eq in H; unfold Sema.visit_stmt_body in H;
  cbn [tag_is node_type String.eqb Ascii.eqb Bool.eqb andb orb] in H.

Theorem accepted_loops_all s : accepted_loops s /\ accepted_loops_sub s.
Proof.
  induction s.
  all: repeat match goal with
         | IH : accepted_loops _ /\ accepted_loops_sub _ |- _ => destruct IH
         | IH : list_all _ _ _ |- _ => apply list_all_Forall in IH
         | IH : option_all _ _ ?o |- _ => pose proof (option_all_accepted o IH); clear IH
         end.
  all: split; [|try exact I].
  all: try (intros ty st st' Hv Hn; reflexivity).
  - (* IfStmt *)
    intros ty st st' Hv Hn. visit_unfold Hv. rewrite loops_ok_if.
    unfold Sema.check_if_body in Hv.
    apply bind_Ok in Hv. destruct Hv as (ct & st1 & Hc & Hv).
    apply infer_depth in Hc.
    apply bind_Ok in Hv. destruct Hv as ([] & st2 & Hr & Hv).
    assert (st2 = st1) as -> by (unfold Sema.raise_if in Hr; destruct (negb _);
                                 [discriminate|injection Hr as <-; reflexivity]).
    apply bind_Ok in Hv. destruct Hv as ([] & st3 & Ht & Hv).
    destruct s2; try discriminate Ht.
    cbn [no_bare_block] in Hn. apply andb_true_iff in Hn as [Hn1 Hn2].
    cbn [accepted_loops_sub] in *.
    match goal with Hl : Forall accepted_loops statements |- _ =>
      pose proof (visit_list_loops _ _ Hl _ _ Ht Hn1) as Hthen end.
    rewrite Hc in Hthen. cbn [body_ok]. rewrite Hthen. cbn [andb].
    destruct else_ as [x|]; [|reflexivity].
    destruct x; try reflexivity.
    + cbn [tag_is node_type String.eqb Ascii.eqb Bool.eqb andb] in Hv.
      match goal with Hx : forall x, Some _ = Some x -> _ |- _ =>
        destruct (Hx _ eq_refl) as [_ Hsub] end.
      cbn [accepted_loops_sub] in Hsub.
      pose proof (visit_list_loops _ _ Hsub _ _ Hv Hn2) as Helse.
      assert (D3 : Sema.loop_depth st3 = Sema.loop_depth st1).
      { destruct (scopes_visit_block _ _ _ _ _ Ht) as (D & _). exact D. }
      rewrite D3, Hc in Helse. exact Helse.
    + cbn [tag_is node_type String.eqb Ascii.eqb Bool.eqb andb] in Hv. discriminate Hv.
  - (* WhileStmt *)
    intros ty st st' Hv Hn. visit_unfold Hv. rewrite loops_ok_while.
    apply bind_Ok in Hv. destruct Hv as ([] & st1 & Hin & Hv). injection Hin as <-.
    apply bind_Ok in Hv. destruct Hv as ([] & st2 & Hb & _).
    destruct s2; try discriminate Hb.
    cbn [accepted_loops_sub no_bare_block body_ok] in *.
    match goal with Hl : Forall accepted_loops statements |- _ =>
      exact (forallb_loops_ok_mono _ _ (visit_list_loops _ _ Hl _ _ Hb Hn)) end.
  - (* ForStmt *)
    intros ty st st' Hv Hn. visit_unfold Hv. rewrite loops_ok_for.
    apply bind_Ok in Hv. destruct Hv as ([] & st1 & Hin & Hv). injection Hin as <-.
    apply bind_Ok in Hv. destruct Hv as ([] & st2 & Hpu & Hv). injection Hpu as <-.
    apply bind_Ok in Hv. destruct Hv as ([] & st3 & Hb & _).
    apply bind_Ok in Hb. destruct Hb as ([] & st4 & Hd & Hb).
    destruct s3; try discriminate Hb.
    cbn [accepted_loops_sub no_bare_block body_ok] in *.
    match goal with Hl : Forall accepted_loops statements |- _ =>
      exact (forallb_loops_ok_mono _ _ (visit_list_loops _ _ Hl _ _ Hb Hn)) end.
  - (* LoopStmt *)
    intros ty st st' Hv Hn. visit_unfold Hv. rewrite loops_ok_loop.
    apply bind_Ok in Hv. destruct Hv as ([] & st1 & Hin & Hv). injection Hin as <-.
    apply bind_Ok in Hv. destruct Hv as ([] & st2 & Hb & _).
    destruct s; try discriminate Hb.
    cbn [accepted_loops_sub no_bare_block body_ok] in *.
    match goal with Hl : Forall accepted_loops statements |- _ =>
      exact (forallb_loops_ok_mono _ _ (visit_list_loops _ _ Hl _ _ Hb Hn)) end.
  - (* BreakStmt *)
    intros ty st st' Hv _. visit_unfold Hv. unfold bind, get, Sema.raise_if in Hv.
    cbn [loops_ok]. destruct (Sema.loop_depth st =? 0)%Z; [discriminate Hv|reflexivity].
  - (* ContinueStmt *)
    intros ty st st' Hv _. visit_unfold Hv. unfold bind, get, Sema.raise_if in Hv.
    cbn [loops_ok]. destruct (Sema.loop_depth st =? 0)%Z; [discriminate Hv|reflexivity].
  - (* Block *)
    intros ty st st' Hv Hn. discriminate Hn.
  - cbn [accepted_loops_sub]. eapply Forall_impl; [eassumption|]. intros x [Hx _]. exact Hx.
Qed.

Lemma visit_function_loops decl st st' :
  Sema.visit_function decl st = Ok (tt, st') ->
  Sema.loop_depth st = 0%Z ->
  no_bare_block_decl decl = true ->
  decl_ok false decl = true.
Proof.
  intros Hv D Hn. destruct decl; try reflexivity. cbn [decl_ok no_bare_block_decl] in *.
  unfold Sema.visit_function in Hv.
  apply bind_Ok in Hv. destruct Hv as ([] & st1 & Hpu & Hv). injection Hpu as <-.
  apply bind_Ok in Hv. destruct Hv as ([] & st2 & Hv & _).
  apply bind_Ok in Hv. destruct Hv as ([] & st3 & Hp & Hv).
  assert (D3 : Sema.loop_depth st3 = 0%Z).
  { assert (Hs : holds scope_extended
                   (for_each (fun p => Sema.declare_variable (p_name p) (p_type p) (p_mut p) true)
                             params)).
    { apply (h_for_each scope_extended), Forall_forall. intros p _. apply scopes_declare. }
    destruct (Hs _ _ _ Hp) as (E & _). cbn in E. congruence. }
  match goal with |- body_ok _ ?b = true => destruct b end;
    try reflexivity; try discriminate Hv.
  cbn [body_ok no_bare_block_in] in *.
  match goal with |- forallb _ ?l = true =>
    assert (Hl : Forall accepted_loops l)
      by (apply Forall_forall; intros x _; apply accepted_loops_all);
    pose proof (visit_list_loops _ _ Hl _ _ Hv Hn) as Hok
  end.
  rewrite D3 in Hok. exact Hok.
Qed.

Lemma visit_functions_loops decls :
  forall a a',
    for_each Sema.visit_function decls a = Ok (tt, a') ->
    Sema.loop_depth a = 0%Z ->
    forallb no_bare_block_decl decls = true ->
    forallb (decl_ok false) decls = true.
Proof.
  induction decls as [|d r IH]; intros a a' H D Hn; [reflexivity|].
  simpl in H. apply bind_Ok in H. destruct H as ([] & a1 & H1 & H2).
  cbn [forallb] in *. apply andb_true_iff in Hn as [Hn1 Hn2].
  rewrite (visit_function_loops _ _ _ H1 D Hn1). cbn [andb].
  apply (IH a1 a' H2); [|exact Hn2].
  destruct (scopes_visit_function d _ _ _ H1) as (_ & D1 & _). congruence.
Qed.

Lemma accepted_program_ok program :
  Sema.run_analyze program = Ok tt ->
  no_bare_block_program program = true ->
  program_ok program = true.
Proof.
  unfold Sema.run_analyze. intros Hrun Hn.
  destruct (Sema.analyze (Sema.__init__ program)) as [[[] a']|] eqn:H; [|discriminate].
  destruct program; try reflexivity.
  destruct (analyze_passes _ _ H) as (a1 & H1 & H2).
  destruct (collect_functions _ _ _ H1) as (_ & D1 & _). cbn in D1.
  exact (visit_functions_loops _ _ _ H2 D1 Hn).
Qed.

End Pipeline.

(** ** Quadruple generator: frame, failures, layouts *)

Module QuadProps.
Import QuadGen QuadSpec QuadFacts QuadProgram QuadVocab QuadOutcome QuadLayout.

(** X15 (what a run leaves alone).  A successful run of
    [_process_expr], [_process_block], [_process_elements] or
    [_process_statement] only appends to the quad list; it leaves the
    tree, the loop stack and the current function as they were and never
    decreases a counter. *)
Theorem run_frame (g g' : generator) :
  runs_from g g' -> exists qs, frame g g' qs.
Proof.
  intros [(n & v & H) | [(n & H) | [(n & H) | (n & H)]]].
  - destruct (proj1 (process_frame n) _ _ _ H) as [qs Hp]. eauto using post_frame.
  - destruct (proj1 (proj2 (process_frame n)) _ _ _ H) as [qs Hp]. eauto using post_frame.
  - destruct (proj1 (proj2 (proj2 (process_frame n))) _ _ _ H) as [qs Hp].
    eauto using post_frame.
  - destruct (proj2 (proj2 (proj2 (process_frame n))) _ _ _ H) as [qs Hp].
    eauto using post_frame.
Qed.

Lemma run_frame_witness :
  exists qs, frame (__init__ Programs.ast_h) Programs.after_while_h qs.
Proof.
  apply run_frame. right. right. right.
  exists (WhileStmt (BinaryExpression ">" (Identifier "n") (Literal 0))
            (Block [Assignment (Identifier "n")
                      (BinaryExpression "-" (Identifier "n") (Literal 1))])).
  vm_compute. reflexivity.
Defined.

(** X17 (the two loop errors).  When [generate] returns a quad list,
    every [break] and [continue] that the statement methods reach is
    inside a loop.  When it raises the [ValueError] of
    [_process_break_stmt] or of [_process_continue_stmt], one of them is
    outside every loop. *)
Theorem generate_outcome (program : node) :
  match generate_quadruples program with
  | Ok _ => program_ok program = true
  | Raise e => outside_loop e -> program_ok program = false
  end.
Proof.
  unfold generate_quadruples.
  pose proof (generate_outcome_state (__init__ program)) as H.
  unfold outcome in H. cbn [QuadGen.ast __init__] in H.
  destruct (generate (__init__ program)) as [[qs g']|e]; [exact H|].
  intros He. destruct H as [[H _]|H]; [exact H|].
  subst e. destruct He as [He|He]; discriminate He.
Qed.

(** X18 (if statements).  An [IfStmt] appends, in this order: the quads
    of the condition; [ifz cond -> else]; the quads of the [then] block;
    [goto end]; the [else] label; the quads of the [else] block; the
    [end] label.  An [else] part that is itself an [IfStmt] (an
    [else if]) contributes no quads. *)
Theorem if_stmt_layout (condition then_ : node) (else_ : option node)
    (g : generator) (u : unit) (g' : generator) :
  _process_if_stmt _process_expr _process_block (IfStmt condition then_ else_) g = Ok (u, g') ->
  if_layout condition then_ else_ g g'.
Proof.
  intros Hrun. unfold _process_if_stmt in Hrun.
  apply bind_Ok in Hrun. destruct Hrun as (cond & g1 & Hcond & Hrun).
  apply bind_Ok in Hrun. destruct Hrun as (l0 & h0 & H0 & Hrun).
  apply new_label_Ok in H0. destruct H0 as [-> ->].
  apply bind_Ok in Hrun. destruct Hrun as (l1 & h1 & H1 & Hrun).
  apply new_label_Ok in H1. destruct H1 as [-> ->]. gen_simpl.
  apply bind_Ok in Hrun. destruct Hrun as (u2 & h2 & H2 & Hrun).
  apply append_Ok in H2. subst h2. gen_simpl.
  apply bind_Ok in Hrun. destruct Hrun as ([] & g2 & Hthen & Hrun).
  apply bind_Ok in Hrun. destruct Hrun as (u3 & h3 & H3 & Hrun).
  apply append_Ok in H3. subst h3.
  apply bind_Ok in Hrun. destruct Hrun as (u4 & h4 & H4 & Hrun).
  apply append_Ok in H4. subst h4. gen_simpl.
  apply bind_Ok in Hrun. destruct Hrun as ([] & g3 & Helse & Hrun).
  apply append_Ok in Hrun. subst g'.
  destruct (proj1 (process_frame condition) _ _ _ Hcond) as [qc [Cq _ _ _ _ _ _ _]].
  destruct (proj1 (proj2 (process_frame then_)) _ _ _ Hthen) as [qt [Tq _ _ _ _ _ _ _]].
  gen_simpl.
  assert (He : exists qe,
             quadruples g3
             = (quadruples g2 ++ [goto_quad (label_name (label_counter g1 + 1))]
                              ++ [label_quad (label_name (label_counter g1))]) ++ qe
             /\ (forall e, else_ = Some e -> tag_is e "IfStmt" = true -> qe = [])).
  { destruct else_ as [e|].
    - destruct (proj1 (proj2 (process_frame e)) _ _ _ Helse) as [qe [Eq _ _ _ _ _ _ _]].
      gen_simpl. exists qe. rewrite Eq, <- !app_assoc. split; [reflexivity|].
      intros e' He' Htag. injection He' as <-.
      rewrite _process_block_eq in Helse. unfold _process_block_body in Helse.
      destruct e; try discriminate Htag.
      cbn [tag_is node_type String.eqb Ascii.eqb Bool.eqb andb] in Helse.
      injection Helse as <-. gen_simpl.
      rewrite <- !app_assoc in Eq. apply app_inv_head in Eq.
      cbn [app] in Eq. destruct qe; [reflexivity|]. discriminate Eq.
    - injection Helse as <-. gen_simpl. exists []. rewrite app_nil_r, <- !app_assoc.
      split; [reflexivity|]. intros e He. discriminate He. }
  destruct He as (qe & Eq & Hdrop).
  exists cond, g1, qc, g2, qt, g3, qe. unfold appended, with_quads. gen_simpl.
  split; [exact Hcond|]. split; [exact Cq|]. split; [exact Hthen|]. split; [exact Tq|].
  split; [|split; [|split; [|exact Hdrop]]].
  - rewrite <- app_assoc in Helse. cbn [app] in Helse.
    destruct else_; [exact Helse|]. injection Helse as <-. reflexivity.
  - rewrite Eq, <- !app_assoc. reflexivity.
  - rewrite Eq, Tq, Cq, <- !app_assoc. reflexivity.
Qed.

Lemma if_stmt_layout_witness :
  if_layout (Identifier "a") (Block [ReturnStmt (Some (Literal 1))])
    (Some (IfStmt (Identifier "b") (Block [ReturnStmt (Some (Literal 2))]) None))
    (__init__ (Program [])) after_sample_if.
Proof. apply (if_stmt_layout _ _ _ _ tt). vm_compute. reflexivity. Defined.

(** X19 (for loops).  A [ForStmt] evaluates its two bounds once, before
    the loop, and then appends: [declare var]; [var = start]; the start
    label; [var < end] into a fresh temporary; [ifz] on it to the end
    label; the quads of the body; [var + 1] into a second fresh
    temporary; the copy back into [var]; [goto start]; the end label.
    The loop stack is as before. *)
Theorem for_stmt_layout (is_mut : bool) (var : string) (var_type : tyval)
    (start_ end_ body : node) (g : generator) (u : unit) (g' : generator) :
  _process_for_stmt _process_expr _process_block
    (ForStmt is_mut var var_type start_ end_ body) g = Ok (u, g') ->
  for_layout is_mut var var_type start_ end_ body g g'.
Proof.
  intros Hrun. unfold _process_for_stmt in Hrun.
  apply bind_Ok in Hrun. destruct Hrun as (start & g1 & Hstart & Hrun).
  apply bind_Ok in Hrun. destruct Hrun as (end_v & g2 & Hend & Hrun).
  apply bind_Ok in Hrun. destruct Hrun as (l0 & h0 & H0 & Hrun).
  apply new_label_Ok in H0. destruct H0 as [-> ->].
  apply bind_Ok in Hrun. destruct Hrun as (l1 & h1 & H1 & Hrun).
  apply new_label_Ok in H1. destruct H1 as [-> ->]. gen_simpl.
  apply bind_Ok in Hrun. destruct Hrun as (? & ? & H0 & Hrun). gen_inv H0.
  apply bind_Ok in Hrun. destruct Hrun as (? & ? & H0 & Hrun). gen_inv H0.
  apply bind_Ok in Hrun. destruct Hrun as (? & ? & H0 & Hrun). gen_inv H0.
  apply bind_Ok in Hrun. destruct Hrun as (? & ? & H0 & Hrun). gen_inv H0.
  apply bind_Ok in Hrun. destruct Hrun as (temp & ? & H0 & Hrun).
  unfold new_temp in H0. injection H0 as <- <-. gen_simpl.
  apply bind_Ok in Hrun. destruct Hrun as (? & ? & H0 & Hrun). gen_inv H0.
  apply bind_Ok in Hrun. destruct Hrun as (? & ? & H0 & Hrun). gen_inv H0.
  apply bind_Ok in Hrun. destruct Hrun as ([] & g3 & Hbody & Hrun).
  apply bind_Ok in Hrun. destruct Hrun as (inc_temp & ? & H0 & Hrun).
  unfold new_temp in H0. injection H0 as <- <-. gen_simpl.
  apply bind_Ok in Hrun. destruct Hrun as (? & ? & H0 & Hrun). gen_inv H0.
  apply bind_Ok in Hrun. destruct Hrun as (? & ? & H0 & Hrun). gen_inv H0.
  apply bind_Ok in Hrun. destruct Hrun as (? & ? & H0 & Hrun). gen_inv H0.
  apply bind_Ok in Hrun. destruct Hrun as (? & ? & H0 & Hrun). gen_inv H0.
  apply loop_stack_pop_Ok in Hrun. destruct Hrun as (c & r & Estack & ->). gen_simpl.
  rewrite <- !app_assoc in Hbody. cbn [app] in Hbody.
  destruct (proj1 (process_frame start_) _ _ _ Hstart) as [qs [Sq _ Ss _ _ _ _ _]].
  destruct (proj1 (process_frame end_) _ _ _ Hend) as [qe [Eq _ Es _ _ _ _ _]].
  destruct (proj1 (proj2 (process_frame body)) _ _ _ Hbody) as [qb [Bq _ Bs _ _ _ _ _]].
  gen_simpl.
  exists start, g1, qs, end_v, g2, qe, g3, qb. unfold appended, temp_name, label_quad, goto_quad.
  gen_simpl.
  split; [exact Hstart|]. split; [exact Sq|]. split; [exact Hend|]. split; [exact Eq|].
  split; [exact Hbody|]. split; [exact Bq|]. split; [|split; [reflexivity|]].
  - rewrite Bq, Eq, Sq, <- !app_assoc. reflexivity.
  - rewrite Bs in Estack. injection Estack as _ <-. congruence.
Qed.

Lemma for_stmt_layout_witness :
  for_layout true "i" TNone (Literal 1) (BinaryExpression "+" (Identifier "n") (Literal 1))
    (Block [Assignment (Identifier "n") (Identifier "i")])
    (__init__ (Program [])) after_sample_for.
Proof. apply (for_stmt_layout _ _ _ _ _ _ _ tt). vm_compute. reflexivity. Defined.

Lemma block_expr_none elements g :
  _process_expr (FunctionExprBlock elements) g = Ok (None, g).
Proof. rewrite _process_expr_eq. reflexivity. Qed.

(** X20 (loop expressions).  A [LoopExpr] over a block appends three
    quads only: the start label, [goto start] and the end label.  The
    elements of the block are not processed, and the result temporary
    that is returned is never assigned. *)
Theorem loop_expr_layout (elements : list node) (g : generator) :
  _process_expr (LoopExpr (FunctionExprBlock elements)) g
  = Ok (Some (temp_name (temp_counter g)), after_loop_expr g).
Proof.
  rewrite _process_expr_eq. unfold _process_expr_body.
  cbn [tag_is node_type String.eqb Ascii.eqb Bool.eqb andb].
  unfold _process_loop_expr, after_loop_expr, with_quads, temp_name, label_quad, goto_quad.
  unfold bind, new_label, new_temp, loop_stack_append, append, modify, loop_stack_pop, ret.
  rewrite block_expr_none. gen_simpl. rewrite <- !app_assoc. reflexivity.
Qed.

(** X21 (if expressions).  An [IfExpr] whose branches are blocks
    appends, after the quads of the condition: [ifz cond -> else]; a copy
    of [None] into the result temporary; [goto end]; the else label; a
    second copy of [None]; the end label.  The elements of the two
    blocks are not processed. *)
Theorem if_expr_layout (condition : node) (then_ else_ : list node)
    (g : generator) (cond : option string) (g1 : generator) :
  _process_expr condition g = Ok (cond, g1) ->
  _process_expr (IfExpr condition (FunctionExprBlock then_) (FunctionExprBlock else_)) g
  = Ok (Some (temp_name (temp_counter g1)), after_if_expr cond g1).
Proof.
  intros Hc. rewrite _process_expr_eq. unfold _process_expr_body.
  cbn [tag_is node_type String.eqb Ascii.eqb Bool.eqb andb].
  unfold _process_if_expr, after_if_expr, with_quads, temp_name, label_quad, goto_quad.
  unfold bind at 1. rewrite Hc.
  unfold bind, new_label, new_temp, append, modify, ret.
  repeat (rewrite block_expr_none; gen_simpl).
  rewrite <- !app_assoc. reflexivity.
Qed.

Lemma if_expr_layout_witness :
  _process_expr (IfExpr (Identifier "a") (FunctionExprBlock [Literal 1])
                   (FunctionExprBlock [Literal 0])) (__init__ (Program []))
  = Ok (Some (temp_name 0), after_if_expr (Some "a") (__init__ (Program []))).
Proof.
  apply (if_expr_layout (Identifier "a") [Literal 1] [Literal 0] (__init__ (Program []))
           (Some "a") (__init__ (Program []))).
  reflexivity.
Defined.

End QuadProps.

(** ** Parser: the top level *)

Module ParseFacts.
Import Lexer Parser ParseVocab.

Lemma pbind_Ok {T U} (m : P T) (k : T -> P U) s r :
  pbind m k s = Some (Ok r) ->
  exists x s1, m s = Some (Ok (x, s1)) /\ k x s1 = Some (Ok r).
Proof.
  unfold pbind. destruct (m s) as [[[x s1]|e]|]; intros H; try discriminate H. eauto.
Qed.

Lemma parse_function_expression_block_shape fuel s b s' :
  parse_function_expression_block fuel s = Some (Ok (b, s')) ->
  exists elements, b = FunctionExprBlock elements.
Proof.
  destruct fuel as [|fuel]; [discriminate|]. cbn [parse_function_expression_block].
  intros H. apply pbind_Ok in H. destruct H as (t & s1 & _ & H).
  apply pbind_Ok in H. destruct H as (elements & s2 & _ & H).
  injection H as <- _. eauto.
Qed.

Lemma parse_declaration_shape fuel s d s' :
  parse_declaration fuel s = Some (Ok (d, s')) -> function_decl d.
Proof.
  unfold parse_declaration. intros H.
  apply pbind_Ok in H. destruct H as (? & ? & _ & H).
  apply pbind_Ok in H. destruct H as (name & ? & _ & H).
  apply pbind_Ok in H. destruct H as (? & ? & _ & H).
  apply pbind_Ok in H. destruct H as (params & ? & _ & H).
  apply pbind_Ok in H. destruct H as (? & ? & _ & H).
  apply pbind_Ok in H. destruct H as (arrow & ? & _ & H).
  apply pbind_Ok in H. destruct H as (return_type & ? & _ & H).
  apply pbind_Ok in H. destruct H as (body & ? & Hb & H).
  injection H as <- _.
  destruct (parse_function_expression_block_shape _ _ _ _ Hb) as [elements ->].
  unfold function_decl. eauto.
Qed.

Lemma parse_program_shape fuel :
  forall decls s p s',
    parse_program fuel decls s = Some (Ok (p, s')) ->
    Forall function_decl decls ->
    exists declarations, p = Program declarations /\ Forall function_decl declarations.
Proof.
  induction fuel as [|fuel IH]; intros decls s p s' H Hd; [discriminate H|].
  cbn [parse_program] in H. unfold pbind at 1, is_at_end in H.
  destruct (bool_decide (s = [])).
  - injection H as <- _. eauto.
  - apply pbind_Ok in H. destruct H as (d & s1 & H1 & H).
    apply (IH _ _ _ _ H). apply Forall_app. split; [exact Hd|].
    constructor; [|constructor]. exact (parse_declaration_shape _ _ _ _ H1).
Qed.

Lemma append_empty (s : string) : s +:+ "" = s.
Proof. induction s as [|c s IH]; [reflexivity|]. rewrite LexFacts.append_cons, IH. reflexivity. Qed.

End ParseFacts.

(** ** Parser: no block where a statement is expected *)

Module ParseShape.
Import Lexer Parser ParseVocab ParseFacts QuadVocab.

Lemma pbind_Ok' {T U} (m : P T) (k : T -> P U) s r s' :
  pbind m k s = Some (Ok (r, s')) ->
  exists x s1, m s = Some (Ok (x, s1)) /\ k x s1 = Some (Ok (r, s')).
Proof. apply pbind_Ok. Qed.

(** Splits a successful run of a parser method into the runs of its
    steps, along the branch that was taken. *)
Ltac pinv H :=
  lazymatch type of H with
  | pbind _ _ _ = Some (Ok _) =>
      let x := fresh "x" in
      let s := fresh "s" in
      let H1 := fresh "Hstep" in
      apply pbind_Ok' in H; destruct H as (x & s & H1 & H); pinv H1; pinv H
  | pret _ _ = Some (Ok _) => unfold pret in H; injection H as ? ?; subst
  | praise _ _ = Some (Ok _) => discriminate H
  | pfail _ _ = Some (Ok _) => discriminate H
  | out_of_fuel _ = Some (Ok _) => discriminate H
  | (if ?c then _ else _) _ = Some (Ok _) => destruct c; pinv H
  | (match ?o with Some _ => _ | None => _ end) _ = Some (Ok _) => destruct o; pinv H
  | _ => idtac
  end.

Lemma good_binary_loop fuel ops operand :
  forall n s r s',
    binary_loop fuel ops operand n s = Some (Ok (r, s')) ->
    good n -> good r.
Proof.
  induction fuel as [|fuel IH]; intros n s r s' H Hn; [discriminate H|].
  cbn [binary_loop] in H. pinv H; [|exact Hn].
  apply (IH _ _ _ _ H). split; reflexivity.
Qed.

Lemma good_postfix_loop fuel expression :
  forall n s r s',
    postfix_loop fuel expression n s = Some (Ok (r, s')) ->
    good n -> good r.
Proof.
  induction fuel as [|fuel IH]; intros n s r s' H Hn; [discriminate H|].
  cbn [postfix_loop] in H. pinv H; try (split; reflexivity); try exact Hn.
  apply (IH _ _ _ _ H). split; reflexivity.
Qed.

Lemma good_block_loop fuel (statement : P node) :
  returns statement good ->
  forall acc s r s',
    block_loop fuel statement acc s = Some (Ok (r, s')) ->
    forallb no_bare_block acc = true -> forallb no_bare_block r = true.
Proof.
  intros Hs. induction fuel as [|fuel IH]; intros acc s r s' H Ha; [discriminate H|].
  cbn [block_loop] in H. pinv H; [exact Ha|].
  apply (IH _ _ _ _ H). rewrite forallb_app, Ha. cbn.
  rewrite (proj2 (Hs _ _ _ Hstep0)). reflexivity.
Qed.

Lemma good_element_loop fuel (statement expression block : P node) :
  returns statement good -> returns expression good -> returns block good ->
  forall acc s r s',
    element_loop fuel statement expression block acc s = Some (Ok (r, s')) ->
    forallb no_bare_block acc = true -> forallb no_bare_block r = true.
Proof.
  intros Hs He Hb. induction fuel as [|fuel IH]; intros acc s r s' H Ha; [discriminate H|].
  cbn [element_loop] in H. pinv H; try exact Ha.
  all: apply (IH _ _ _ _ H); rewrite forallb_app, Ha; cbn [forallb andb];
    try reflexivity.
  all: try match goal with
       | Hx : _ = Some (Ok (?x, _)) |- context [no_bare_block ?x] =>
           first [ rewrite (proj2 (Hs _ _ _ Hx)) | rewrite (proj2 (Hb _ _ _ Hx))
                 | rewrite (proj2 (He _ _ _ Hx)) ]; reflexivity
       end.
  match goal with
  | Hx : _ = Some (Ok (?x, _)) |- context [if ?c then ExprStmt ?x else ?x] =>
      destruct c; [reflexivity|]; rewrite (proj2 (He _ _ _ Hx)); reflexivity
  end.
Qed.

Lemma nbb_if c t e :
  no_bare_block (IfStmt c t e)
  = no_bare_block_in t && match e with Some x => no_bare_block_in x | None => true end.
Proof. destruct e; reflexivity. Qed.
Lemma nbb_while c b : no_bare_block (WhileStmt c b) = no_bare_block_in b.
Proof. reflexivity. Qed.
Lemma nbb_for mu v vt st en b : no_bare_block (ForStmt mu v vt st en b) = no_bare_block_in b.
Proof. reflexivity. Qed.
Lemma nbb_loop b : no_bare_block (LoopStmt b) = no_bare_block_in b.
Proof. reflexivity. Qed.

(** What the results of the steps satisfy, by the induction hypothesis
    and the lemmas on the loops. *)
Ltac use_ih :=
  repeat match goal with
  | Hr : returns ?f _, H : ?f _ = Some (Ok (_, _)) |- _ => apply Hr in H
  end;
  repeat match goal with
  | H : binary_loop _ _ _ _ _ = Some (Ok _) |- _ =>
      apply good_binary_loop in H; [|first [assumption | split; reflexivity]]
  | H : postfix_loop _ _ _ _ = Some (Ok _) |- _ =>
      apply good_postfix_loop in H; [|first [assumption | split; reflexivity]]
  | H : block_loop _ _ _ _ = Some (Ok _) |- _ =>
      apply good_block_loop in H; [|assumption|reflexivity]
  | H : element_loop _ _ _ _ _ _ = Some (Ok _) |- _ =>
      apply good_element_loop in H; [|assumption|assumption|assumption|reflexivity]
  end.

Ltac solve_good :=
  repeat match goal with
  | H : good_block _ |- _ => destruct H as (? & -> & ?)
  | H : good _ |- _ => destruct H
  end;
  first
    [ assumption
    | eexists; split; [reflexivity|assumption]
    | split; rewrite ?nbb_if, ?nbb_while, ?nbb_for, ?nbb_loop;
      cbn [no_bare_block no_bare_block_in];
      repeat match goal with H : _ = true |- _ => rewrite H end;
      reflexivity ].

Ltac parser_case f :=
  let s := fresh "s" in
  let r := fresh "r" in
  let s' := fresh "s'" in
  let H := fresh "H" in
  intros s r s' H; cbn [f] in H; pinv H; use_ih; solve_good.

Theorem good_parser_all fuel : good_parser fuel.
Proof.
  induction fuel as [|fuel IH].
  { unfold good_parser.
    repeat match goal with |- _ /\ _ => split end; intros s r s' H; discriminate H. }
  destruct IH as (Hstmt & Hexpr & Hifx & Hcmp & Hadd & Hterm & Hfac & Harr & Hvar & Hif
                  & Hwh & Hfor & Hloop & Hblock & Hfblock).
  unfold good_parser.
  split; [parser_case parse_statement|].
  split; [parser_case parse_expression|].
  split; [parser_case parse_if_expression|].
  split; [parser_case parse_comparison|].
  split; [parser_case parse_additive|].
  split; [parser_case parse_term|].
  split; [parser_case parse_factor|].
  split; [parser_case parse_array_literal|].
  split; [parser_case parse_variable_decl|].
  split; [parser_case parse_if|].
  split; [parser_case parse_while|].
  split; [parser_case parse_for|].
  split; [parser_case parse_loop_stmt|].
  split; [parser_case parse_block|].
  parser_case parse_function_expression_block.
Qed.

Lemma parse_declaration_good fuel s d s' :
  parse_declaration fuel s = Some (Ok (d, s')) -> no_bare_block_decl d = true.
Proof.
  unfold parse_declaration. intros H. pinv H.
  all: match goal with Hb : parse_function_expression_block _ _ = _ |- _ =>
    apply (proj2 (proj2 (proj2 (proj2 (proj2 (proj2 (proj2 (proj2 (proj2 (proj2 (proj2
             (proj2 (proj2 (proj2 (good_parser_all fuel))))))))))))))) in Hb;
    destruct Hb as [Hb _]; exact Hb
  end.
Qed.

Lemma parse_program_good fuel :
  forall decls s p s',
    parse_program fuel decls s = Some (Ok (p, s')) ->
    forallb no_bare_block_decl decls = true ->
    no_bare_block_program p = true.
Proof.
  induction fuel as [|fuel IH]; intros decls s p s' H Hd; [discriminate H|].
  cbn [parse_program] in H. unfold pbind at 1, is_at_end in H.
  destruct (bool_decide (s = [])).
  - injection H as <- _. exact Hd.
  - apply pbind_Ok in H. destruct H as (d & s1 & H1 & H).
    apply (IH _ _ _ _ H). rewrite forallb_app, Hd. cbn.
    rewrite (parse_declaration_good _ _ _ _ H1). reflexivity.
Qed.

Lemma parse_good fuel tokens program :
  parse fuel tokens = Some (Ok program) -> no_bare_block_program program = true.
Proof.
  unfold parse. intros H.
  destruct (parse_program fuel [] tokens) as [[[p s']|e]|] eqn:E; try discriminate H.
  injection H as <-. exact (parse_program_good _ _ _ _ _ E eq_refl).
Qed.

End ParseShape.
(** ** Parser: where the blocks stand *)

Module ParsePlaced.
Import Lexer Parser ParseVocab ParseFacts ParseShape.

Lemma blocks_placed_if c t e :
  blocks_placed (IfStmt c t e)
  = blocks_placed c && placed_body t
    && match e with Some x => placed_body x | None => true end.
Proof. destruct e; reflexivity. Qed.
Lemma blocks_placed_while c b :
  blocks_placed (WhileStmt c b) = blocks_placed c && placed_body b.
Proof. reflexivity. Qed.
Lemma blocks_placed_for mu v vt st en b :
  blocks_placed (ForStmt mu v vt st en b)
  = blocks_placed st && blocks_placed en && placed_body b.
Proof. reflexivity. Qed.
Lemma blocks_placed_loop b : blocks_placed (LoopStmt b) = placed_body b.
Proof. reflexivity. Qed.

Lemma placed_body_placed n : blocks_placed n = true -> placed_body n = true.
Proof. destruct n; try (intros H; exact H). intros H. discriminate H. Qed.

(** A node built from parts that satisfy the invariant. *)
Ltac placed_norm :=
  unfold placed, placed_list in *;
  repeat match goal with
  | H : placed_block _ |- _ => destruct H as (? & -> & ?)
  end.

Ltac solve_placed :=
  placed_norm;
  first
    [ assumption
    | reflexivity
    | eexists; split; [reflexivity|assumption]
    | rewrite ?blocks_placed_if, ?blocks_placed_while, ?blocks_placed_for,
        ?blocks_placed_loop;
      cbn [blocks_placed placed_body forallb andb];
      repeat match goal with
      | H : blocks_placed ?x = true |- context [placed_body ?x] =>
          rewrite (placed_body_placed x H)
      | H : _ = true |- _ => rewrite H
      end;
      reflexivity ].

Lemma placed_binary_loop fuel ops operand :
  returns operand placed ->
  forall n s r s',
    binary_loop fuel ops operand n s = Some (Ok (r, s')) ->
    placed n -> placed r.
Proof.
  intros Ho. induction fuel as [|fuel IH]; intros n s r s' H Hn; [discriminate H|].
  cbn [binary_loop] in H. pinv H; [|exact Hn].
  apply (IH _ _ _ _ H).
  match goal with Hx : _ = Some (Ok (_, _)) |- _ => apply Ho in Hx end.
  solve_placed.
Qed.

Lemma placed_postfix_loop fuel expression :
  returns expression placed ->
  forall n s r s',
    postfix_loop fuel expression n s = Some (Ok (r, s')) ->
    placed n -> placed r.
Proof.
  intros He. induction fuel as [|fuel IH]; intros n s r s' H Hn; [discriminate H|].
  cbn [postfix_loop] in H. pinv H; try solve_placed.
  apply (IH _ _ _ _ H).
  match goal with Hx : _ = Some (Ok (_, _)) |- _ => apply He in Hx end.
  solve_placed.
Qed.

Lemma placed_comma_loop fuel (p : P node) :
  returns p placed ->
  forall acc s r s',
    comma_loop fuel p acc s = Some (Ok (r, s')) ->
    placed_list acc -> placed_list r.
Proof.
  intros Hp. induction fuel as [|fuel IH]; intros acc s r s' H Ha; [discriminate H|].
  cbn [comma_loop] in H. pinv H; [|exact Ha].
  apply (IH _ _ _ _ H).
  match goal with Hx : _ = Some (Ok (_, _)) |- _ => apply Hp in Hx end.
  unfold placed_list, placed in *. rewrite forallb_app, Ha. cbn [forallb andb].
  match goal with Hx : blocks_placed _ = true |- _ => rewrite Hx end. reflexivity.
Qed.

Lemma placed_comma_loop1 fuel (p : P node) :
  returns p placed ->
  forall acc s r s',
    comma_loop1 fuel p acc s = Some (Ok (r, s')) ->
    placed_list acc -> placed_list r.
Proof.
  intros Hp. induction fuel as [|fuel IH]; intros acc s r s' H Ha; [discriminate H|].
  cbn [comma_loop1] in H. pinv H.
  all: match goal with Hx : _ = Some (Ok (_, _)) |- _ => apply Hp in Hx end.
  all: try apply (IH _ _ _ _ H).
  all: unfold placed_list, placed in *; rewrite forallb_app, Ha; cbn [forallb andb].
  all: match goal with Hx : blocks_placed _ = true |- _ => rewrite Hx end; reflexivity.
Qed.

Lemma placed_block_loop fuel (statement : P node) :
  returns statement placed ->
  forall acc s r s',
    block_loop fuel statement acc s = Some (Ok (r, s')) ->
    placed_list acc -> placed_list r.
Proof.
  intros Hs. induction fuel as [|fuel IH]; intros acc s r s' H Ha; [discriminate H|].
  cbn [block_loop] in H. pinv H; [exact Ha|].
  apply (IH _ _ _ _ H).
  match goal with Hx : _ = Some (Ok (_, _)) |- _ => apply Hs in Hx end.
  unfold placed_list, placed in *. rewrite forallb_app, Ha. cbn [forallb andb].
  match goal with Hx : blocks_placed _ = true |- _ => rewrite Hx end. reflexivity.
Qed.

Lemma placed_element_loop fuel (statement expression block : P node) :
  returns statement placed -> returns expression placed -> returns block placed ->
  forall acc s r s',
    element_loop fuel statement expression block acc s = Some (Ok (r, s')) ->
    placed_list acc -> placed_list r.
Proof.
  intros Hs He Hb. induction fuel as [|fuel IH]; intros acc s r s' H Ha; [discriminate H|].
  cbn [element_loop] in H. pinv H; try exact Ha.
  all: apply (IH _ _ _ _ H); unfold placed_list, placed in *;
    rewrite forallb_app, Ha; cbn [forallb andb]; try reflexivity.
  all: repeat match goal with
       | Hx : _ = Some (Ok (_, _)) |- _ => apply Hs in Hx
       | Hx : _ = Some (Ok (_, _)) |- _ => apply He in Hx
       | Hx : _ = Some (Ok (_, _)) |- _ => apply Hb in Hx
       end; unfold placed in *.
  all: try (match goal with |- context [if ?c then _ else _] => destruct c end;
            cbn [blocks_placed]).
  all: match goal with Hx : blocks_placed _ = true |- _ => rewrite Hx end; reflexivity.
Qed.

(** What the results of the steps satisfy, by the induction hypothesis
    and the lemmas on the loops. *)
Ltac placed_ih :=
  repeat match goal with
  | Hr : returns ?f _, H : ?f _ = Some (Ok (_, _)) |- _ => apply Hr in H
  end;
  repeat match goal with
  | H : binary_loop _ _ _ _ _ = Some (Ok _) |- _ =>
      apply placed_binary_loop in H; [|assumption|solve_placed]
  | H : postfix_loop _ _ _ _ = Some (Ok _) |- _ =>
      apply placed_postfix_loop in H; [|assumption|solve_placed]
  | H : comma_loop _ _ _ _ = Some (Ok _) |- _ =>
      apply placed_comma_loop in H; [|assumption|solve_placed]
  | H : comma_loop1 _ _ _ _ = Some (Ok _) |- _ =>
      apply placed_comma_loop1 in H; [|assumption|solve_placed]
  | H : block_loop _ _ _ _ = Some (Ok _) |- _ =>
      apply placed_block_loop in H; [|assumption|solve_placed]
  | H : element_loop _ _ _ _ _ _ = Some (Ok _) |- _ =>
      apply placed_element_loop in H; [|assumption|assumption|assumption|solve_placed]
  end.

Ltac placed_case f :=
  let s := fresh "s" in
  let r := fresh "r" in
  let s' := fresh "s'" in
  let H := fresh "H" in
  intros s r s' H; cbn [f] in H; pinv H; placed_ih; solve_placed.

Theorem placed_parser_all fuel : placed_parser fuel.
Proof.
  induction fuel as [|fuel IH].
  { unfold placed_parser.
    repeat match goal with |- _ /\ _ => split end; intros s r s' H; discriminate H. }
  destruct IH as (Hstmt & Hexpr & Hifx & Hcmp & Hadd & Hterm & Hfac & Harr & Hargs & Hvar
                  & Hif & Hwh & Hfor & Hloop & Hblock & Hfblock).
  unfold placed_parser.
  split; [placed_case parse_statement|].
  split; [placed_case parse_expression|].
  split; [placed_case parse_if_expression|].
  split; [placed_case parse_comparison|].
  split; [placed_case parse_additive|].
  split; [placed_case parse_term|].
  split; [placed_case parse_factor|].
  split; [placed_case parse_array_literal|].
  split; [placed_case parse_arg_list|].
  split; [placed_case parse_variable_decl|].
  split; [placed_case parse_if|].
  split; [placed_case parse_while|].
  split; [placed_case parse_for|].
  split; [placed_case parse_loop_stmt|].
  split; [placed_case parse_block|].
  placed_case parse_function_expression_block.
Qed.

Lemma parse_declaration_placed fuel s d s' :
  parse_declaration fuel s = Some (Ok (d, s')) -> placed d.
Proof.
  unfold parse_declaration. intros H. pinv H.
  all: match goal with Hb : parse_function_expression_block _ _ = _ |- _ =>
    apply (proj2 (proj2 (proj2 (proj2 (proj2 (proj2 (proj2 (proj2 (proj2 (proj2 (proj2
             (proj2 (proj2 (proj2 (proj2 (placed_parser_all fuel)))))))))))))))) in Hb;
    exact Hb
  end.
Qed.

Lemma parse_program_placed fuel :
  forall decls s p s',
    parse_program fuel decls s = Some (Ok (p, s')) ->
    placed_list decls -> placed p.
Proof.
  induction fuel as [|fuel IH]; intros decls s p s' H Hd; [discriminate H|].
  cbn [parse_program] in H. unfold pbind at 1, is_at_end in H.
  destruct (bool_decide (s = [])).
  - injection H as <- _. exact Hd.
  - apply pbind_Ok in H. destruct H as (d & s1 & H1 & H).
    apply (IH _ _ _ _ H). unfold placed_list in *. rewrite forallb_app, Hd. cbn.
    rewrite (parse_declaration_placed _ _ _ _ H1). reflexivity.
Qed.

Lemma parse_placed fuel tokens program :
  parse fuel tokens = Some (Ok program) -> placed program.
Proof.
  unfold parse. intros H.
  destruct (parse_program fuel [] tokens) as [[[p s']|e]|] eqn:E; try discriminate H.
  injection H as <-. exact (parse_program_placed _ _ _ _ _ E eq_refl).
Qed.

End ParsePlaced.
(** ** Parser: what it returns and rejects *)

Module ParseProps.
Import Lexer Parser ParseVocab ParseFacts ParsePlaced LexVocab.

(** X23 (what [parse] returns).  The tree that [parse] returns is a
    [Program] whose declarations are all [FunctionDecl] nodes with a
    [FunctionExprBlock] body, and every [Block] node in the tree, at any
    depth, is the [then] or [else] part of an [IfStmt] or the body of a
    [WhileStmt], [ForStmt] or [LoopStmt]: a [Block] never stands as a
    statement, an element or an expression of its own. *)
Theorem parse_shape (fuel : nat) (tokens : list Token) (program : node) :
  parse fuel tokens = Some (Ok program) ->
  (exists declarations,
      program = Program declarations /\ Forall function_decl declarations)
  /\ blocks_placed program = true.
Proof.
  intros H. split; [|exact (parse_placed _ _ _ H)].
  unfold parse in H.
  destruct (parse_program fuel [] tokens) as [[[p s']|e]|] eqn:E; try discriminate H.
  injection H as <-. apply (parse_program_shape _ _ _ _ _ E). constructor.
Qed.

Lemma parse_shape_witness :
  (exists declarations,
      nested_tree = Program declarations /\ Forall function_decl declarations)
  /\ blocks_placed nested_tree = true.
Proof. apply (parse_shape 40 nested_tokens). vm_compute. reflexivity. Defined.

(** X24 (a program starts with [fn]).  A token list that starts with
    anything but the keyword [fn] is rejected with a [SyntaxError]: the
    top level holds function declarations only. *)
Theorem parse_requires_fn (fuel : nat) (tok : Token) (rest : list Token) :
  token_is tok KEYWORD (Some "fn") = false ->
  exists msg, parse (S fuel) (tok :: rest) = Some (Raise (SyntaxError msg)).
Proof.
  intros H. exists "Expected token". unfold parse. cbn [parse_program].
  unfold parse_declaration, pbind, is_at_end, consume.
  rewrite bool_decide_eq_false_2 by discriminate. rewrite H. reflexivity.
Qed.

Lemma parse_requires_fn_witness :
  exists msg,
    parse 1 [mkToken KEYWORD (VStr "let"); mkToken IDENTIFIER (VStr "a");
             mkToken SEPARATOR (VStr ";")]
    = Some (Raise (SyntaxError msg)).
Proof. apply parse_requires_fn. reflexivity. Defined.

(** X25 (blank source).  A source of white space only parses to the
    program with no declarations. *)
Theorem parse_blank_source (fuel : nat) (ws : string) :
  all_space ws = true ->
  parse_source (S fuel) ws = Some (Ok (Program [])).
Proof.
  intros H. unfold parse_source.
  rewrite <- (append_empty ws), (LexMore.lex_skips_leading_space ws "" H).
  reflexivity.
Qed.

Lemma parse_blank_source_witness :
  parse_source 1 (String (ascii_of_N 10) "  ") = Some (Ok (Program [])).
Proof. apply parse_blank_source. reflexivity. Defined.

End ParseProps.
(** ** From the analyzer to the generator *)

Module PipelineProps.
Import QuadVocab QuadOutcome Pipeline ParseShape.

Lemma program_ok_no_loop_error (program : node) :
  program_ok program = true ->
  forall e, QuadGen.generate_quadruples program = Raise e -> ~ outside_loop e.
Proof.
  intros Hok e. unfold QuadGen.generate_quadruples.
  pose proof (generate_outcome_state (QuadGen.__init__ program)) as Hg.
  unfold outcome in Hg. cbn [QuadGen.ast QuadGen.__init__] in Hg.
  destruct (QuadGen.generate (QuadGen.__init__ program)) as [[qs g']|e']; [discriminate|].
  intros He Hout. injection He as ->.
  destruct Hg as [[Hg _]|Hg]; [congruence|].
  subst e. destruct Hout as [Hout|Hout]; discriminate Hout.
Qed.

(** X22 (accepted programs and the loop errors).  For a program in
    which no [Block] stands where a statement is expected, as in every
    tree the parser builds: if [analyze] accepts the program, [generate]
    does not raise the [ValueError] of [_process_break_stmt] or of
    [_process_continue_stmt]. *)
Theorem accepted_program_no_loop_error (program : node) :
  no_bare_block_program program = true ->
  Sema.run_analyze program = Ok tt ->
  forall e, QuadGen.generate_quadruples program = Raise e -> ~ outside_loop e.
Proof.
  intros Hn Hrun. apply program_ok_no_loop_error, (accepted_program_ok program Hrun Hn).
Qed.

Lemma accepted_program_no_loop_error_witness :
  Sema.run_analyze Programs.ast_loops = Ok tt
  /\ forall e, QuadGen.generate_quadruples Programs.ast_loops = Raise e -> ~ outside_loop e.
Proof.
  split; [vm_compute; reflexivity|].
  apply accepted_program_no_loop_error; vm_compute; reflexivity.
Defined.

(** X26 (from source text to quads).  When a source text lexes and
    parses to a tree and [analyze] accepts the tree, [generate] on the
    tree does not raise the [ValueError] of [_process_break_stmt] or of
    [_process_continue_stmt]: the analyzer has ruled them out. *)
Theorem parsed_accepted_no_loop_error (fuel : nat) (code : string) (program : node) :
  Parser.parse_source fuel code = Some (Ok program) ->
  Sema.run_analyze program = Ok tt ->
  forall e, QuadGen.generate_quadruples program = Raise e -> ~ outside_loop e.
Proof.
  intros Hp Hrun. unfold Parser.parse_source in Hp.
  destruct (Lexer.lex code) as [[tokens|e]|]; try discriminate Hp.
  apply program_ok_no_loop_error, (accepted_program_ok program Hrun), (parse_good _ _ _ Hp).
Qed.

Lemma parsed_accepted_no_loop_error_witness :
  Parser.parse_source Programs.budget Programs.src_loops = Some (Ok Programs.ast_loops)
  /\ Sema.run_analyze Programs.ast_loops = Ok tt
  /\ forall e, QuadGen.generate_quadruples Programs.ast_loops = Raise e -> ~ outside_loop e.
Proof.
  split; [vm_compute; reflexivity|]. split; [vm_compute; reflexivity|].
  apply (parsed_accepted_no_loop_error Programs.budget Programs.src_loops);
    vm_compute; reflexivity.
Defined.

End PipelineProps.
